(** * NVMP remover: a shallow embedding of [remove_nvmp.py]

    The development follows the script top-down: the name matcher
    ([pat_match] and its compiled patterns), [pathlib] paths, the scanner
    ([walk_find_matches], [collapse_covered_paths]), the root builder
    ([build_roots]) and the two mutating operations ([remove_path],
    [strip_nvmp_lines_from_text_file]) over an in-memory file system with
    injected I/O failures.

    Modelling conventions.
    - Python [str] is [string]; the case mapping, the word class [\w] and
      the space class [\s] are those of the ASCII range (other characters
      are left alone by [lower] and are neither word nor space).
    - A [pathlib] path is its drive, root and tail; the flavour (POSIX or
      Windows) fixes the separator, the case folding used by path equality
      and the line separator of text-mode writes.
    - File-system code runs in a state-and-exception monad; every primitive
      first consults a script of injected faults, so each call may raise. *)

From stdpp Require Import gmap strings list sorting.
From Stdlib Require Import Ascii String Lia Permutation Sorted DecimalString.

Open Scope string_scope.
Open Scope list_scope.

Set Warnings "-register-all".

(** ** Characters and strings *)

Module Str.

Definition code (c : ascii) : nat := nat_of_ascii c.

Definition is_upper (c : ascii) : bool :=
  (65 <=? code c)%nat && (code c <=? 90)%nat.

Definition is_lower (c : ascii) : bool :=
  (97 <=? code c)%nat && (code c <=? 122)%nat.

Definition is_digit (c : ascii) : bool :=
  (48 <=? code c)%nat && (code c <=? 57)%nat.

(** [\w]: letters, digits and the underscore. *)
Definition is_word (c : ascii) : bool :=
  is_upper c || is_lower c || is_digit c || (code c =? 95)%nat.

(** [\s]: tab, line feed, vertical tab, form feed, carriage return, the
    four separators 0x1c..0x1f and the space. *)
Definition is_space (c : ascii) : bool :=
  ((9 <=? code c)%nat && (code c <=? 13)%nat)
  || ((28 <=? code c)%nat && (code c <=? 32)%nat).

Definition char_lower (c : ascii) : ascii :=
  if is_upper c then ascii_of_nat (code c + 32) else c.

(** [s.lower()] *)
Fixpoint lower (s : string) : string :=
  match s with
  | EmptyString => EmptyString
  | String c s' => String (char_lower c) (lower s')
  end.

(** [s.replace(c, "")] for a one-character [c]. *)
Fixpoint remove_char (c : ascii) (s : string) : string :=
  match s with
  | EmptyString => EmptyString
  | String x s' =>
      if Ascii.eqb x c then remove_char c s' else String x (remove_char c s')
  end.

(** ["".join(l)] *)
Definition concat_all (l : list string) : string :=
  fold_right String.append EmptyString l.

(** [sep.join(l)] *)
Fixpoint join (sep : string) (l : list string) : string :=
  match l with
  | [] => EmptyString
  | [x] => x
  | x :: l' => x +:+ sep +:+ join sep l'
  end.

End Str.

(** ** Compiled patterns

    The five patterns of [NVMP_NAME_PATTERNS] use literals, [\s*] and [\b]
    only.  [re_search] is [Pattern.search]: it tries every start position
    and explores every length of each [\s*]. *)

Module Re.

Inductive atom : Type :=
  | Lit (c : ascii)
  | SpaceStar
  | WordBoundary.

Record pattern : Type := Compile { atoms : list atom; ignorecase : bool }.

Definition char_eqb (ic : bool) (x c : ascii) : bool :=
  if ic then Ascii.eqb (Str.char_lower x) (Str.char_lower c)
  else Ascii.eqb x c.

Definition opt_word (o : option ascii) : bool :=
  match o with Some c => Str.is_word c | None => false end.

Definition head (s : string) : option ascii :=
  match s with String c _ => Some c | EmptyString => None end.

(** [\b] holds between [prev] and the rest [s] when exactly one side is
    a word character; the ends of the text count as non-word. *)
Definition at_boundary (prev : option ascii) (s : string) : bool :=
  xorb (opt_word prev) (opt_word (head s)).

Fixpoint match_here (ic : bool) (r : list atom)
  : option ascii -> string -> bool :=
  match r with
  | [] => fun _ _ => true
  | Lit c :: r' => fun _ s =>
      match s with
      | String x s' => char_eqb ic x c && match_here ic r' (Some x) s'
      | EmptyString => false
      end
  | WordBoundary :: r' => fun prev s =>
      at_boundary prev s && match_here ic r' prev s
  | SpaceStar :: r' =>
      fix star (prev : option ascii) (s : string) : bool :=
        match_here ic r' prev s
        || match s with
           | String x s' => Str.is_space x && star (Some x) s'
           | EmptyString => false
           end
  end.

Fixpoint search_from (ic : bool) (r : list atom)
  (prev : option ascii) (s : string) : bool :=
  match_here ic r prev s
  || match s with
     | String x s' => search_from ic r (Some x) s'
     | EmptyString => false
     end.

Definition re_search (p : pattern) (s : string) : bool :=
  search_from (ignorecase p) (atoms p) None s.

Definition lits (s : string) : list atom :=
  map Lit (list_ascii_of_string s).

End Re.

(** ** Identification heuristics *)

Definition NVMP_NAME_PATTERNS : list Re.pattern :=
  [ Re.Compile ([Re.WordBoundary] ++ Re.lits "nvmp" ++ [Re.WordBoundary]) true;
    Re.Compile (Re.lits "nvmp_") true;
    Re.Compile (Re.lits "new" ++ [Re.SpaceStar] ++ Re.lits "vegas"
                ++ [Re.SpaceStar] ++ Re.lits "mp") true;
    Re.Compile (Re.lits "newvegasmp") true;
    Re.Compile (Re.lits "new" ++ [Re.SpaceStar] ++ Re.lits "vegas"
                ++ [Re.SpaceStar] ++ Re.lits "multiplayer") true ].

Definition NVMP_KNOWN_FILENAMES : gset string :=
  {[ "nvmp_launcher.exe"; "nvmp_start.exe"; "nvmp_storyserver.exe";
     "nvmp.log"; "nvmp_launcher_last_error.log" ]}.

Definition LOADLIST_FILENAMES : list string := ["plugins.txt"; "loadorder.txt"].

Definition INI_FILENAMES : list string :=
  ["Fallout.ini"; "FalloutPrefs.ini"; "nvse_config.ini"; "nvse.ini"].

Definition DEFAULT_MAX_MATCHES : Z := 10000.

Definition pat_match (name : string) : bool :=
  if bool_decide (Str.lower name ∈ NVMP_KNOWN_FILENAMES) then true
  else existsb (fun p => Re.re_search p name) NVMP_NAME_PATTERNS.

(** ** Paths

    A [pathlib] path: a drive (["C:"], a UNC share, or empty), a root (a
    separator or empty) and the remaining components. *)

Inductive flavour : Type := Posix | Windows.

Definition sep (fl : flavour) : string :=
  match fl with Posix => "/" | Windows => "\" end.

(** Case folding of a path component: the identity on POSIX, lower-casing
    on Windows. *)
Definition normcase (fl : flavour) (s : string) : string :=
  match fl with Posix => s | Windows => Str.lower s end.

Record Path : Type := mkPath {
  drive : string;
  root : string;
  tail : list string
}.

Definition anchor (p : Path) : string := drive p +:+ root p.

(** [p.parts] *)
Definition parts (p : Path) : list string :=
  if String.eqb (anchor p) "" then tail p else anchor p :: tail p.

(** [str(p)] *)
Definition path_str (fl : flavour) (p : Path) : string :=
  match parts p with
  | [] => "."
  | _ => anchor p +:+ Str.join (sep fl) (tail p)
  end.

(** The case-folded parts, on which [__eq__] and [__hash__] of a path rest. *)
Definition path_key (fl : flavour) (p : Path) : list string :=
  map (normcase fl) (parts p).

Definition path_eqb (fl : flavour) (p q : Path) : bool :=
  bool_decide (path_key fl p = path_key fl q).

(** [p.parents]: the logical ancestors, nearest first. *)
Definition parents (p : Path) : list Path :=
  map (fun k => mkPath (drive p) (root p) (take k (tail p)))
      (rev (seq 0 (List.length (tail p)))).

(** [p.parent] *)
Definition parent (p : Path) : Path :=
  mkPath (drive p) (root p) (removelast (tail p)).

(** [p.name] *)
Definition name (p : Path) : string := List.last (tail p) "".

(** [p / n] for a plain entry name [n] (one relative component). *)
Definition child (p : Path) (n : string) : Path :=
  mkPath (drive p) (root p) (tail p ++ [n]).

(** [p / q] for a path [q]: an anchored right operand replaces all or part
    of the left one. *)
Definition joinpath (fl : flavour) (p q : Path) : Path :=
  if negb (String.eqb (root q) "") then
    if String.eqb (drive q) "" && negb (String.eqb (drive p) "")
    then mkPath (drive p) (root q) (tail q)
    else q
  else if negb (String.eqb (drive q) "") then
    if String.eqb (normcase fl (drive q)) (normcase fl (drive p))
    then mkPath (drive p) (root p) (tail p ++ tail q)
    else q
  else mkPath (drive p) (root p) (tail p ++ tail q).

(** The relation the covering collapse is about: [a] is one of the
    ancestors of [p], paths being compared as [pathlib] compares them. *)
Definition is_ancestor (fl : flavour) (a p : Path) : Prop :=
  exists q, In q (parents p) /\ path_key fl q = path_key fl a.

(** ** Sorting

    [sorted(l, key=...)] is stable: elements with equal keys keep their
    input order.  [insert_by] puts an element before the first element
    whose key is not smaller. *)

Section Sorted.
Context {A K : Type} (leb : K -> K -> bool) (key : A -> K).

Fixpoint insert_by (x : A) (l : list A) : list A :=
  match l with
  | [] => [x]
  | y :: l' =>
      if leb (key x) (key y) then x :: y :: l' else y :: insert_by x l'
  end.

Definition py_sorted (l : list A) : list A :=
  fold_right insert_by [] l.

Definition key_le (x y : A) : Prop := leb (key x) (key y) = true.
End Sorted.

(** Comparison of the tuples [(len(x.parts), str(x).lower())]. *)
Definition depth_key_leb (a b : nat * string) : bool :=
  (a.1 <? b.1)%nat || ((a.1 =? b.1)%nat && String.leb a.2 b.2).

(** ** Covering collapse *)

(** [any(parent in path_set for parent in p.parents)] *)
Definition covered (fl : flavour) (path_set : gset (list string)) (p : Path)
  : bool :=
  existsb (fun parent => bool_decide (path_key fl parent ∈ path_set))
          (parents p).

Definition depth_key (fl : flavour) (x : Path) : nat * string :=
  (List.length (parts x), Str.lower (path_str fl x)).

Definition collapse_covered_paths (fl : flavour) (paths : list Path)
  : list Path :=
  let path_set : gset (list string) := list_to_set (map (path_key fl) paths) in
  List.filter (fun p => negb (covered fl path_set p))
    (py_sorted depth_key_leb (depth_key fl) paths).

(** Abbreviation for absolute POSIX paths in examples. *)
Definition px (l : list string) : Path := mkPath "" "/" l.

(** ** Text files: newline handling

    [open] in text mode reads with universal newlines (CR LF and a lone CR
    become LF) and writes LF as the platform line separator. *)

Module Text.

Definition LF : ascii := "010"%char.
Definition CR : ascii := "013"%char.

(** Text-mode read: newline translation. *)
Fixpoint universal_newlines (s : string) : string :=
  match s with
  | EmptyString => EmptyString
  | String c s' =>
      if Ascii.eqb c CR then
        match s' with
        | String d s'' =>
            if Ascii.eqb d LF then String LF (universal_newlines s'')
            else String LF (universal_newlines s')
        | EmptyString => String LF EmptyString
        end
      else String c (universal_newlines s')
  end.

(** Text-mode write: LF becomes [os.linesep]. *)
Fixpoint translate_newlines (fl : flavour) (s : string) : string :=
  match s with
  | EmptyString => EmptyString
  | String c s' =>
      match fl with
      | Windows =>
          if Ascii.eqb c LF then String CR (String LF (translate_newlines fl s'))
          else String c (translate_newlines fl s')
      | Posix => String c (translate_newlines fl s')
      end
  end.

(** The line boundaries of [str.splitlines]: LF, VT, FF, CR, FS, GS, RS. *)
Definition is_linebreak (c : ascii) : bool :=
  ((10 <=? Str.code c)%nat && (Str.code c <=? 13)%nat)
  || ((28 <=? Str.code c)%nat && (Str.code c <=? 30)%nat).

(** [s.splitlines(True)]: lines with their terminators; CR LF is one
    terminator. *)
Fixpoint splitlines (s : string) : list string :=
  match s with
  | EmptyString => []
  | String c s' =>
      if is_linebreak c then
        match s' with
        | String d s'' =>
            if Ascii.eqb c CR && Ascii.eqb d LF
            then String c (String d EmptyString) :: splitlines s''
            else String c EmptyString :: splitlines s'
        | EmptyString => [String c EmptyString]
        end
      else
        match splitlines s' with
        | [] => [String c EmptyString]
        | l :: ls => String c l :: ls
        end
  end.

(** [s.rstrip("\n")] *)
Fixpoint rstrip_newline (s : string) : string :=
  match s with
  | EmptyString => EmptyString
  | String c s' =>
      match rstrip_newline s' with
      | EmptyString => if Ascii.eqb c LF then EmptyString else String c EmptyString
      | r => String c r
      end
  end.

End Text.

(** ** Exceptions and the I/O monad *)

(** The subclasses of [Exception] the handlers tell apart: [PermissionError]
    and everything else, which is reported by type name and message.
    ([KeyboardInterrupt] and [SystemExit] are no [Exception] and no I/O
    failure; they are not modelled.) *)
Inductive exn : Type :=
  | PermissionError (msg : string)
  | OtherError (tyname msg : string).

Definition exn_name (e : exn) : string :=
  match e with PermissionError _ => "PermissionError" | OtherError n _ => n end.

Definition exn_msg (e : exn) : string :=
  match e with PermissionError m => m | OtherError _ m => m end.

(** A file-system node.  A symbolic link carries what it resolves to, if
    anything, as a node of its own: links do not alias other entries of the
    store. *)
Inductive node : Type :=
  | File (data : string)
  | Dir (entries : list (string * node))
  | Symlink (target : option node).

Record world : Type := mkWorld {
  store : node;
  environ : gmap string string;
  faults : list (option exn)
}.

Definition M (A : Type) : Type := world -> (exn + A) * world.

Definition ret {A} (a : A) : M A := fun w => (inr a, w).

Definition bind {A B} (c : M A) (k : A -> M B) : M B :=
  fun w => match c w with
           | (inr a, w') => k a w'
           | (inl e, w') => (inl e, w')
           end.

Definition raise {A} (e : exn) : M A := fun w => (inl e, w).

(** [try: c  except Exception as e: h e] *)
Definition try_except {A} (c : M A) (h : exn -> M A) : M A :=
  fun w => match c w with
           | (inr a, w') => (inr a, w')
           | (inl e, w') => h e w'
           end.

Notation "x <- c ;; k" := (bind c (fun x => k))
  (at level 100, c at next level, right associativity).
Notation "c ;;; k" := (bind c (fun _ => k))
  (at level 100, right associativity).

(** A primitive file-system call: the next entry of the fault script
    decides whether the call raises; otherwise it acts on the store. *)
Definition prim {A} (f : node -> exn + (A * node)) : M A :=
  fun w =>
    let run fs :=
      match f (store w) with
      | inl e => (inl e, mkWorld (store w) (environ w) fs)
      | inr (a, st') => (inr a, mkWorld st' (environ w) fs)
      end in
    match faults w with
    | Some e :: fs => (inl e, mkWorld (store w) (environ w) fs)
    | None :: fs => run fs
    | [] => run []
    end.

(** [os.environ.get(k)] *)
Definition getenv (k : string) : M (option string) :=
  fun w => (inr (environ w !! k), w).

(** ** The file system

    The store is a tree of named entries; names are compared as the
    flavour compares them.  Paths are looked up by their parts from the top
    of the store, whose entries are the anchors (and, for relative paths,
    the entries of the working directory).  The paths handed to these
    operations have been resolved, so a symbolic link is followed only as
    the last component. *)

Module Fs.

Definition ENOENT : exn :=
  OtherError "FileNotFoundError" "[Errno 2] No such file or directory".
Definition EEXIST : exn :=
  OtherError "FileExistsError" "[Errno 17] File exists".
Definition ENOTDIR : exn :=
  OtherError "NotADirectoryError" "[Errno 20] Not a directory".
Definition EISDIR : exn :=
  OtherError "IsADirectoryError" "[Errno 21] Is a directory".
Definition ESAMEFILE : exn :=
  OtherError "SameFileError" "source and destination are the same file".
Definition ERMTREE_LINK : exn :=
  OtherError "OSError" "Cannot call rmtree on a symbolic link".
Definition EDEST_EXISTS : exn :=
  OtherError "Error" "Destination path already exists".
Definition EINTO_ITSELF : exn :=
  OtherError "Error" "Cannot move a directory into itself".

Section Store.
Context (fl : flavour).

Definition same_name (a b : string) : bool :=
  String.eqb (normcase fl a) (normcase fl b).

Fixpoint find_entry (n : string) (es : list (string * node)) : option node :=
  match es with
  | [] => None
  | (m, x) :: es' => if same_name m n then Some x else find_entry n es'
  end.

Fixpoint set_entry (n : string) (x : node) (es : list (string * node))
  : list (string * node) :=
  match es with
  | [] => [(n, x)]
  | (m, y) :: es' =>
      if same_name m n then (m, x) :: es' else (m, y) :: set_entry n x es'
  end.

Fixpoint del_entry (n : string) (es : list (string * node))
  : list (string * node) :=
  match es with
  | [] => []
  | (m, y) :: es' =>
      if same_name m n then del_entry n es' else (m, y) :: del_entry n es'
  end.

(** The node at a list of components, links not followed. *)
Fixpoint lookup (ks : list string) (o : option node) : option node :=
  match ks with
  | [] => o
  | k :: ks' =>
      match o with
      | Some (Dir es) => lookup ks' (find_entry k es)
      | _ => None
      end
  end.

Fixpoint follow (n : node) : option node :=
  match n with
  | Symlink (Some t) => follow t
  | Symlink None => None
  | _ => Some n
  end.

Definition lstat (st : node) (p : Path) : option node :=
  lookup (parts p) (Some st).

Definition stat (st : node) (p : Path) : option node :=
  match lstat st p with Some n => follow n | None => None end.

Definition exists_ (st : node) (p : Path) : bool :=
  match stat st p with Some _ => true | None => false end.

Definition isdir (st : node) (p : Path) : bool :=
  match stat st p with Some (Dir _) => true | _ => false end.

Definition isfile (st : node) (p : Path) : bool :=
  match stat st p with Some (File _) => true | _ => false end.

Definition islink (st : node) (p : Path) : bool :=
  match lstat st p with Some (Symlink _) => true | _ => false end.

(** The contents of the regular file a path leads to. *)
Definition file_data (st : node) (p : Path) : option string :=
  match stat st p with Some (File d) => Some d | _ => None end.

(** Rewrite the entry at [ks]: [f] maps the old entry (if any) to the new
    one (if any).  Every directory on the way must exist. *)
Fixpoint modify (ks : list string)
  (f : option node -> exn + option node) (o : option node)
  : exn + option node :=
  match ks with
  | [] => f o
  | k :: ks' =>
      match o with
      | Some (Dir es) =>
          match modify ks' f (find_entry k es) with
          | inl e => inl e
          | inr (Some c) => inr (Some (Dir (set_entry k c es)))
          | inr None => inr (Some (Dir (del_entry k es)))
          end
      | Some _ => inl ENOTDIR
      | None => inl ENOENT
      end
  end.

Definition store_modify (p : Path)
  (f : option node -> exn + option node) (st : node) : exn + node :=
  match modify (parts p) f (Some st) with
  | inl e => inl e
  | inr (Some st') => inr st'
  | inr None => inr (Dir [])
  end.

(** Writing to a node: a regular file is replaced, a link is written
    through, a directory refuses. *)
Fixpoint write_node (data : string) (n : node) : exn + node :=
  match n with
  | File _ => inr (File data)
  | Dir _ => inl EISDIR
  | Symlink None => inr (Symlink (Some (File data)))
  | Symlink (Some t) =>
      match write_node data t with
      | inl e => inl e
      | inr t' => inr (Symlink (Some t'))
      end
  end.

Definition write_entry (data : string) (o : option node)
  : exn + option node :=
  match o with
  | None => inr (Some (File data))
  | Some n =>
      match write_node data n with
      | inl e => inl e
      | inr n' => inr (Some n')
      end
  end.

Definition write_file (st : node) (p : Path) (data : string) : exn + node :=
  store_modify p (write_entry data) st.

(** [mkdir(parents=True, exist_ok=True)] *)
Fixpoint mkdir_p (ks : list string) (o : option node) : exn + node :=
  match ks with
  | [] =>
      match o with
      | None => inr (Dir [])
      | Some n =>
          match follow n with
          | Some (Dir _) => inr n
          | _ => inl EEXIST
          end
      end
  | k :: ks' =>
      match o with
      | None =>
          match mkdir_p ks' None with
          | inl e => inl e
          | inr c => inr (Dir [(k, c)])
          end
      | Some (Dir es) =>
          match mkdir_p ks' (find_entry k es) with
          | inl e => inl e
          | inr c => inr (Dir (set_entry k c es))
          end
      | Some _ => inl ENOTDIR
      end
  end.

Definition makedirs (st : node) (p : Path) : exn + node :=
  mkdir_p (parts p) (Some st).

(** [shutil.copy2(src, dst)]: into [dst] when it is a directory; the
    source must be a regular file other than the target. *)
Definition copy2 (st : node) (src dst : Path) : exn + node :=
  let target := if isdir st dst then child dst (name src) else dst in
  if exists_ st src && path_eqb fl src target then inl ESAMEFILE
  else
    match stat st src with
    | Some (File d) => write_file st target d
    | Some _ => inl EISDIR
    | None => inl ENOENT
    end.

Definition remove_entry (_ : option node) : exn + option node := inr None.

(** [shutil.rmtree(p)] *)
Definition rmtree (st : node) (p : Path) : exn + node :=
  match lstat st p with
  | Some (Dir _) => store_modify p remove_entry st
  | Some (Symlink _) => inl ERMTREE_LINK
  | Some (File _) => inl ENOTDIR
  | None => inl ENOENT
  end.

(** [p.unlink(missing_ok=True)] *)
Definition unlink (st : node) (p : Path) : exn + node :=
  match lstat st p with
  | Some (Dir _) => inl EISDIR
  | Some _ => store_modify p remove_entry st
  | None => inr st
  end.

Fixpoint key_prefix (a b : list string) : bool :=
  match a, b with
  | [], _ => true
  | x :: a', y :: b' => same_name x y && key_prefix a' b'
  | _ :: _, [] => false
  end.

(** [shutil.move(src, dst)] *)
Definition move (st : node) (src dst : Path) : exn + node :=
  match lstat st src with
  | None => inl ENOENT
  | Some n =>
      if path_eqb fl src dst then inr st
      else
        let into := isdir st dst in
        let real_dst := if into then child dst (name src) else dst in
        match lstat st real_dst, n with
        | Some _, _ =>
            if into then inl EDEST_EXISTS
            else match n with
                 | Dir _ => inl EEXIST
                 | _ =>
                     match store_modify src remove_entry st with
                     | inl e => inl e
                     | inr st1 =>
                         store_modify real_dst (fun _ => inr (Some n)) st1
                     end
                 end
        | None, _ =>
            if key_prefix (parts src) (parts real_dst) then inl EINTO_ITSELF
            else
              match store_modify src remove_entry st with
              | inl e => inl e
              | inr st1 =>
                  store_modify real_dst (fun _ => inr (Some n)) st1
              end
        end
  end.

(** One [(dirpath, dirnames, filenames)] triple of [os.walk]. *)
Definition walk_entry : Type := Path * list string * list string.

Definition entry_is_dir (e : string * node) : bool :=
  match follow e.2 with Some (Dir _) => true | _ => false end.

(** [os.walk] below a directory node, top-down; links to directories are
    listed but not entered. *)
Fixpoint walk_node (dp : Path) (n : node) : list walk_entry :=
  match n with
  | Dir es =>
      (dp,
       map fst (List.filter entry_is_dir es),
       map fst (List.filter (fun e => negb (entry_is_dir e)) es))
      :: flat_map (fun e =>
                     match e.2 with
                     | Dir _ => walk_node (child dp e.1) e.2
                     | _ => []
                     end) es
  | _ => []
  end.

(** [os.walk(top)]: nothing when [top] is not a directory (errors of the
    listing are ignored). *)
Definition os_walk (st : node) (top : Path) : list walk_entry :=
  match stat st top with
  | Some (Dir es) => walk_node top (Dir es)
  | _ => []
  end.

End Store.
End Fs.

(** ** The platform

    What the script takes from its surroundings besides the file system:
    the path flavour, the [Path(...)] constructor, [expanduser], the pure
    part of [resolve], the working directory and the clock reading used by
    [stamp]. *)

Record platform : Type := mkPlatform {
  pf_flavour : flavour;
  path_of_string : string -> Path;
  expanduser : Path -> Path;
  realpath : Path -> Path;
  cwd : Path;
  stamp : string
}.

(** [PurePosixPath(s)]: a leading slash is the root (exactly two slashes
    are kept), empty and dot components are dropped. *)
Module PosixParse.

Fixpoint split_slash (cur : string) (s : string) : list string :=
  match s with
  | EmptyString => [cur]
  | String c s' =>
      if Ascii.eqb c "/"%char then cur :: split_slash EmptyString s'
      else split_slash (cur +:+ String c EmptyString) s'
  end.

Definition keep_component (c : string) : bool :=
  negb (String.eqb c "") && negb (String.eqb c ".").

Definition root_of (s : string) : string :=
  match s with
  | String "/" (String "/" (String "/" _)) => "/"
  | String "/" (String "/" _) => "//"
  | String "/" _ => "/"
  | _ => ""
  end.

Definition parse (s : string) : Path :=
  mkPath "" (root_of s) (List.filter keep_component (split_slash "" s)).

End PosixParse.

Definition posix_platform (now : string) : platform :=
  mkPlatform Posix PosixParse.parse (fun p => p) (fun p => p) (px []) now.

(** [PureWindowsPath(s)] for drive-letter paths (no UNC shares or device
    paths): both slashes separate, a leading letter and colon is the drive. *)
Module WindowsParse.

Definition is_sep (c : ascii) : bool :=
  Ascii.eqb c "/"%char || Ascii.eqb c "\"%char.

Fixpoint split_sep (cur : string) (s : string) : list string :=
  match s with
  | EmptyString => [cur]
  | String c s' =>
      if is_sep c then cur :: split_sep EmptyString s'
      else split_sep (cur +:+ String c EmptyString) s'
  end.

Definition is_letter (c : ascii) : bool := Str.is_upper c || Str.is_lower c.

Definition split_drive (s : string) : string * string :=
  match s with
  | String c (String ":" rest) =>
      if is_letter c then (String c ":", rest) else ("", s)
  | _ => ("", s)
  end.

Definition root_of (s : string) : string :=
  match s with
  | String c _ => if is_sep c then "\" else ""
  | EmptyString => ""
  end.

Definition parse (s : string) : Path :=
  let (drv, rest) := split_drive s in
  mkPath drv (root_of rest)
         (List.filter PosixParse.keep_component (split_sep "" rest)).

End WindowsParse.

Definition windows_platform (now : string) : platform :=
  mkPlatform Windows WindowsParse.parse (fun p => p) (fun p => p)
             (mkPath "C:" "\" []) now.

(** ** File-system calls in the monad *)

Section Program.
Context (P : platform).

Definition flav : flavour := pf_flavour P.

Definition query {A} (f : node -> A) : M A :=
  prim (fun st => inr (f st, st)).

Definition update (f : node -> exn + node) : M unit :=
  prim (fun st => match f st with
                  | inl e => inl e
                  | inr st' => inr (tt, st')
                  end).

Definition path_exists (p : Path) : M bool := query (fun st => Fs.exists_ flav st p).
Definition is_dir (p : Path) : M bool := query (fun st => Fs.isdir flav st p).
Definition is_file (p : Path) : M bool := query (fun st => Fs.isfile flav st p).
Definition is_symlink (p : Path) : M bool := query (fun st => Fs.islink flav st p).

(** [p.resolve()] *)
Definition resolve (p : Path) : M Path := query (fun _ => realpath P p).

(** [p.read_text(encoding="utf-8", errors="ignore")]; file contents are
    kept as decoded text. *)
Definition read_text (p : Path) : M string :=
  prim (fun st => match Fs.stat flav st p with
                  | Some (File d) => inr (Text.universal_newlines d, st)
                  | Some _ => inl Fs.EISDIR
                  | None => inl Fs.ENOENT
                  end).

(** [p.write_text(s, encoding="utf-8")] *)
Definition write_text (p : Path) (s : string) : M unit :=
  update (fun st => Fs.write_file flav st p (Text.translate_newlines flav s)).

Definition shutil_copy2 (src dst : Path) : M unit :=
  update (fun st => Fs.copy2 flav st src dst).
Definition shutil_rmtree (p : Path) : M unit :=
  update (fun st => Fs.rmtree flav st p).
Definition unlink (p : Path) : M unit :=
  update (fun st => Fs.unlink flav st p).
Definition shutil_move (src dst : Path) : M unit :=
  update (fun st => Fs.move flav st src dst).

(** [os.walk(top)]; the listing raises nothing. *)
Definition os_walk (top : Path) : M (list Fs.walk_entry) :=
  fun w => (inr (Fs.os_walk flav (store w) top), w).

Definition resolve_path (p : option string) : M (option Path) :=
  match p with
  | None => ret None
  | Some s =>
      if String.eqb s "" then ret None
      else r <- resolve (expanduser P (path_of_string P s));; ret (Some r)
  end.

Definition ensure_dir (p : Path) : M unit :=
  update (fun st => Fs.makedirs flav st p).

(** [[d for d in dirs if d.exists()]] *)
Fixpoint existing (dirs : list Path) : M (list Path) :=
  match dirs with
  | [] => ret []
  | d :: rest =>
      ex <- path_exists d;;
      tl <- existing rest;;
      ret (if ex then d :: tl else tl)
  end.

(** A set environment variable with a non-empty value. *)
Definition env_dir (k : string) : M (option Path) :=
  v <- getenv k;;
  ret (match v with
       | Some s => if String.eqb s "" then None else Some (path_of_string P s)
       | None => None
       end).

Definition sub (p : Path) (names : list string) : Path :=
  fold_left child names p.

Definition user_dirs : M (list Path) :=
  up <- env_dir "USERPROFILE";;
  local <- env_dir "LOCALAPPDATA";;
  roam <- env_dir "APPDATA";;
  existing
    (match up with
     | Some u => [sub u ["Documents"; "My Games"; "FalloutNV"];
                  sub u ["Documents"; "My Games"; "Fallout New Vegas"]]
     | None => []
     end
     ++ match local with
        | Some l => [sub l ["FalloutNV"]; sub l ["Fallout New Vegas"];
                     sub l ["Bethesda Softworks"; "FalloutNV"]]
        | None => []
        end
     ++ match roam with
        | Some r => [sub r ["Vortex"; "falloutnv"];
                     sub r ["Vortex"; "fallout new vegas"];
                     sub r ["Vortex"]]
        | None => []
        end).

Definition likely_vortex_mod_roots : M (list Path) :=
  roam <- env_dir "APPDATA";;
  match roam with
  | Some r =>
      existing [sub r ["Vortex"; "falloutnv"; "mods"];
                sub r ["Vortex"; "fallout new vegas"; "mods"]]
  | None => ret []
  end.

Fixpoint mo2_near (parents_ : list Path) : M (list Path) :=
  match parents_ with
  | [] => ret []
  | par :: rest =>
      ex <- path_exists par;;
      if negb ex then mo2_near rest
      else
        let mo2 := child par "Mod Organizer 2" in
        ex2 <- path_exists mo2;;
        tl <- mo2_near rest;;
        ret (if ex2 then mo2 :: tl else tl)
  end.

Definition likely_mo2_roots_near_game (game_dir : option Path)
  : M (list Path) :=
  match game_dir with
  | None => ret []
  | Some g => mo2_near [parent g; parent (parent g)]
  end.

Definition mo2_layout (mo2 : Path) : list Path :=
  [mo2; child mo2 "mods"; child mo2 "overwrite"; child mo2 "profiles"].

Definition root_key (p : Path) : string := Str.lower (path_str flav p).

(** The closing loop of [build_roots]: existing only, deduplicated. *)
Fixpoint dedupe_existing (roots out : list Path) (seen : gset string)
  : M (list Path) :=
  match roots with
  | [] => ret out
  | r :: rest =>
      rr <- try_except (resolve r) (fun _ => ret r);;
      let key := root_key rr in
      if bool_decide (key ∈ seen) then dedupe_existing rest out seen
      else
        ex <- path_exists rr;;
        if ex then dedupe_existing rest (out ++ [rr]) ({[key]} ∪ seen)
        else dedupe_existing rest out seen
  end.

Definition build_roots (game_dir mo2_dir vortex_dir : option Path)
  : M (list Path) :=
  let game_roots :=
    match game_dir with
    | Some g => [g; child g "Data"; sub g ["Data"; "nvse"; "plugins"]]
    | None => []
    end in
  ud <- user_dirs;;
  vx <- match vortex_dir with
        | Some v => ret [v]
        | None => likely_vortex_mod_roots
        end;;
  mo <- match mo2_dir with
        | Some m => ret (mo2_layout m)
        | None =>
            near <- likely_mo2_roots_near_game game_dir;;
            ret (flat_map mo2_layout near)
        end;;
  dedupe_existing (game_roots ++ ud ++ vx ++ mo) [] ∅.

(** *** Find NVMP items *)

Record scan_state : Type := mkScan {
  matches : list Path;
  seen : gset string
}.

(** The closure [add] of [walk_find_matches]. *)
Definition add (p : Path) (s : scan_state) : scan_state :=
  let key := Str.lower (path_str flav p) in
  if bool_decide (key ∈ seen s) then s
  else mkScan (matches s ++ [p]) ({[key]} ∪ seen s).

(** The inner loops either run to their end or leave the function. *)
Inductive flow (S R : Type) : Type :=
  | Continue (s : S)
  | Return (r : R).
Arguments Continue {S R} s.
Arguments Return {S R} r.

Fixpoint scan_names (max_matches : Z) (dp : Path) (names : list string)
  (s : scan_state) : M (flow scan_state (list Path)) :=
  match names with
  | [] => ret (Continue s)
  | n :: rest =>
      if pat_match n then
        p <- resolve (child dp n);;
        let s' := add p s in
        if (max_matches <=? Z.of_nat (List.length (matches s')))%Z
        then ret (Return (matches s'))
        else scan_names max_matches dp rest s'
      else scan_names max_matches dp rest s
  end.

Fixpoint scan_walk (max_matches : Z) (entries : list Fs.walk_entry)
  (s : scan_state) : M (flow scan_state (list Path)) :=
  match entries with
  | [] => ret (Continue s)
  | (dp, dirnames, filenames) :: rest =>
      r <- scan_names max_matches dp dirnames s;;
      match r with
      | Return ms => ret (Return ms)
      | Continue s1 =>
          r' <- scan_names max_matches dp filenames s1;;
          match r' with
          | Return ms => ret (Return ms)
          | Continue s2 => scan_walk max_matches rest s2
          end
      end
  end.

Fixpoint scan_roots (max_matches : Z) (roots : list Path) (s : scan_state)
  : M (flow scan_state (list Path)) :=
  match roots with
  | [] => ret (Continue s)
  | root :: rest =>
      entries <- os_walk root;;
      r <- scan_walk max_matches entries s;;
      match r with
      | Return ms => ret (Return ms)
      | Continue s' => scan_roots max_matches rest s'
      end
  end.

Definition walk_find_matches (roots : list Path) (max_matches : Z)
  : M (list Path) :=
  r <- scan_roots max_matches roots (mkScan [] ∅);;
  match r with
  | Return ms => ret ms
  | Continue s => ret (py_sorted String.leb root_key (matches s))
  end.

End Program.

Arguments Continue {S R} s.
Arguments Return {S R} r.

(** ** Backup, removal and text cleaning *)

(** Decimal rendering of a count inside an f-string. *)
Definition str_of_nat (n : nat) : string :=
  DecimalString.NilZero.string_of_uint (Nat.to_uint n).

Section Cleaner.
Context (P : platform).

Definition backup_root (default_base : Path) : M Path :=
  resolve P (child default_base ("NVMP_Removed_" +:+ stamp P)).

Definition safe_rel_for_backup (p : Path) : Path :=
  path_of_string P (Str.remove_char ":"%char (path_str (flav P) p)).

Definition remove_path_body (p : Path) (backup_dir : option Path)
  (permanent_delete : bool) : M (Path * string) :=
  ex <- path_exists P p;;
  if negb ex then ret (p, "SKIP (missing)")
  else if permanent_delete then
    isd <- is_dir P p;;
    (if isd then
       isl <- is_symlink P p;;
       if negb isl then shutil_rmtree P p else unlink P p
     else unlink P p);;;
    ret (p, "DELETED")
  else
    match backup_dir with
    | None => ret (p, "ERROR (no backup dir set)")
    | Some bd =>
        let dst := joinpath (flav P) bd (safe_rel_for_backup p) in
        ensure_dir P (parent dst);;;
        shutil_move P p dst;;;
        ret (p, "MOVED -> " +:+ path_str (flav P) dst)
    end.

Definition remove_path_handler (p : Path) (e : exn) : M (Path * string) :=
  match e with
  | PermissionError _ =>
      ret (p, "ERROR (permission denied; run as Administrator)")
  | _ => ret (p, "ERROR (" +:+ exn_name e +:+ ": " +:+ exn_msg e +:+ ")")
  end.

Definition remove_path (p : Path) (backup_dir : option Path)
  (permanent_delete : bool) : M (Path * string) :=
  try_except (remove_path_body p backup_dir permanent_delete)
             (remove_path_handler p).

(** The loop over [raw]: the kept lines and the removed ones. *)
Fixpoint partition_lines (raw : list string) : list string * list string :=
  match raw with
  | [] => ([], [])
  | line :: rest =>
      let (kept, removed) := partition_lines rest in
      if pat_match line then (kept, Text.rstrip_newline line :: removed)
      else (line :: kept, removed)
  end.

Definition backup_path (backup_dir path : Path) : Path :=
  child backup_dir (name path +:+ ".bak").

Definition msg_edited (path : Path) (n : nat) : string :=
  "EDITED: " +:+ path_str (flav P) path +:+ " (removed " +:+ str_of_nat n
  +:+ " NVMP line(s))".

Definition msg_edit_denied (path : Path) : string :=
  "ERROR editing " +:+ path_str (flav P) path
  +:+ ": permission denied (run as Administrator)".

Definition msg_edit_failed (path : Path) (e : exn) : string :=
  "ERROR editing " +:+ path_str (flav P) path +:+ ": " +:+ exn_name e
  +:+ ": " +:+ exn_msg e.

(** Truth value of an [Optional[Path]]. *)
Definition given (o : option Path) : bool :=
  match o with Some _ => true | None => false end.

(** The two statements that back the original file up before an edit. *)
Definition backup_original (path : Path) (backup_dir : option Path)
  : M unit :=
  match backup_dir with
  | Some bd =>
      ensure_dir P bd;;;
      shutil_copy2 P path (backup_path bd path)
  | None => ret tt
  end.

Definition strip_body (path : Path) (backup_dir : option Path)
  (permanent_delete : bool) : M (list string) :=
  ex <- path_exists P path;;
  if negb ex then ret []
  else
    isf <- is_file P path;;
    if negb isf then ret []
    else
      text <- read_text P path;;
      let raw := Text.splitlines text in
      let (kept, removed) := partition_lines raw in
      match removed with
      | [] => ret []
      | _ :: _ =>
          (if negb permanent_delete && given backup_dir
           then backup_original path backup_dir
           else if permanent_delete && given backup_dir
           then backup_original path backup_dir
           else ret tt);;;
          write_text P path (Str.concat_all kept);;;
          ret [msg_edited path (List.length removed)]
      end.

Definition strip_handler (path : Path) (e : exn) : M (list string) :=
  match e with
  | PermissionError _ => ret [msg_edit_denied path]
  | _ => ret [msg_edit_failed path e]
  end.

Definition strip_nvmp_lines_from_text_file (path : Path)
  (backup_dir : option Path) (permanent_delete : bool) : M (list string) :=
  try_except (strip_body path backup_dir permanent_delete)
             (strip_handler path).

(** *** Text targets *)

Record targets : Type := mkTargets {
  loadlists : list Path;
  inis : list Path;
  seen_targets : gset string
}.

Definition has_name (n : string) (filenames : list string) : bool :=
  existsb (String.eqb n) filenames.

Fixpoint pick (wanted : list string) (dp : Path) (filenames : list string)
  (acc : list Path) (sn : gset string) : M (list Path * gset string) :=
  match wanted with
  | [] => ret (acc, sn)
  | n :: rest =>
      if has_name n filenames then
        p <- resolve P (child dp n);;
        let k := Str.lower (path_str (flav P) p) in
        if bool_decide (k ∈ sn) then pick rest dp filenames acc sn
        else pick rest dp filenames (acc ++ [p]) ({[k]} ∪ sn)
      else pick rest dp filenames acc sn
  end.

Fixpoint targets_in (entries : list Fs.walk_entry) (t : targets)
  : M targets :=
  match entries with
  | [] => ret t
  | (dp, _, filenames) :: rest =>
      r1 <- pick LOADLIST_FILENAMES dp filenames (loadlists t) (seen_targets t);;
      r2 <- pick INI_FILENAMES dp filenames (inis t) r1.2;;
      targets_in rest (mkTargets r1.1 r2.1 r2.2)
  end.

Fixpoint targets_under (roots : list Path) (t : targets) : M targets :=
  match roots with
  | [] => ret t
  | root :: rest =>
      entries <- os_walk P root;;
      t' <- targets_in entries t;;
      targets_under rest t'
  end.

Definition find_text_targets (roots : list Path)
  : M (list Path * list Path) :=
  t <- targets_under roots (mkTargets [] [] ∅);;
  ret (py_sorted String.leb (root_key P) (loadlists t),
       py_sorted String.leb (root_key P) (inis t)).

(** *** Main, from the resolved game directory on *)

Record arguments : Type := mkArgs {
  arg_mo2 : option string;
  arg_vortex : option string;
  arg_backup_dir : option string;
  arg_delete : bool;
  arg_max_matches : Z
}.

(** The backup folder location: none in delete mode. *)
Definition choose_backup_dir (args : arguments) : M (option Path) :=
  if arg_delete args then ret None
  else
    given <- resolve_path P (arg_backup_dir args);;
    let base := match given with Some b => b | None => cwd P end in
    bd <- backup_root base;;
    ensure_dir P bd;;;
    ret (Some bd).

Fixpoint strip_all (files : list Path) (backup_dir : option Path)
  (permanent_delete : bool) : M (list string) :=
  match files with
  | [] => ret []
  | p :: rest =>
      m <- strip_nvmp_lines_from_text_file p backup_dir permanent_delete;;
      ms <- strip_all rest backup_dir permanent_delete;;
      ret (m ++ ms)
  end.

Fixpoint remove_all (paths : list Path) (backup_dir : option Path)
  (permanent_delete : bool) : M (list (Path * string)) :=
  match paths with
  | [] => ret []
  | p :: rest =>
      r <- remove_path p backup_dir permanent_delete;;
      rs <- remove_all rest backup_dir permanent_delete;;
      ret (r :: rs)
  end.

(** [main] after the game directory has been settled: the removal
    results and the edit messages it prints. *)
Definition main_from (game_dir : Path) (args : arguments)
  : M (list (Path * string) * list string) :=
  mo2_dir <- resolve_path P (arg_mo2 args);;
  vortex_dir <- resolve_path P (arg_vortex args);;
  roots <- build_roots P (Some game_dir) mo2_dir vortex_dir;;
  backup_dir <- choose_backup_dir args;;
  found <- walk_find_matches P roots (arg_max_matches args);;
  let found := collapse_covered_paths (flav P) found in
  tt_ <- find_text_targets roots;;
  m1 <- strip_all tt_.1 backup_dir (arg_delete args);;
  m2 <- strip_all tt_.2 backup_dir (arg_delete args);;
  let edit_msgs := m1 ++ m2 in
  results <- remove_all found backup_dir (arg_delete args);;
  ret (results, edit_msgs).

End Cleaner.

(** ** Vocabulary of the properties *)

(** The lines of the text file at [path], as [read_text] and
    [splitlines(True)] deliver them; none when there is no such file. *)
Definition file_lines (fl : flavour) (st : node) (path : Path) : list string :=
  match Fs.file_data fl st path with
  | Some d => Text.splitlines (Text.universal_newlines d)
  | None => []
  end.

Definition keep_line (line : string) : bool := negb (pat_match line).

(** Number of lines the matcher accepts. *)
Definition count_matching (lines : list string) : nat :=
  List.length (List.filter pat_match lines).

(** [s.startswith(pre)] *)
Fixpoint starts_with (pre s : string) : bool :=
  match pre with
  | EmptyString => true
  | String a pre' =>
      match s with
      | EmptyString => false
      | String b s' => Ascii.eqb a b && starts_with pre' s'
      end
  end.

(** An edit report that tells of a failure. *)
Definition edit_failed (msgs : list string) : bool :=
  existsb (starts_with "ERROR editing ") msgs.

(** Some entry name met by [os.walk] below the roots satisfies the
    matcher. *)
Definition walk_has_hit (fl : flavour) (st : node) (roots : list Path) : bool :=
  existsb (fun root =>
             existsb (fun e : Fs.walk_entry => existsb pat_match (e.1.2 ++ e.2))
                     (Fs.os_walk fl st root))
          roots.

(** A node that is not a directory. *)
Definition leaf (n : node) : Prop :=
  match n with Dir _ => False | _ => True end.

(** The next file-system call is not made to fail. *)
Definition next_call_ok (w : world) : Prop :=
  match faults w with Some _ :: _ => False | _ => True end.

Definition lower_prev (o : option ascii) : option ascii :=
  option_map Str.char_lower o.

(** What holds of the outcome of a loop: [I] when it ran to its end, [Q]
    of the value it returned early. *)
Definition flow_holds {S R : Type} (I : S -> Prop) (Q : R -> Prop)
  (r : flow S R) : Prop :=
  match r with Continue s => I s | Return x => Q x end.

(** The bookkeeping of the scanner: the recorded keys are pairwise
    distinct and [seen] holds exactly them. *)
Definition scan_inv (P : platform) (s : scan_state) : Prop :=
  NoDup (map (root_key P) (matches s))
  /\ forall k, k ∈ seen s <-> In k (map (root_key P) (matches s)).

(** A computation that only reads: it leaves store and environment as they
    are, whatever its outcome. *)
Definition keeps_store {A} (c : M A) : Prop :=
  forall w r w', c w = (r, w') ->
    store w' = store w /\ environ w' = environ w.

(** A computation that, with no fault injected, returns and leaves the
    world as it is. *)
Definition quiet {A} (c : M A) : Prop :=
  forall w, faults w = [] -> exists a, c w = (inr a, w).

(** No carriage return occurs in the text. *)
Fixpoint cr_free (s : string) : bool :=
  match s with
  | EmptyString => true
  | String c s' => negb (Ascii.eqb c Text.CR) && cr_free s'
  end.

(** The shape of one line of a text without carriage returns: [Some true]
    for a run of ordinary characters closed by a line boundary,
    [Some false] for a non-empty run without boundary (the unterminated
    last line), [None] otherwise. *)
Fixpoint line_shape (l : string) : option bool :=
  match l with
  | EmptyString => None
  | String c l' =>
      match l' with
      | EmptyString =>
          if Ascii.eqb c Text.CR then None else Some (Text.is_linebreak c)
      | String _ _ => if Text.is_linebreak c then None else line_shape l'
      end
  end.

(** A list of lines as [splitlines(True)] yields them: all terminated,
    except possibly the last. *)
Fixpoint lines_ok (ls : list string) : Prop :=
  match ls with
  | [] => True
  | l :: rest =>
      match rest with
      | [] => line_shape l <> None
      | _ :: _ => line_shape l = Some true /\ lines_ok rest
      end
  end.

(** What the closing loop of [build_roots] maintains: every recorded root
    exists, the recorded keys are distinct, and [seen] holds exactly
    them. *)
Definition roots_ok (P : platform) (st : node) (out : list Path)
  (sn : gset string) : Prop :=
  List.Forall (fun r => Fs.exists_ (flav P) st r = true) out
  /\ NoDup (map (root_key P) out)
  /\ forall k, k ∈ sn <-> In k (map (root_key P) out).

(** What a successful backup step did to the store. *)
Definition backed_up (P : platform) (path : Path) (bd : option Path)
  (st st1 : node) : Prop :=
  match bd with
  | None => st1 = st
  | Some b =>
      exists st0, Fs.makedirs (flav P) st b = inr st0
                  /\ Fs.copy2 (flav P) st0 path (backup_path b path) = inr st1
  end.

(** ** A sample installation

    The scenario of the spec: a game directory whose [Data] holds the NVMP
    launcher, a load list with one NVMP line among three, and an unrelated
    plugin; a second NVMP executable sits next to the game's own. *)

Module Sample.

Definition nl : string := String Text.LF EmptyString.

Definition plugins : string :=
  "FalloutNV.esm" +:+ nl +:+ "NVMP.esp" +:+ nl +:+ "SomeOtherMod.esp" +:+ nl.

Definition data_dir : node :=
  Dir [("NVMP_Launcher.exe", File "MZ");
       ("plugins.txt", File plugins);
       ("SomeOtherMod.esp", File "TES4")].

Definition disk : node :=
  Dir [("/", Dir [("game", Dir [("FalloutNV.exe", File "MZ");
                                ("nvmp_start.exe", File "MZ");
                                ("Data", data_dir)]);
                  ("backups", Dir [])])].

Definition game : Path := px ["game"].
Definition plugins_txt : Path := px ["game"; "Data"; "plugins.txt"].
Definition launcher : Path := px ["game"; "Data"; "NVMP_Launcher.exe"].
Definition starter : Path := px ["game"; "nvmp_start.exe"].
Definition backups : Path := px ["backups"].

Definition pf : platform := posix_platform "20240101_120000".

Definition w0 : world := mkWorld disk ∅ [].

(** The same disk with a directory sitting where the backup of the load
    list is to go. *)
Definition occupied_disk : node :=
  Dir [("/", Dir [("game", Dir [("FalloutNV.exe", File "MZ");
                                ("nvmp_start.exe", File "MZ");
                                ("Data", data_dir)]);
                  ("backups", Dir [("plugins.txt.bak", Dir [])])])].

Definition occupied : world := mkWorld occupied_disk ∅ [].

Definition backup_mode : arguments :=
  mkArgs None None (Some "/backups") false DEFAULT_MAX_MATCHES.

Definition delete_mode : arguments :=
  mkArgs None None None true DEFAULT_MAX_MATCHES.

(** The same installation on a Windows drive. *)
Definition cx (l : list string) : Path := mkPath "C:" "\" l.

Definition crlf : string := String Text.CR (String Text.LF EmptyString).

Definition win_plugins : string :=
  "FalloutNV.esm" +:+ crlf +:+ "NVMP.esp" +:+ crlf +:+ "SomeOtherMod.esp"
  +:+ crlf.

Definition win_disk : node :=
  Dir [("C:\", Dir [("Game",
                     Dir [("FalloutNV.exe", File "MZ");
                          ("Data",
                           Dir [("NVMP_Launcher.exe", File "MZ");
                                ("plugins.txt", File win_plugins);
                                ("SomeOtherMod.esp", File "TES4")])]);
                    ("Backups", Dir [])])].

Definition win_plugins_txt : Path := cx ["Game"; "Data"; "plugins.txt"].
Definition win_backups : Path := cx ["Backups"].

Definition win_pf : platform := windows_platform "20240101_120000".

Definition win_w0 : world := mkWorld win_disk ∅ [].

Definition win_backup_mode : arguments :=
  mkArgs None None (Some "C:\Backups") false DEFAULT_MAX_MATCHES.

End Sample.

(** ** Further vocabulary *)

(** [sub in s] *)
Fixpoint contains (sub s : string) : bool :=
  starts_with sub s
  || match s with
     | String _ s' => contains sub s'
     | EmptyString => false
     end.

(** The text consists of [\s] characters only. *)
Fixpoint all_space (s : string) : bool :=
  match s with
  | EmptyString => true
  | String c s' => Str.is_space c && all_space s'
  end.

(** The character a regex engine has just passed after reading [a], having
    started behind [prev]. *)
Fixpoint prev_after (prev : option ascii) (a : string) : option ascii :=
  match a with
  | EmptyString => prev
  | String c a' => prev_after (Some c) a'
  end.


(** [p] is the resolved path of an entry met by [os.walk] below the roots
    whose own name satisfies the matcher. *)
Definition walk_hit (P : platform) (st : node) (roots : list Path) (p : Path)
  : Prop :=
  exists root dp ds fs n,
    In root roots
    /\ In (dp, ds, fs) (Fs.os_walk (flav P) st root)
    /\ In n (ds ++ fs)
    /\ pat_match n = true
    /\ p = realpath P (child dp n).

(** Every recorded match satisfies [G]. *)
Definition all_good (G : Path -> Prop) (s : scan_state) : Prop :=
  List.Forall G (matches s).

(** The lower-cased strings of the recorded matches. *)
Definition keys_of (P : platform) (s : scan_state) : list string :=
  map (root_key P) (matches s).

(** [p] is the resolved path of a file of directory [dp] whose name is, to
    the letter, one of [wanted]. *)
Definition picked (P : platform) (wanted : list string) (dp : Path)
  (filenames : list string) (p : Path) : Prop :=
  exists n, In n wanted /\ In n filenames /\ p = realpath P (child dp n).

(** ... for a directory met by [os.walk] below the roots. *)
Definition named_target (P : platform) (st : node) (roots : list Path)
  (wanted : list string) (p : Path) : Prop :=
  exists root dp ds fs,
    In root roots
    /\ In (dp, ds, fs) (Fs.os_walk (flav P) st root)
    /\ picked P wanted dp fs p.

(** The bookkeeping of [find_text_targets]: the keys of all targets found
    so far, load lists and ini files together, are distinct and [seen]
    holds exactly them. *)
Definition targets_inv (P : platform) (t : targets) : Prop :=
  NoDup (map (root_key P) (loadlists t ++ inis t))
  /\ forall k, k ∈ seen_targets t
               <-> In k (map (root_key P) (loadlists t ++ inis t)).


(** The two kinds of message the text cleaner reports. *)
Definition edit_report (m : string) : bool :=
  starts_with "EDITED: " m || starts_with "ERROR editing " m.

(** An entry before and after something else was removed: a directory is
    still a directory (its contents may have changed), anything else,
    also a missing entry, is as it was. *)
Definition same_entry (o o' : option node) : Prop :=
  match o with
  | Some (Dir _) => exists es, o' = Some (Dir es)
  | _ => o' = o
  end.

(** What [remove_path] calls in delete mode: [shutil.rmtree] on a real
    directory, [unlink] on anything else. *)
Definition removal (fl : flavour) (st : node) (p : Path) : exn + node :=
  if Fs.isdir fl st p && negb (Fs.islink fl st p)
  then Fs.rmtree fl st p else Fs.unlink fl st p.

(** [c in s] for a character. *)
Fixpoint has_char (c : ascii) (s : string) : bool :=
  match s with
  | EmptyString => false
  | String x s' => Ascii.eqb x c || has_char c s'
  end.

(** A component of a POSIX path that is a plain name: not empty, not ".",
    and with neither a slash nor a colon in it. *)
Definition plain_posix (c : string) : bool :=
  PosixParse.keep_component c
  && negb (has_char "/" c) && negb (has_char ":" c).

(** The same for a Windows path: no separator of either kind, no colon. *)
Definition plain_windows (c : string) : bool :=
  PosixParse.keep_component c
  && negb (has_char "/" c) && negb (has_char "\" c) && negb (has_char ":" c).

(** [backup_dir / safe_rel_for_backup(p)], the destination [remove_path]
    computes. *)
Definition backup_target (P : platform) (bd p : Path) : Path :=
  joinpath (flav P) bd (safe_rel_for_backup P p).

(** Where [shutil.move(src, dst)] puts the source: into [dst] when that is
    a directory, at [dst] otherwise. *)
Definition landing (fl : flavour) (st : node) (src dst : Path) : Path :=
  if Fs.isdir fl st dst then child dst (name src) else dst.

(** * Properties *)

(** ** The matcher *)

Example pat_match_launcher : pat_match "NVMP_Launcher.exe" = true.
Proof. reflexivity. Qed.

Example pat_match_other_mod : pat_match "SomeOtherMod.esp" = false.
Proof. reflexivity. Qed.

Example pat_match_spaced : pat_match "New  Vegas Multiplayer" = true.
Proof. reflexivity. Qed.

Example pat_match_line : pat_match ("NVMP.esp" +:+ String "010" "") = true.
Proof. reflexivity. Qed.

Example pat_match_known_name_only : pat_match "NVMP.LOG" = true.
Proof. reflexivity. Qed.

Example pat_match_digit_suffix : pat_match "nvmp9" = false.
Proof. reflexivity. Qed.

Example pat_match_letter_prefix : pat_match "xnvmp" = false.
Proof. reflexivity. Qed.

Example pat_match_inside_sentence : pat_match "a nvmp.b" = true.
Proof. reflexivity. Qed.

Example pat_match_separator_spaces :
  pat_match ("new" +:+ String "028" "vegas" +:+ String "031" "mp") = true.
Proof. reflexivity. Qed.

Module StrFacts.

Ltac by_cases_on c :=
  destruct c as [[] [] [] [] [] [] [] []]; reflexivity.

Lemma char_lower_idemp c : Str.char_lower (Str.char_lower c) = Str.char_lower c.
Proof. by_cases_on c. Qed.

Lemma is_word_lower c : Str.is_word (Str.char_lower c) = Str.is_word c.
Proof. by_cases_on c. Qed.

Lemma is_space_lower c : Str.is_space (Str.char_lower c) = Str.is_space c.
Proof. by_cases_on c. Qed.

Lemma lower_idemp s : Str.lower (Str.lower s) = Str.lower s.
Proof.
  induction s as [|c s IH]; simpl; [reflexivity|].
  now rewrite char_lower_idemp, IH.
Qed.

Lemma lower_length s : String.length (Str.lower s) = String.length s.
Proof. induction s as [|c s IH]; simpl; [reflexivity | now rewrite IH]. Qed.

Lemma lower_app s t : Str.lower (s +:+ t) = Str.lower s +:+ Str.lower t.
Proof. induction s as [|c s IH]; simpl; [reflexivity | now rewrite IH]. Qed.

End StrFacts.

Module ReFacts.
Import StrFacts.

Lemma char_eqb_lower x c :
  Re.char_eqb true (Str.char_lower x) c = Re.char_eqb true x c.
Proof. unfold Re.char_eqb. now rewrite char_lower_idemp. Qed.

Lemma at_boundary_lower prev s :
  Re.at_boundary (lower_prev prev) (Str.lower s) = Re.at_boundary prev s.
Proof.
  unfold Re.at_boundary. f_equal.
  - destruct prev; simpl; [apply is_word_lower | reflexivity].
  - destruct s; simpl; [reflexivity | apply is_word_lower].
Qed.

(** Under [re.IGNORECASE] a match attempt cannot tell a text from its
    lower-cased form. *)
Lemma match_here_star_nil ic r prev :
  Re.match_here ic (Re.SpaceStar :: r) prev ""
  = Re.match_here ic r prev "" || false.
Proof. reflexivity. Qed.

Lemma match_here_star_cons ic r prev x s :
  Re.match_here ic (Re.SpaceStar :: r) prev (String x s)
  = Re.match_here ic r prev (String x s)
    || Str.is_space x && Re.match_here ic (Re.SpaceStar :: r) (Some x) s.
Proof. reflexivity. Qed.

Lemma match_here_lit ic c r prev x s :
  Re.match_here ic (Re.Lit c :: r) prev (String x s)
  = Re.char_eqb ic x c && Re.match_here ic r (Some x) s.
Proof. reflexivity. Qed.

Lemma match_here_lower r : forall prev s,
  Re.match_here true r (lower_prev prev) (Str.lower s)
  = Re.match_here true r prev s.
Proof.
  induction r as [|a r IH]; intros prev s; [reflexivity|].
  destruct a as [c| |].
  - destruct s as [|x s]; [reflexivity|].
    change (Str.lower (String x s))
      with (String (Str.char_lower x) (Str.lower s)).
    rewrite !match_here_lit, char_eqb_lower. f_equal. apply (IH (Some x)).
  - revert prev. induction s as [|x s IHs]; intros prev.
    + change (Str.lower "") with "".
      rewrite !match_here_star_nil. f_equal. apply (IH prev "").
    + change (Str.lower (String x s))
        with (String (Str.char_lower x) (Str.lower s)).
      rewrite !match_here_star_cons, is_space_lower.
      f_equal; [apply (IH prev (String x s))|].
      f_equal. apply (IHs (Some x)).
  - cbn [Re.match_here]. now rewrite at_boundary_lower, IH.
Qed.

Lemma search_from_lower r : forall s prev,
  Re.search_from true r (lower_prev prev) (Str.lower s)
  = Re.search_from true r prev s.
Proof.
  induction s as [|x s IHs]; intros prev.
  - change (Str.lower "") with "". cbn [Re.search_from].
    f_equal. apply (match_here_lower r prev "").
  - change (Str.lower (String x s))
      with (String (Str.char_lower x) (Str.lower s)).
    cbn [Re.search_from].
    f_equal; [apply (match_here_lower r prev (String x s))|].
    apply (IHs (Some x)).
Qed.

Lemma re_search_lower p s :
  Re.ignorecase p = true -> Re.re_search p (Str.lower s) = Re.re_search p s.
Proof.
  intros Hic. unfold Re.re_search. rewrite Hic.
  apply (search_from_lower (Re.atoms p) s None).
Qed.

End ReFacts.

Lemma patterns_ignorecase :
  Forall (fun p => Re.ignorecase p = true) NVMP_NAME_PATTERNS.
Proof. repeat constructor. Qed.

Lemma pat_match_lower s : pat_match (Str.lower s) = pat_match s.
Proof.
  unfold pat_match. rewrite StrFacts.lower_idemp.
  destruct (bool_decide _); [reflexivity|].
  pose proof patterns_ignorecase as Hic.
  induction Hic as [|p ps Hp _ IH]; simpl; [reflexivity|].
  now rewrite (ReFacts.re_search_lower p s Hp), IH.
Qed.

(** C3. The matcher is case-insensitive: two texts with the same
    lower-cased form get the same verdict.  The bare abbreviation respects a
    word boundary: "nvmpxyz" does not match, while "nvmp" and "nvmp_foo"
    do. *)
Theorem pat_match_case_insensitive_word_boundary :
  (forall s t, Str.lower s = Str.lower t -> pat_match s = pat_match t)
  /\ pat_match "nvmpxyz" = false
  /\ pat_match "nvmp" = true
  /\ pat_match "nvmp_foo" = true.
Proof.
  split; [|repeat split; reflexivity].
  intros s t Heq.
  now rewrite <- (pat_match_lower s), <- (pat_match_lower t), Heq.
Qed.

Lemma pat_match_case_insensitive_word_boundary_witness :
  Str.lower "NvMp_Start.EXE" = Str.lower "nvmp_start.exe"
  /\ pat_match "NvMp_Start.EXE" = pat_match "nvmp_start.exe"
  /\ pat_match "New Vegas MP" = pat_match "NEW VEGAS mp".
Proof.
  destruct pat_match_case_insensitive_word_boundary as [Hci _].
  split; [reflexivity|].
  split; apply Hci; reflexivity.
Defined.

(** ** Paths and the covering collapse *)

Example parents_abc :
  parents (px ["a"; "b"; "c"]) = [px ["a"; "b"]; px ["a"]; px []].
Proof. reflexivity. Qed.

Example collapse_ex :
  collapse_covered_paths Posix
    [px ["a"; "nvmp"; "x"]; px ["b"; "nvmp_y"]; px ["a"; "nvmp"]]
  = [px ["a"; "nvmp"]; px ["b"; "nvmp_y"]].
Proof. reflexivity. Qed.

Example py_sorted_stable :
  py_sorted String.leb Str.lower ["b"; "a"; "B"] = ["a"; "b"; "B"].
Proof. reflexivity. Qed.

Example joinpath_anchored :
  joinpath Posix (px ["backup"]) (px ["home"; "u"; "nvmp"])
  = px ["home"; "u"; "nvmp"]
  /\ joinpath Windows (mkPath "C:" "\" ["b"]) (mkPath "" "" ["C"; "Games"; "x"])
     = mkPath "C:" "\" ["b"; "C"; "Games"; "x"]
  /\ joinpath Windows (mkPath "C:" "\" ["b"]) (mkPath "" "\" ["x"])
     = mkPath "C:" "\" ["x"]
  /\ joinpath Windows (mkPath "C:" "\" ["b"]) (mkPath "c:" "" ["x"])
     = mkPath "C:" "\" ["b"; "x"].
Proof. repeat split. Qed.

(** *** Order on sort keys *)

Module KeyOrder.

Lemma ascii_lt_trans x y z :
  Ascii.compare x y = Lt -> Ascii.compare y z = Lt -> Ascii.compare x z = Lt.
Proof.
  unfold Ascii.compare. rewrite !N.compare_lt_iff. lia.
Qed.

Lemma string_leb_iff a b : String.leb a b = true <-> String.compare a b <> Gt.
Proof. unfold String.leb. destruct (String.compare a b); split; congruence. Qed.

Lemma string_compare_le_trans : forall a b c,
  String.compare a b <> Gt -> String.compare b c <> Gt ->
  String.compare a c <> Gt.
Proof.
  induction a as [|x a IH]; intros [|y b] [|z c]; simpl; try congruence.
  destruct (Ascii.compare x y) eqn:Exy; try congruence;
    destruct (Ascii.compare y z) eqn:Eyz; try congruence; intros Hab Hbc.
  - apply Ascii.compare_eq_iff in Exy, Eyz. subst.
    assert (Ascii.compare z z = Eq) as ->.
    { unfold Ascii.compare. apply N.compare_refl. }
    now apply (IH b c).
  - apply Ascii.compare_eq_iff in Exy. subst. now rewrite Eyz.
  - apply Ascii.compare_eq_iff in Eyz. subst. now rewrite Exy.
  - now rewrite (ascii_lt_trans x y z Exy Eyz).
Qed.

Lemma string_leb_trans a b c :
  String.leb a b = true -> String.leb b c = true -> String.leb a c = true.
Proof. rewrite !string_leb_iff. apply string_compare_le_trans. Qed.

Lemma string_leb_refl a : String.leb a a = true.
Proof. destruct (String.leb_total a a); assumption. Qed.

Lemma depth_key_leb_total a b :
  depth_key_leb a b = true \/ depth_key_leb b a = true.
Proof.
  unfold depth_key_leb. destruct a as [n s], b as [m t]; simpl.
  destruct (Nat.ltb_spec n m); [now left|].
  destruct (Nat.ltb_spec m n); [now right|].
  assert (n = m) as -> by lia. rewrite Nat.eqb_refl. simpl.
  apply String.leb_total.
Qed.

Lemma depth_key_leb_trans a b c :
  depth_key_leb a b = true -> depth_key_leb b c = true ->
  depth_key_leb a c = true.
Proof.
  unfold depth_key_leb. destruct a as [n s], b as [m t], c as [k u]; simpl.
  rewrite !orb_true_iff, !andb_true_iff, !Nat.ltb_lt, !Nat.eqb_eq.
  intros [Hnm|[-> Hst]] [Hmk|[-> Htu]]; try (left; lia).
  right. split; [reflexivity|]. eapply string_leb_trans; eassumption.
Qed.

End KeyOrder.

(** *** Stable insertion sort *)

Section SortedFacts.
Context {A K : Type} (leb : K -> K -> bool) (key : A -> K).
Hypothesis leb_total : forall a b, leb a b = true \/ leb b a = true.
Hypothesis leb_trans :
  forall a b c, leb a b = true -> leb b c = true -> leb a c = true.

Lemma insert_by_perm x l : Permutation (insert_by leb key x l) (x :: l).
Proof.
  induction l as [|y l IH]; simpl; [reflexivity|].
  destruct (leb (key x) (key y)); [reflexivity|].
  rewrite IH. apply perm_swap.
Qed.

Lemma py_sorted_perm l : Permutation (py_sorted leb key l) l.
Proof.
  induction l as [|x l IH]; simpl; [reflexivity|].
  rewrite insert_by_perm. now constructor.
Qed.

Lemma py_sorted_In x l : In x (py_sorted leb key l) <-> In x l.
Proof.
  split; apply Permutation_in;
    [apply py_sorted_perm | symmetry; apply py_sorted_perm].
Qed.

Lemma insert_by_sorted x l :
  Sorted (key_le leb key) l -> Sorted (key_le leb key) (insert_by leb key x l).
Proof.
  induction 1 as [|y l Hs IH Hhd]; simpl; [repeat constructor|].
  destruct (leb (key x) (key y)) eqn:E.
  - constructor; [now constructor | now constructor].
  - constructor; [assumption|].
    assert (key_le leb key y x) as Hyx.
    { unfold key_le. destruct (leb_total (key x) (key y)); congruence. }
    destruct Hhd as [|z l Hyz]; simpl; [now constructor|].
    destruct (leb (key x) (key z)); now constructor.
Qed.

Lemma py_sorted_sorted l : Sorted (key_le leb key) (py_sorted leb key l).
Proof.
  induction l as [|x l IH]; simpl; [constructor | now apply insert_by_sorted].
Qed.

(** Sorting a sorted list returns it unchanged. *)
Lemma py_sorted_id l : Sorted (key_le leb key) l -> py_sorted leb key l = l.
Proof.
  induction 1 as [|x l Hs IH Hhd]; simpl; [reflexivity|].
  rewrite IH. destruct Hhd as [|y l Hxy]; simpl; [reflexivity|].
  unfold key_le in Hxy. now rewrite Hxy.
Qed.

Lemma filter_sorted (f : A -> bool) l :
  Sorted (key_le leb key) l -> Sorted (key_le leb key) (List.filter f l).
Proof.
  intros Hs. apply StronglySorted_Sorted.
  assert (StronglySorted (key_le leb key) l) as Hss.
  { apply Sorted_StronglySorted; [|assumption].
    intros x y z. apply leb_trans. }
  clear Hs. induction Hss as [|x l Hss IH Hall]; simpl; [constructor|].
  destruct (f x); [|assumption].
  constructor; [assumption|].
  rewrite List.Forall_forall in *. intros y Hy.
  apply filter_In in Hy. now apply Hall.
Qed.
End SortedFacts.

Lemma filter_all_true {A} (f : A -> bool) l :
  (forall x, In x l -> f x = true) -> List.filter f l = l.
Proof.
  induction l as [|x l IH]; simpl; intros H; [reflexivity|].
  rewrite (H x) by now left. f_equal. apply IH. intros y Hy. apply H. now right.
Qed.

(** *** Covering *)

Lemma covered_iff fl (paths : list Path) p :
  covered fl (list_to_set (map (path_key fl) paths)) p = true
  <-> exists a, In a paths /\ is_ancestor fl a p.
Proof.
  unfold covered, is_ancestor. rewrite existsb_exists. split.
  - intros (q & Hq & Hin). apply bool_decide_eq_true in Hin.
    apply elem_of_list_to_set, list_elem_of_In, in_map_iff in Hin.
    destruct Hin as (a & Heq & Ha). exists a. split; [assumption|].
    exists q. split; [assumption | congruence].
  - intros (a & Ha & q & Hq & Heq). exists q. split; [assumption|].
    apply bool_decide_eq_true, elem_of_list_to_set, list_elem_of_In.
    rewrite Heq. now apply in_map.
Qed.

Lemma collapse_In fl paths p :
  In p (collapse_covered_paths fl paths)
  <-> In p paths /\ ~ exists a, In a paths /\ is_ancestor fl a p.
Proof.
  unfold collapse_covered_paths. rewrite filter_In, py_sorted_In.
  rewrite negb_true_iff, <- not_true_iff_false, covered_iff. reflexivity.
Qed.

Lemma collapse_sorted fl paths :
  Sorted (key_le depth_key_leb (depth_key fl)) (collapse_covered_paths fl paths).
Proof.
  apply filter_sorted; [apply KeyOrder.depth_key_leb_trans|].
  apply py_sorted_sorted, KeyOrder.depth_key_leb_total.
Qed.

(** The claim as the spec words it fails on a chain of three: the middle
    directory has an ancestor in the set, so it is dropped as well. *)
Lemma collapse_middle_not_retained :
  let D := px ["a"; "b"] in
  let P := px ["a"; "b"; "c"] in
  let paths := [px ["a"]; D; P] in
  In D paths /\ In P paths /\ is_ancestor Posix D P
  /\ ~ In D (collapse_covered_paths Posix paths).
Proof.
  cbv zeta. split; [simpl; tauto|]. split; [simpl; tauto|]. split.
  - exists (px ["a"; "b"]). split; [simpl; tauto | reflexivity].
  - assert (collapse_covered_paths Posix
              [px ["a"]; px ["a"; "b"]; px ["a"; "b"; "c"]] = [px ["a"]]) as ->
      by reflexivity.
    simpl. intros [H|[]]. discriminate H.
Qed.

(** C2 (amended). No member of the collapsed list is a descendant of
    another member; a path with an ancestor in the input is excluded; and a
    member of the input is retained exactly when none of its own ancestors
    is in the input. *)
Theorem collapse_covered_paths_antichain fl (paths : list Path) :
  (forall p q, In p (collapse_covered_paths fl paths) ->
               In q (collapse_covered_paths fl paths) ->
               ~ is_ancestor fl q p)
  /\ (forall D P, In D paths -> is_ancestor fl D P ->
                  ~ In P (collapse_covered_paths fl paths))
  /\ (forall D, In D paths ->
                (forall a, In a paths -> ~ is_ancestor fl a D) ->
                In D (collapse_covered_paths fl paths)).
Proof.
  split; [|split].
  - intros p q Hp Hq Hanc. apply collapse_In in Hp, Hq.
    destruct Hp as [_ Hp]. apply Hp. exists q. tauto.
  - intros D P HD Hanc HP. apply collapse_In in HP.
    destruct HP as [_ HP]. apply HP. eauto.
  - intros D HD Hfree. apply collapse_In. split; [assumption|].
    intros (a & Ha & Hanc). exact (Hfree a Ha Hanc).
Qed.

Lemma collapse_covered_paths_antichain_witness :
  let D := px ["Data"; "nvmp"] in
  let P := px ["Data"; "nvmp"; "nvmp_launcher.exe"] in
  let paths := [P; D] in
  ~ In P (collapse_covered_paths Posix paths)
  /\ In D (collapse_covered_paths Posix paths).
Proof.
  cbv zeta.
  destruct (collapse_covered_paths_antichain Posix
              [px ["Data"; "nvmp"; "nvmp_launcher.exe"]; px ["Data"; "nvmp"]])
    as (_ & Hex & Hkeep).
  split.
  - apply (Hex (px ["Data"; "nvmp"])); [simpl; tauto|].
    exists (px ["Data"; "nvmp"]). split; [simpl; tauto | reflexivity].
  - apply Hkeep; [simpl; tauto|].
    intros a [<-|[<-|[]]] (q & Hq & Heq); simpl in Hq;
      repeat (destruct Hq as [<-|Hq]; [discriminate Heq|]); exact Hq.
Defined.

(** C5. The covering collapse is idempotent: collapsing a collapsed list
    returns the very same list, hence the same set. *)
Theorem collapse_covered_paths_idempotent fl (paths : list Path) :
  collapse_covered_paths fl (collapse_covered_paths fl paths)
  = collapse_covered_paths fl paths.
Proof.
  set (out := collapse_covered_paths fl paths).
  unfold collapse_covered_paths at 1.
  rewrite py_sorted_id by apply collapse_sorted.
  apply filter_all_true. intros p Hp.
  rewrite negb_true_iff, <- not_true_iff_false, covered_iff.
  intros (a & Ha & Hanc).
  apply collapse_In in Hp, Ha. destruct Hp as [_ Hp]. apply Hp.
  exists a. tauto.
Qed.

(** ** The I/O monad *)

Module MonadFacts.

Lemma bind_inv {A B} (c : M A) (k : A -> M B) w r w' :
  bind c k w = (r, w') ->
  (exists e, c w = (inl e, w') /\ r = inl e)
  \/ (exists a w1, c w = (inr a, w1) /\ k a w1 = (r, w')).
Proof.
  unfold bind. destruct (c w) as [[e|a] w1]; intros H.
  - left. exists e. now inversion H.
  - right. eauto.
Qed.

Lemma bind_inr {A B} (c : M A) (k : A -> M B) w b w' :
  bind c k w = (inr b, w') ->
  exists a w1, c w = (inr a, w1) /\ k a w1 = (inr b, w').
Proof.
  intros H. apply bind_inv in H as [(e & _ & [=])|H]. exact H.
Qed.

Lemma prim_cases {A} (f : node -> exn + (A * node)) w :
  (exists e fs, faults w = Some e :: fs
     /\ prim f w = (inl e, mkWorld (store w) (environ w) fs))
  \/ (next_call_ok w
      /\ match f (store w) with
         | inl e => prim f w = (inl e, mkWorld (store w) (environ w) (List.tl (faults w)))
         | inr (a, st') => prim f w = (inr a, mkWorld st' (environ w) (List.tl (faults w)))
         end).
Proof.
  unfold prim, next_call_ok. destruct (faults w) as [|[e|] fs]; simpl.
  - right. split; [exact I|]. destruct (f (store w)) as [e|[a st']]; reflexivity.
  - left. eauto.
  - right. split; [exact I|]. destruct (f (store w)) as [e|[a st']]; reflexivity.
Qed.

Lemma query_inv {A} (f : node -> A) w r w' :
  query f w = (r, w') ->
  store w' = store w /\ environ w' = environ w
  /\ (forall a, r = inr a -> a = f (store w)).
Proof.
  unfold query. intros H.
  destruct (prim_cases (fun st => inr (f st, st)) w) as [(e & fs & _ & E)|[_ E]];
    simpl in E; rewrite E in H; inversion H; subst; simpl;
    repeat split; try reflexivity; intros a [=]; congruence.
Qed.

Lemma query_ok {A} (f : node -> A) w :
  next_call_ok w ->
  query f w = (inr (f (store w)),
               mkWorld (store w) (environ w) (List.tl (faults w))).
Proof.
  intros Hok. unfold query.
  destruct (prim_cases (fun st => inr (f st, st)) w) as [(e & fs & E & _)|[_ E]].
  - unfold next_call_ok in Hok. now rewrite E in Hok.
  - exact E.
Qed.

Lemma query_quiet {A} (f : node -> A) : quiet (query f).
Proof.
  intros w Hf. exists (f (store w)). rewrite query_ok.
  - destruct w; simpl in *. now subst.
  - unfold next_call_ok. now rewrite Hf.
Qed.

Lemma ret_quiet {A} (a : A) : quiet (ret a).
Proof. intros w _. now exists a. Qed.

Lemma bind_quiet {A B} (c : M A) (k : A -> M B) :
  quiet c -> (forall a, quiet (k a)) -> quiet (bind c k).
Proof.
  intros Hc Hk w Hf. destruct (Hc w Hf) as [a Ha].
  destruct (Hk a w Hf) as [b Hb]. exists b. unfold bind. now rewrite Ha.
Qed.

Lemma try_quiet {A} (c : M A) h : quiet c -> quiet (try_except c h).
Proof.
  intros Hc w Hf. destruct (Hc w Hf) as [a Ha]. exists a.
  unfold try_except. now rewrite Ha.
Qed.

Lemma getenv_quiet k : quiet (getenv k).
Proof. intros w _. now eexists. Qed.

Lemma ret_keeps {A} (a : A) : keeps_store (ret a).
Proof. intros w r w' [= <- <-]. auto. Qed.

Lemma query_keeps {A} (f : node -> A) : keeps_store (query f).
Proof. intros w r w' H. apply query_inv in H. tauto. Qed.

Lemma getenv_keeps k : keeps_store (getenv k).
Proof. intros w r w' [= <- <-]. auto. Qed.

Lemma bind_keeps {A B} (c : M A) (k : A -> M B) :
  keeps_store c -> (forall a, keeps_store (k a)) -> keeps_store (bind c k).
Proof.
  intros Hc Hk w r w' H. apply bind_inv in H as [(e & H & _)|(a & w1 & H1 & H2)].
  - exact (Hc _ _ _ H).
  - destruct (Hc _ _ _ H1) as [E1 E2], (Hk a _ _ _ H2) as [E3 E4].
    split; congruence.
Qed.

Lemma try_keeps {A} (c : M A) h :
  keeps_store c -> (forall e, keeps_store (h e)) -> keeps_store (try_except c h).
Proof.
  intros Hc Hh w r w' H. unfold try_except in H.
  destruct (c w) as [[e|a] w1] eqn:E.
  - destruct (Hc _ _ _ E) as [E1 E2], (Hh e _ _ _ H) as [E3 E4].
    split; congruence.
  - inversion H; subst. exact (Hc _ _ _ E).
Qed.

End MonadFacts.

Create HintDb io discriminated.
#[export] Hint Resolve MonadFacts.ret_quiet MonadFacts.query_quiet
  MonadFacts.getenv_quiet MonadFacts.bind_quiet MonadFacts.try_quiet : io.
#[export] Hint Resolve MonadFacts.ret_keeps MonadFacts.query_keeps
  MonadFacts.getenv_keeps MonadFacts.bind_keeps MonadFacts.try_keeps : io.

(** ** The scanner *)

Section ScanFacts.
Context (P : platform) (cap : Z).
Import MonadFacts.

Lemma resolve_quiet p : quiet (resolve P p).
Proof. apply query_quiet. Qed.

Lemma resolve_keeps p : keeps_store (resolve P p).
Proof. apply query_keeps. Qed.

Lemma os_walk_inv root w r w' :
  os_walk P root w = (r, w') ->
  w' = w /\ r = inr (Fs.os_walk (flav P) (store w) root).
Proof. intros [= <- <-]. auto. Qed.

(** *** Loops preserve an invariant of the bookkeeping *)

Section Invariant.
Context (I : scan_state -> Prop) (Q : list Path -> Prop).
Hypothesis step : forall s p, I s ->
  if (cap <=? Z.of_nat (List.length (matches (add P p s))))%Z
  then Q (matches (add P p s)) else I (add P p s).

Lemma scan_names_holds dp names : forall s w r w',
  I s -> scan_names P cap dp names s w = (inr r, w') ->
  flow_holds I Q r.
Proof.
  induction names as [|n names IH]; intros s w r w' Hs H; simpl in H.
  - inversion H; subst. exact Hs.
  - destruct (pat_match n); [|exact (IH _ _ _ _ Hs H)].
    apply bind_inr in H as (p & w1 & _ & H).
    specialize (step s p Hs).
    destruct (cap <=? _)%Z.
    + inversion H; subst. exact step.
    + exact (IH _ _ _ _ step H).
Qed.

Lemma scan_walk_holds entries : forall s w r w',
  I s -> scan_walk P cap entries s w = (inr r, w') ->
  flow_holds I Q r.
Proof.
  induction entries as [|[[dp ds] fs] entries IH]; intros s w r w' Hs H;
    simpl in H.
  - inversion H; subst. exact Hs.
  - apply bind_inr in H as (r1 & w1 & H1 & H).
    apply scan_names_holds in H1; [|exact Hs].
    destruct r1 as [s1|ms]; [|inversion H; subst; exact H1].
    apply bind_inr in H as (r2 & w2 & H2 & H).
    apply scan_names_holds in H2; [|exact H1].
    destruct r2 as [s2|ms]; [|inversion H; subst; exact H2].
    exact (IH _ _ _ _ H2 H).
Qed.

Lemma scan_roots_holds roots : forall s w r w',
  I s -> scan_roots P cap roots s w = (inr r, w') ->
  flow_holds I Q r.
Proof.
  induction roots as [|root roots IH]; intros s w r w' Hs H; simpl in H.
  - inversion H; subst. exact Hs.
  - apply bind_inr in H as (es & w1 & _ & H).
    apply bind_inr in H as (r1 & w2 & H1 & H).
    apply scan_walk_holds in H1; [|exact Hs].
    destruct r1 as [s1|ms]; [|inversion H; subst; exact H1].
    exact (IH _ _ _ _ H1 H).
Qed.
End Invariant.

(** *** The loops read only *)

Lemma scan_names_keeps dp names : forall s,
  keeps_store (scan_names P cap dp names s).
Proof.
  induction names as [|n names IH]; intros s; simpl; [auto with io|].
  destruct (pat_match n); [|apply IH].
  apply bind_keeps; [apply resolve_keeps|]. intros p.
  destruct (cap <=? _)%Z; [auto with io | apply IH].
Qed.

Lemma scan_walk_keeps entries : forall s,
  keeps_store (scan_walk P cap entries s).
Proof.
  induction entries as [|[[dp ds] fs] entries IH]; intros s; simpl;
    [auto with io|].
  apply bind_keeps; [apply scan_names_keeps|]. intros [s1|ms]; [|auto with io].
  apply bind_keeps; [apply scan_names_keeps|]. intros [s2|ms]; [|auto with io].
  apply IH.
Qed.

Lemma scan_names_quiet dp names : forall s,
  quiet (scan_names P cap dp names s).
Proof.
  induction names as [|n names IH]; intros s; simpl; [auto with io|].
  destruct (pat_match n); [|apply IH].
  apply bind_quiet; [apply resolve_quiet|]. intros p.
  destruct (cap <=? _)%Z; [auto with io | apply IH].
Qed.

Lemma scan_walk_quiet entries : forall s,
  quiet (scan_walk P cap entries s).
Proof.
  induction entries as [|[[dp ds] fs] entries IH]; intros s; simpl;
    [auto with io|].
  apply bind_quiet; [apply scan_names_quiet|]. intros [s1|ms]; [|auto with io].
  apply bind_quiet; [apply scan_names_quiet|]. intros [s2|ms]; [|auto with io].
  apply IH.
Qed.

Lemma os_walk_quiet root : quiet (os_walk P root).
Proof. intros w _. now eexists. Qed.

Lemma scan_roots_quiet roots : forall s,
  quiet (scan_roots P cap roots s).
Proof.
  induction roots as [|root roots IH]; intros s; simpl; [auto with io|].
  apply bind_quiet; [apply os_walk_quiet|]. intros es.
  apply bind_quiet; [apply scan_walk_quiet|]. intros [s1|ms]; [|auto with io].
  apply IH.
Qed.

Lemma walk_find_matches_quiet roots :
  quiet (walk_find_matches P roots cap).
Proof.
  unfold walk_find_matches.
  apply bind_quiet; [apply scan_roots_quiet|]. intros [s|ms]; auto with io.
Qed.

(** *** Bookkeeping of [add] *)

Lemma add_length p s :
  (List.length (matches (add P p s)) <= S (List.length (matches s)))%nat.
Proof.
  unfold add. destruct (bool_decide _); simpl; [lia|].
  rewrite length_app. simpl. lia.
Qed.

Lemma add_inv p s : scan_inv P s -> scan_inv P (add P p s).
Proof.
  intros [Hnd Hseen]. unfold add.
  change (Str.lower (path_str (flav P) p)) with (root_key P p).
  destruct (bool_decide _) eqn:E; [now split|].
  apply bool_decide_eq_false in E.
  split; simpl.
  - rewrite map_app. simpl.
    apply NoDup_app. split; [assumption|]. split.
    + intros k Hk Hin. apply list_elem_of_In in Hin, Hk.
      destruct Hin as [<-|[]]. now apply E, Hseen.
    + apply NoDup_singleton.
  - intros k. rewrite map_app, in_app_iff, elem_of_union, elem_of_singleton.
    rewrite Hseen. simpl. intuition congruence.
Qed.

Lemma scan_inv_init : scan_inv P (mkScan [] ∅).
Proof.
  split; simpl; [constructor|]. intros k. split; [|tauto].
  intros H. now apply not_elem_of_empty in H.
Qed.
End ScanFacts.

Section ScanCapOne.
Context (P : platform).
Import MonadFacts.

(** With a cap of one the loops go on only as long as nothing matched. *)
Lemma scan_names_cap1 dp names : forall s w r w',
  matches s = [] -> seen s = ∅ ->
  scan_names P 1 dp names s w = (inr r, w') ->
  match r with
  | Return ms => List.length ms = 1%nat
  | Continue s' => s' = s /\ existsb pat_match names = false
  end.
Proof.
  induction names as [|n names IH]; intros s w r w' Hm Hs H; simpl in H.
  - inversion H; subst. auto.
  - simpl. destruct (pat_match n); simpl.
    + apply bind_inr in H as (p & w1 & _ & H).
      unfold add in H. rewrite Hs, Hm in H.
      rewrite bool_decide_eq_false_2 in H by apply not_elem_of_empty.
      simpl in H. inversion H; subst. reflexivity.
    + exact (IH _ _ _ _ Hm Hs H).
Qed.

Lemma scan_walk_cap1 entries : forall s w r w',
  matches s = [] -> seen s = ∅ ->
  scan_walk P 1 entries s w = (inr r, w') ->
  match r with
  | Return ms => List.length ms = 1%nat
  | Continue s' =>
      s' = s
      /\ existsb (fun e : Fs.walk_entry => existsb pat_match (e.1.2 ++ e.2))
                 entries = false
  end.
Proof.
  induction entries as [|[[dp ds] fs] entries IH]; intros s w r w' Hm Hs H;
    simpl in H.
  - inversion H; subst. auto.
  - apply bind_inr in H as (r1 & w1 & H1 & H).
    apply scan_names_cap1 in H1; [|assumption..].
    destruct r1 as [s1|ms]; [|inversion H; subst; exact H1].
    destruct H1 as [-> Hds].
    apply bind_inr in H as (r2 & w2 & H2 & H).
    apply scan_names_cap1 in H2; [|assumption..].
    destruct r2 as [s2|ms]; [|inversion H; subst; exact H2].
    destruct H2 as [-> Hfs].
    apply IH in H; [|assumption..].
    destruct r as [s'|ms]; [|exact H].
    destruct H as [-> Hrest]. split; [reflexivity|].
    simpl. now rewrite existsb_app, Hds, Hfs, Hrest.
Qed.

Lemma scan_roots_cap1 roots : forall s w r w',
  matches s = [] -> seen s = ∅ ->
  scan_roots P 1 roots s w = (inr r, w') ->
  match r with
  | Return ms => List.length ms = 1%nat
  | Continue s' =>
      s' = s /\ walk_has_hit (flav P) (store w) roots = false
  end.
Proof.
  induction roots as [|root roots IH]; intros s w r w' Hm Hs H; simpl in H.
  - inversion H; subst. auto.
  - apply bind_inr in H as (es & w1 & H0 & H).
    apply os_walk_inv in H0 as [-> [= ->]].
    apply bind_inr in H as (r1 & w2 & H1 & H).
    pose proof (scan_walk_keeps P 1 _ _ _ _ _ H1) as [Hst _].
    apply scan_walk_cap1 in H1; [|assumption..].
    destruct r1 as [s1|ms]; [|inversion H; subst; exact H1].
    destruct H1 as [-> Hhere].
    apply IH in H; [|assumption..].
    destruct r as [s'|ms]; [|exact H].
    destruct H as [-> Hrest]. split; [reflexivity|].
    simpl. rewrite Hhere. rewrite Hst in Hrest. exact Hrest.
Qed.
End ScanCapOne.

Lemma walk_find_matches_keys_nodup P roots cap w ms w' :
  walk_find_matches P roots cap w = (inr ms, w') ->
  NoDup (map (root_key P) ms).
Proof.
  intros H. unfold walk_find_matches in H.
  apply MonadFacts.bind_inr in H as (r & w1 & H1 & H).
  apply (scan_roots_holds P cap (scan_inv P)
           (fun ms => NoDup (map (root_key P) ms))) in H1.
  - destruct r as [s|ms']; inversion H; subst; simpl in H1.
    + destruct H1 as [Hnd _].
      assert (map (root_key P) (py_sorted String.leb (root_key P) (matches s))
              ≡ₚ map (root_key P) (matches s)) as ->
        by apply Permutation_map, py_sorted_perm.
      exact Hnd.
    + exact H1.
  - intros s p Hs. pose proof (add_inv P p s Hs) as [Hnd Hseen].
    destruct (cap <=? _)%Z; [exact Hnd | now split].
  - apply scan_inv_init.
Qed.

(** C10. The list returned by the scanner has no duplicates: entries at
    two different positions have different lower-cased path strings. *)
Theorem walk_find_matches_no_duplicates P roots cap w ms w' :
  walk_find_matches P roots cap w = (inr ms, w') ->
  forall i j p q, ms !! i = Some p -> ms !! j = Some q -> i <> j ->
    Str.lower (path_str (flav P) p) <> Str.lower (path_str (flav P) q).
Proof.
  intros H i j p q Hi Hj Hij Heq.
  apply walk_find_matches_keys_nodup in H.
  apply Hij. eapply NoDup_lookup; [exact H| |].
  - rewrite list_lookup_fmap, Hi. reflexivity.
  - rewrite list_lookup_fmap, Hj. simpl. unfold root_key. now rewrite Heq.
Qed.

(** The sample installation scanned from two overlapping roots: the
    launcher is met twice and recorded once. *)
Lemma walk_find_matches_no_duplicates_witness :
  walk_find_matches Sample.pf [Sample.game; px ["game"; "Data"]] 10 Sample.w0
  = (inr [Sample.launcher; Sample.starter], Sample.w0)
  /\ Str.lower (path_str Posix Sample.launcher)
     <> Str.lower (path_str Posix Sample.starter).
Proof.
  split; [reflexivity|].
  apply (walk_find_matches_no_duplicates Sample.pf
           [Sample.game; px ["game"; "Data"]] 10 Sample.w0
           [Sample.launcher; Sample.starter] Sample.w0 eq_refl 0%nat 1%nat);
    [reflexivity | reflexivity | discriminate].
Defined.

(** With a cap of zero the first match is still recorded and returned. *)
Lemma walk_find_matches_cap_zero :
  walk_find_matches Sample.pf [Sample.game] 0 Sample.w0
  = (inr [Sample.starter], Sample.w0)
  /\ ~ (Z.of_nat (List.length [Sample.starter]) <= 0)%Z.
Proof. split; [reflexivity | simpl; lia]. Qed.

(** C6 (amended). For a cap of at least one the scanner returns at most
    [max_matches] matches; hitting the cap is no error (with no fault
    injected the call returns normally); and with a cap of one and some
    qualifying entry below the roots exactly one match is returned. *)
Theorem walk_find_matches_respects_cap P roots max_matches w :
  (1 <= max_matches)%Z ->
  (faults w = [] ->
   exists ms, walk_find_matches P roots max_matches w = (inr ms, w))
  /\ (forall ms w',
        walk_find_matches P roots max_matches w = (inr ms, w') ->
        (Z.of_nat (List.length ms) <= max_matches)%Z
        /\ (max_matches = 1%Z ->
            walk_has_hit (flav P) (store w) roots = true ->
            List.length ms = 1%nat)).
Proof.
  intros Hcap. split; [apply walk_find_matches_quiet|].
  intros ms w' H. split.
  - unfold walk_find_matches in H.
    apply MonadFacts.bind_inr in H as (r & w1 & H1 & H).
    apply (scan_roots_holds P max_matches
             (fun s => (Z.of_nat (List.length (matches s)) < max_matches)%Z)
             (fun ms => (Z.of_nat (List.length ms) <= max_matches)%Z)) in H1.
    + destruct r as [s|ms']; inversion H; subst; simpl in H1; [|exact H1].
      rewrite (Permutation_length (py_sorted_perm _ _ _)). lia.
    + intros s p Hs. pose proof (add_length P p s).
      destruct (Z.leb_spec max_matches
                  (Z.of_nat (List.length (matches (add P p s))))); lia.
    + simpl. lia.
  - intros -> Hhit. unfold walk_find_matches in H.
    apply MonadFacts.bind_inr in H as (r & w1 & H1 & H).
    apply scan_roots_cap1 in H1; [|reflexivity..].
    destruct r as [s|ms']; inversion H; subst; [|exact H1].
    destruct H1 as [_ Hno]. congruence.
Qed.

(** Two qualifying artifacts, cap one: one match. *)
Lemma walk_find_matches_respects_cap_witness :
  (1 <= 1)%Z
  /\ walk_find_matches Sample.pf [Sample.game] 10 Sample.w0
     = (inr [Sample.launcher; Sample.starter], Sample.w0)
  /\ walk_find_matches Sample.pf [Sample.game] 1 Sample.w0
     = (inr [Sample.starter], Sample.w0)
  /\ List.length [Sample.starter] = 1%nat.
Proof.
  split; [lia|]. split; [reflexivity|]. split; [reflexivity|].
  assert (1 <= 1)%Z as H11 by lia.
  destruct (walk_find_matches_respects_cap Sample.pf [Sample.game] 1
              Sample.w0 H11) as [_ H].
  apply (H [Sample.starter] Sample.w0 eq_refl); reflexivity.
Defined.

(** ** The root builder *)

Section RootFacts.
Context (P : platform).
Import MonadFacts.

Lemma path_exists_inv p w r w' :
  path_exists P p w = (r, w') ->
  store w' = store w /\ environ w' = environ w
  /\ (forall b, r = inr b -> b = Fs.exists_ (flav P) (store w) p).
Proof. apply query_inv. Qed.

Lemma existing_keeps dirs : keeps_store (existing P dirs).
Proof.
  induction dirs as [|d dirs IH]; simpl; [auto with io|].
  apply bind_keeps; [apply query_keeps | intros ex].
  apply bind_keeps; [exact IH | intros tl]. apply ret_keeps.
Qed.

Lemma existing_quiet dirs : quiet (existing P dirs).
Proof.
  induction dirs as [|d dirs IH]; simpl; [auto with io|].
  apply bind_quiet; [apply query_quiet | intros ex].
  apply bind_quiet; [exact IH | intros tl]. apply ret_quiet.
Qed.

Lemma env_dir_keeps k : keeps_store (env_dir P k).
Proof.
  unfold env_dir. apply bind_keeps; [apply getenv_keeps | intros v].
  apply ret_keeps.
Qed.

Lemma env_dir_quiet k : quiet (env_dir P k).
Proof.
  unfold env_dir. apply bind_quiet; [apply getenv_quiet | intros v].
  apply ret_quiet.
Qed.

Lemma user_dirs_keeps : keeps_store (user_dirs P).
Proof.
  unfold user_dirs.
  repeat (apply bind_keeps; [apply env_dir_keeps | intros ?]).
  apply existing_keeps.
Qed.

Lemma user_dirs_quiet : quiet (user_dirs P).
Proof.
  unfold user_dirs.
  repeat (apply bind_quiet; [apply env_dir_quiet | intros ?]).
  apply existing_quiet.
Qed.

Lemma likely_vortex_mod_roots_keeps : keeps_store (likely_vortex_mod_roots P).
Proof.
  unfold likely_vortex_mod_roots.
  apply bind_keeps; [apply env_dir_keeps|].
  intros [r|]; [apply existing_keeps | auto with io].
Qed.

Lemma likely_vortex_mod_roots_quiet : quiet (likely_vortex_mod_roots P).
Proof.
  unfold likely_vortex_mod_roots.
  apply bind_quiet; [apply env_dir_quiet|].
  intros [r|]; [apply existing_quiet | auto with io].
Qed.

Lemma mo2_near_keeps l : keeps_store (mo2_near P l).
Proof.
  induction l as [|par l IH]; simpl; [auto with io|].
  apply bind_keeps; [apply query_keeps|]. intros [|]; simpl; [|exact IH].
  apply bind_keeps; [apply query_keeps | intros ex2].
  apply bind_keeps; [exact IH | intros tl]. apply ret_keeps.
Qed.

Lemma mo2_near_quiet l : quiet (mo2_near P l).
Proof.
  induction l as [|par l IH]; simpl; [auto with io|].
  apply bind_quiet; [apply query_quiet|]. intros [|]; simpl; [|exact IH].
  apply bind_quiet; [apply query_quiet | intros ex2].
  apply bind_quiet; [exact IH | intros tl]. apply ret_quiet.
Qed.

Lemma likely_mo2_roots_near_game_keeps g :
  keeps_store (likely_mo2_roots_near_game P g).
Proof. destruct g; [exact (mo2_near_keeps _) | apply ret_keeps]. Qed.

Lemma likely_mo2_roots_near_game_quiet g :
  quiet (likely_mo2_roots_near_game P g).
Proof. destruct g; [exact (mo2_near_quiet _) | apply ret_quiet]. Qed.

Lemma dedupe_existing_keeps roots : forall out sn,
  keeps_store (dedupe_existing P roots out sn).
Proof.
  induction roots as [|r roots IH]; intros out sn; simpl; [auto with io|].
  apply bind_keeps.
  { apply try_keeps; [apply query_keeps | auto with io]. }
  intros rr. destruct (bool_decide _); [apply IH|].
  apply bind_keeps; [apply query_keeps|]. intros [|]; apply IH.
Qed.

Lemma dedupe_existing_quiet roots : forall out sn,
  quiet (dedupe_existing P roots out sn).
Proof.
  induction roots as [|r roots IH]; intros out sn; simpl; [auto with io|].
  apply bind_quiet.
  { apply try_quiet, query_quiet. }
  intros rr. destruct (bool_decide _); [apply IH|].
  apply bind_quiet; [apply query_quiet|]. intros [|]; apply IH.
Qed.

Lemma dedupe_existing_ok roots : forall out sn w res w',
  roots_ok P (store w) out sn ->
  dedupe_existing P roots out sn w = (inr res, w') ->
  exists sn', roots_ok P (store w) res sn'.
Proof.
  induction roots as [|r roots IH]; intros out sn w res w' Hok H; simpl in H.
  - inversion H; subst. eauto.
  - apply bind_inr in H as (rr & w1 & H1 & H).
    assert (store w1 = store w) as Hst1.
    { eapply (try_keeps (resolve P r) (fun _ => ret r));
        [apply query_keeps | auto with io | exact H1]. }
    destruct (bool_decide (root_key P rr ∈ sn)) eqn:E.
    + rewrite <- Hst1 in Hok. destruct (IH _ _ _ _ _ Hok H) as [sn' H'].
      exists sn'. now rewrite <- Hst1.
    + apply bool_decide_eq_false in E.
      apply bind_inr in H as (ex & w2 & H2 & H).
      apply path_exists_inv in H2 as (Hst2 & _ & Hex).
      specialize (Hex ex eq_refl).
      assert (store w2 = store w) as Hst by congruence.
      rewrite <- Hst in Hok.
      destruct ex.
      * assert (roots_ok P (store w2) (out ++ [rr]) ({[root_key P rr]} ∪ sn))
          as Hok'.
        { destruct Hok as (Hall & Hnd & Hseen). split; [|split].
          - apply List.Forall_app. split; [assumption|].
            constructor; [|constructor]. congruence.
          - rewrite map_app. simpl. apply NoDup_app.
            split; [assumption|]. split; [|apply NoDup_singleton].
            intros k Hk Hin. apply list_elem_of_In in Hin, Hk.
            destruct Hin as [<-|[]]. now apply E, Hseen.
          - intros k.
            rewrite map_app, in_app_iff, elem_of_union, elem_of_singleton.
            rewrite Hseen. simpl. intuition congruence. }
        destruct (IH _ _ _ _ _ Hok' H) as [sn' H'].
        exists sn'. now rewrite <- Hst.
      * destruct (IH _ _ _ _ _ Hok H) as [sn' H'].
        exists sn'. now rewrite <- Hst.
Qed.

Lemma build_roots_quiet g m v : quiet (build_roots P g m v).
Proof.
  unfold build_roots.
  apply bind_quiet; [apply user_dirs_quiet | intros ud].
  apply bind_quiet.
  { destruct v; [auto with io | apply likely_vortex_mod_roots_quiet]. }
  intros vx. apply bind_quiet.
  { destruct m; [auto with io|].
    apply bind_quiet; [apply likely_mo2_roots_near_game_quiet|].
    auto with io. }
  intros mo. apply dedupe_existing_quiet.
Qed.
End RootFacts.

(** C7. Every member of the list [build_roots] returns exists, and no two
    members have the same lower-cased string: candidates that do not exist
    are dropped and duplicates, differing in case or not, are kept once. *)
Theorem build_roots_existing_unique P game_dir mo2_dir vortex_dir w out w' :
  build_roots P game_dir mo2_dir vortex_dir w = (inr out, w') ->
  List.Forall (fun r => Fs.exists_ (flav P) (store w) r = true) out
  /\ NoDup (map (fun r => Str.lower (path_str (flav P) r)) out).
Proof.
  intros H. unfold build_roots in H.
  apply MonadFacts.bind_inr in H as (ud & w1 & H1 & H).
  apply user_dirs_keeps in H1 as [Hs1 _].
  apply MonadFacts.bind_inr in H as (vx & w2 & H2 & H).
  assert (store w2 = store w1) as Hs2.
  { destruct vortex_dir.
    - now inversion H2.
    - now apply likely_vortex_mod_roots_keeps in H2 as [? _]. }
  apply MonadFacts.bind_inr in H as (mo & w3 & H3 & H).
  assert (store w3 = store w2) as Hs3.
  { destruct mo2_dir.
    - now inversion H3.
    - apply MonadFacts.bind_inr in H3 as (near & w4 & H4 & H3).
      apply likely_mo2_roots_near_game_keeps in H4 as [? _].
      inversion H3; subst. assumption. }
  apply dedupe_existing_ok in H.
  - destruct H as (sn' & Hall & Hnd & _).
    assert (store w3 = store w) as <- by congruence. now split.
  - split; [constructor|]. split; [constructor|].
    intros k. simpl. split; [|tauto].
    intros Hk. now apply not_elem_of_empty in Hk.
Qed.

(** The game directory given three times in different spellings on a
    Windows drive, and a folder that does not exist. *)
Lemma build_roots_existing_unique_witness :
  let out := [Sample.cx ["Game"]; Sample.cx ["Game"; "Data"]] in
  build_roots Sample.win_pf (Some (Sample.cx ["Game"]))
    (Some (Sample.cx ["GAME"])) (Some (Sample.cx ["game"; "DATA"]))
    Sample.win_w0 = (inr out, Sample.win_w0)
  /\ List.Forall (fun r => Fs.exists_ Windows Sample.win_disk r = true) out
  /\ NoDup (map (fun r => Str.lower (path_str Windows r)) out).
Proof.
  cbv zeta. split; [reflexivity|].
  apply (build_roots_existing_unique Sample.win_pf (Some (Sample.cx ["Game"]))
           (Some (Sample.cx ["GAME"])) (Some (Sample.cx ["game"; "DATA"]))
           Sample.win_w0 _ Sample.win_w0).
  reflexivity.
Defined.

(** ** Text and lines *)

Example splitlines_mixed :
  Text.splitlines
    ("a" +:+ String Text.LF ("b" +:+ String Text.CR (String Text.LF
       ("c" +:+ String Text.CR ("d" +:+ String "011" ("e" +:+ String "031" "f"))))))
  = ["a" +:+ String Text.LF ""; "b" +:+ String Text.CR (String Text.LF "");
     "c" +:+ String Text.CR ""; "d" +:+ String "011" "";
     "e" +:+ String "031" "f"].
Proof. reflexivity. Qed.

Example universal_newlines_mixed :
  Text.universal_newlines
    ("a" +:+ String Text.CR (String Text.LF ("nvmp" +:+ String Text.CR
       ("b" +:+ String Text.LF "c"))))
  = "a" +:+ String Text.LF ("nvmp" +:+ String Text.LF
      ("b" +:+ String Text.LF "c")).
Proof. reflexivity. Qed.

Example rstrip_newline_twice :
  Text.rstrip_newline ("ab" +:+ String Text.LF (String Text.LF "")) = "ab".
Proof. reflexivity. Qed.

Module TextFacts.

Lemma append_cons c s t : String c s +:+ t = String c (s +:+ t).
Proof. reflexivity. Qed.

Lemma append_nil_l t : "" +:+ t = t.
Proof. reflexivity. Qed.

Lemma append_nil_r s : s +:+ "" = s.
Proof.
  induction s as [|c s IH]; [reflexivity|]. now rewrite append_cons, IH.
Qed.

Lemma cr_free_app s t : cr_free (s +:+ t) = cr_free s && cr_free t.
Proof.
  induction s as [|c s IH]; [reflexivity|].
  rewrite append_cons. simpl. now rewrite IH, andb_assoc.
Qed.

Lemma linebreak_CR : Text.is_linebreak Text.CR = true.
Proof. reflexivity. Qed.

Lemma universal_newlines_cr_free_aux n : forall s,
  (String.length s <= n)%nat -> cr_free (Text.universal_newlines s) = true.
Proof.
  induction n as [|n IH]; intros [|c s] Hlen; try reflexivity;
    [simpl in Hlen; lia|].
  assert (String.length s <= n)%nat as Hs by (simpl in Hlen; lia).
  cbn [Text.universal_newlines].
  destruct (Ascii.eqb c Text.CR) eqn:Ec.
  - destruct s as [|d s]; [reflexivity|].
    destruct (Ascii.eqb d Text.LF).
    + change (cr_free (Text.universal_newlines s) = true).
      apply IH. simpl in Hs. lia.
    + change (cr_free (Text.universal_newlines (String d s)) = true).
      now apply IH.
  - cbn [cr_free]. rewrite Ec. now apply IH.
Qed.

(** A text read in text mode holds no carriage return. *)
Lemma universal_newlines_cr_free s :
  cr_free (Text.universal_newlines s) = true.
Proof. exact (universal_newlines_cr_free_aux _ s (le_n _)). Qed.

Lemma universal_newlines_id s :
  cr_free s = true -> Text.universal_newlines s = s.
Proof.
  induction s as [|c s IH]; simpl; [reflexivity|].
  intros [Hc Hs]%andb_true_iff. apply negb_true_iff in Hc.
  now rewrite Hc, IH.
Qed.

(** Writing and reading back returns the text that was written. *)
Lemma read_back fl s :
  cr_free s = true ->
  Text.universal_newlines (Text.translate_newlines fl s) = s.
Proof.
  induction s as [|c s IH]; simpl; [reflexivity|].
  intros [Hc Hs]%andb_true_iff. apply negb_true_iff in Hc.
  destruct fl.
  - simpl. now rewrite Hc, IH.
  - destruct (Ascii.eqb c Text.LF) eqn:El.
    + apply Ascii.eqb_eq in El. subst c. simpl. now rewrite IH.
    + simpl. now rewrite Hc, IH.
Qed.

Lemma line_shape_cr_free l : line_shape l <> None -> cr_free l = true.
Proof.
  induction l as [|c l IH]; simpl; [congruence|].
  destruct l as [|d l].
  - destruct (Ascii.eqb c Text.CR); simpl; congruence.
  - destruct (Text.is_linebreak c) eqn:Eb; [congruence|].
    intros H. rewrite (IH H), andb_true_r.
    destruct (Ascii.eqb c Text.CR) eqn:Ec; [|reflexivity].
    apply Ascii.eqb_eq in Ec. subst c. discriminate Eb.
Qed.

Lemma lines_ok_cr_free ls : lines_ok ls -> cr_free (Str.concat_all ls) = true.
Proof.
  induction ls as [|l ls IH]; simpl; [reflexivity|].
  rewrite cr_free_app. destruct ls as [|l' ls].
  - intros H. simpl. now rewrite line_shape_cr_free.
  - intros [Hl Hrest]. rewrite line_shape_cr_free by congruence.
    now apply IH.
Qed.

Lemma splitlines_terminated l : forall s,
  line_shape l = Some true ->
  Text.splitlines (l +:+ s) = l :: Text.splitlines s.
Proof.
  induction l as [|c l IH]; intros s; [simpl; congruence|].
  rewrite append_cons. simpl. destruct l as [|d l].
  - destruct (Ascii.eqb c Text.CR) eqn:Ec; [congruence|].
    intros [= ->]. rewrite append_nil_l. destruct s; reflexivity.
  - destruct (Text.is_linebreak c) eqn:Eb; [congruence|].
    intros H. now rewrite (IH s H).
Qed.

Lemma splitlines_unterminated l :
  line_shape l = Some false -> Text.splitlines l = [l].
Proof.
  induction l as [|c l IH]; simpl; [congruence|].
  destruct l as [|d l].
  - destruct (Ascii.eqb c Text.CR); [congruence|].
    intros [= ->]. reflexivity.
  - destruct (Text.is_linebreak c) eqn:Eb; [congruence|].
    intros H. now rewrite (IH H).
Qed.

(** Joining well-shaped lines and splitting again returns the lines. *)
Lemma splitlines_concat ls :
  lines_ok ls -> Text.splitlines (Str.concat_all ls) = ls.
Proof.
  induction ls as [|l ls IH]; [reflexivity|].
  change (Str.concat_all (l :: ls)) with (l +:+ Str.concat_all ls).
  destruct ls as [|l' ls].
  - intros H. simpl in H. change (Str.concat_all []) with "".
    rewrite append_nil_r.
    destruct (line_shape l) as [[|]|] eqn:E; [| |congruence].
    + rewrite <- (append_nil_r l) at 1. now rewrite splitlines_terminated.
    + now apply splitlines_unterminated.
  - intros [Hl Hrest]. rewrite splitlines_terminated by assumption.
    now rewrite IH.
Qed.

Lemma lines_ok_tail l ls : lines_ok (l :: ls) -> lines_ok ls.
Proof. destruct ls; simpl; tauto. Qed.

Lemma lines_ok_head l ls : lines_ok (l :: ls) -> line_shape l <> None.
Proof. destruct ls; simpl; [tauto|]. intros [-> _]. congruence. Qed.

Lemma lines_ok_cons l ls :
  line_shape l = Some true -> lines_ok ls -> lines_ok (l :: ls).
Proof.
  intros Hl Hls. destruct ls; cbn [lines_ok]; [congruence | now split].
Qed.

Lemma line_shape_extend c x :
  Text.is_linebreak c = false -> line_shape x <> None ->
  line_shape (String c x) = line_shape x.
Proof.
  intros Eb Hx. destruct x as [|d x]; [now simpl in Hx|].
  cbn [line_shape]. now rewrite Eb.
Qed.

Lemma lines_ok_extend c x xs :
  Text.is_linebreak c = false ->
  lines_ok (x :: xs) -> lines_ok (String c x :: xs).
Proof.
  intros Eb H. pose proof (lines_ok_head _ _ H) as Hx.
  pose proof (line_shape_extend c x Eb Hx) as Hsh.
  destruct xs; cbn [lines_ok] in *; now rewrite Hsh.
Qed.

Lemma splitlines_ok s : cr_free s = true -> lines_ok (Text.splitlines s).
Proof.
  induction s as [|c s IH]; [intros; exact I|].
  cbn [cr_free]. intros [Hc Hcs]%andb_true_iff. apply negb_true_iff in Hc.
  specialize (IH Hcs). cbn [Text.splitlines].
  destruct (Text.is_linebreak c) eqn:Eb.
  - assert (line_shape (String c "") = Some true) as Hsh
      by (simpl; now rewrite Hc, Eb).
    destruct s as [|d s]; [cbn [lines_ok]; rewrite Hsh; discriminate|].
    rewrite Hc. cbn [andb]. now apply lines_ok_cons.
  - destruct (Text.splitlines s) as [|x xs] eqn:E.
    + cbn [lines_ok line_shape]. rewrite Hc. discriminate.
    + now apply lines_ok_extend.
Qed.

Lemma lines_ok_filter (f : string -> bool) ls :
  lines_ok ls -> lines_ok (List.filter f ls).
Proof.
  induction ls as [|l ls IH]; [easy|].
  intros H. pose proof (IH (lines_ok_tail _ _ H)) as Hrest.
  simpl. destruct (f l); [|exact Hrest].
  destruct (List.filter f ls) as [|x xs] eqn:E.
  - simpl. exact (lines_ok_head _ _ H).
  - split; [|exact Hrest].
    destruct ls as [|l' ls]; [discriminate E|]. exact (proj1 H).
Qed.

(** The kept lines of a text that was read in text mode survive a write
    and a read unchanged. *)
Lemma kept_lines_round_trip fl (f : string -> bool) d :
  let kept := List.filter f (Text.splitlines (Text.universal_newlines d)) in
  Text.splitlines
    (Text.universal_newlines (Text.translate_newlines fl (Str.concat_all kept)))
  = kept.
Proof.
  cbv zeta.
  assert (lines_ok (List.filter f (Text.splitlines (Text.universal_newlines d))))
    as Hok by apply lines_ok_filter, splitlines_ok, universal_newlines_cr_free.
  rewrite read_back by now apply lines_ok_cr_free.
  now apply splitlines_concat.
Qed.

End TextFacts.

(** ** The file system *)

Module FsFacts.
Section Store.
Context (fl : flavour).

Local Abbreviation same := (Fs.same_name fl).
Local Abbreviation find := (Fs.find_entry fl).
Local Abbreviation set := (Fs.set_entry fl).
Local Abbreviation del := (Fs.del_entry fl).
Local Abbreviation lookup := (Fs.lookup fl).

Lemma same_iff a b : same a b = true <-> normcase fl a = normcase fl b.
Proof. unfold Fs.same_name. apply String.eqb_eq. Qed.

Lemma same_refl a : same a a = true.
Proof. now apply same_iff. Qed.

Lemma same_trans_l a b c : same a b = true -> same a c = same b c.
Proof.
  intros H%same_iff. unfold Fs.same_name. now rewrite H.
Qed.

Lemma same_trans_r a b c : same a b = true -> same c a = same c b.
Proof.
  intros H%same_iff. unfold Fs.same_name. now rewrite H.
Qed.

Lemma find_same k k' es : same k k' = true -> find k' es = find k es.
Proof.
  intros H. induction es as [|[m x] es IH]; simpl; [reflexivity|].
  now rewrite <- (same_trans_r k k' m H), IH.
Qed.

Lemma find_set_same k c es : find k (set k c es) = Some c.
Proof.
  induction es as [|[m x] es IH]; simpl.
  - now rewrite same_refl.
  - destruct (same m k) eqn:E; simpl; now rewrite E.
Qed.

Lemma find_set_other k k' c es :
  same k k' = false -> find k' (set k c es) = find k' es.
Proof.
  intros H. induction es as [|[m x] es IH]; simpl.
  - now rewrite H.
  - destruct (same m k) eqn:E; simpl; [|now rewrite IH].
    now rewrite (same_trans_l m k k' E), H.
Qed.

Lemma find_del_same k es : find k (del k es) = None.
Proof.
  induction es as [|[m x] es IH]; simpl; [reflexivity|].
  destruct (same m k) eqn:E; simpl; [assumption | now rewrite E].
Qed.

Lemma find_del_other k k' es :
  same k k' = false -> find k' (del k es) = find k' es.
Proof.
  intros H. induction es as [|[m x] es IH]; simpl; [reflexivity|].
  destruct (same m k) eqn:E; simpl; [|now rewrite IH].
  now rewrite (same_trans_l m k k' E), H.
Qed.

Lemma lookup_None ks : lookup ks None = None.
Proof. destruct ks; reflexivity. Qed.

Lemma lookup_leaf_nil ks n :
  leaf n -> ks <> [] -> lookup ks (Some n) = None.
Proof. destruct ks, n; simpl; tauto || congruence. Qed.

(** *** Rewriting an entry *)

(** After a rewrite the entry holds what the rewriting function made of
    the old one. *)
Lemma modify_lookup f ks : forall o o',
  Fs.modify fl ks f o = inr o' -> f (lookup ks o) = inr (lookup ks o').
Proof.
  induction ks as [|k ks IH]; intros o o' H; simpl in *; [assumption|].
  destruct o as [[d|es|t]|]; try discriminate.
  destruct (Fs.modify fl ks f (find k es)) as [e|[c|]] eqn:E;
    inversion H; subst; simpl; rewrite (IH _ _ E).
  - now rewrite find_set_same.
  - now rewrite find_del_same, lookup_None.
Qed.

(** A rewrite that refuses directories leaves every other non-directory
    entry as it was. *)
Lemma modify_frame f ks : forall o o' q n,
  (forall es, exists e, f (Some (Dir es)) = inl e) ->
  Fs.modify fl ks f o = inr o' ->
  lookup q o = Some n -> leaf n ->
  map (normcase fl) q <> map (normcase fl) ks ->
  lookup q o' = Some n.
Proof.
  induction ks as [|k ks IH]; intros o o' q n Hf H Hq Hn Hne; simpl in H.
  - destruct q as [|k' q]; [congruence|]. simpl in Hq.
    destruct o as [[d|es|t]|]; try discriminate.
    destruct (Hf es) as [e He]. congruence.
  - destruct o as [[d|es|t]|]; try discriminate.
    destruct q as [|k' q].
    { simpl in Hq. inversion Hq; subst. contradiction. }
    simpl in Hq.
    destruct (Fs.modify fl ks f (find k es)) as [e|r] eqn:E; [discriminate|].
    destruct (same k k') eqn:Ek.
    + rewrite (find_same k k' es Ek) in Hq.
      assert (map (normcase fl) q <> map (normcase fl) ks) as Hne'.
      { intros Heq. apply Hne. simpl. apply same_iff in Ek. congruence. }
      pose proof (IH _ _ _ _ Hf E Hq Hn Hne') as Hr.
      destruct r as [c|]; inversion H; subst; simpl.
      * now rewrite (find_same k k' _ Ek), find_set_same.
      * now rewrite lookup_None in Hr.
    + destruct r as [c|]; inversion H; subst; simpl.
      * now rewrite find_set_other.
      * now rewrite find_del_other.
Qed.

(** *** Writing a file *)

(** Induction along a chain of links. *)
Lemma node_follow_ind (Q : node -> Prop) :
  (forall d, Q (File d)) -> (forall es, Q (Dir es)) ->
  (forall t, Q t -> Q (Symlink (Some t))) -> Q (Symlink None) ->
  forall n, Q n.
Proof.
  intros HF HD HS HN. fix IH 1.
  intros [d|es|[t|]]; [apply HF | apply HD | apply HS, IH | apply HN].
Qed.

Lemma write_node_follow d n : forall n',
  Fs.write_node d n = inr n' -> Fs.follow n' = Some (File d) /\ leaf n'.
Proof.
  induction n as [d0|es|t IH|] using node_follow_ind; intros n' H; simpl in H.
  - inversion H; subst. now split.
  - discriminate.
  - destruct (Fs.write_node d t) as [e|t'] eqn:E; [discriminate|].
    inversion H; subst. simpl. split; [|exact I]. exact (proj1 (IH _ eq_refl)).
  - inversion H; subst. now split.
Qed.

Lemma write_entry_some d o r :
  Fs.write_entry d o = inr r ->
  exists n, r = Some n /\ Fs.follow n = Some (File d) /\ leaf n.
Proof.
  destruct o as [n|]; simpl.
  - destruct (Fs.write_node d n) as [e|n'] eqn:E; [discriminate|].
    intros [= <-]. exists n'. split; [reflexivity|].
    exact (write_node_follow _ _ _ E).
  - intros [= <-]. exists (File d). now repeat split.
Qed.

Lemma write_entry_dir d es : exists e, Fs.write_entry d (Some (Dir es)) = inl e.
Proof. now eexists. Qed.

Lemma store_modify_write st p d st' :
  Fs.write_file fl st p d = inr st' ->
  Fs.modify fl (parts p) (Fs.write_entry d) (Some st) = inr (Some st').
Proof.
  unfold Fs.write_file, Fs.store_modify.
  destruct (Fs.modify fl (parts p) (Fs.write_entry d) (Some st))
    as [e|[st1|]] eqn:E; try discriminate.
  - now intros [= ->].
  - apply modify_lookup in E. apply write_entry_some in E as (n & Hn & _).
    now rewrite lookup_None in Hn.
Qed.

(** A successful write leaves the data at the path. *)
Lemma write_file_data st p d st' :
  Fs.write_file fl st p d = inr st' -> Fs.file_data fl st' p = Some d.
Proof.
  intros H%store_modify_write%modify_lookup.
  apply write_entry_some in H as (n & Hn & Hfollow & _).
  unfold Fs.file_data, Fs.stat, Fs.lstat. now rewrite Hn, Hfollow.
Qed.

Lemma write_file_leaf st p d st' :
  Fs.write_file fl st p d = inr st' ->
  exists n, Fs.lstat fl st' p = Some n /\ leaf n.
Proof.
  intros H%store_modify_write%modify_lookup.
  apply write_entry_some in H as (n & Hn & _ & Hleaf).
  exists n. unfold Fs.lstat. now rewrite Hn.
Qed.

(** ... and touches no other file. *)
Lemma write_file_frame st p d st' q n :
  Fs.write_file fl st p d = inr st' ->
  Fs.lstat fl st q = Some n -> leaf n ->
  path_key fl q <> path_key fl p ->
  Fs.lstat fl st' q = Some n.
Proof.
  intros H%store_modify_write Hq Hn Hne.
  exact (modify_frame _ _ _ _ _ _ (write_entry_dir d) H Hq Hn Hne).
Qed.

(** *** Creating directories *)

(** [mkdir -p] leaves every existing non-directory entry as it was. *)
Lemma mkdir_p_frame ks : forall o n' q n,
  Fs.mkdir_p fl ks o = inr n' ->
  lookup q o = Some n -> leaf n ->
  lookup q (Some n') = Some n.
Proof.
  induction ks as [|k ks IH]; intros o n' q n H Hq Hn; simpl in H.
  - destruct o as [m|]; [|now rewrite lookup_None in Hq].
    destruct (Fs.follow m) as [[d|es|t]|]; try discriminate.
    now inversion H; subst.
  - destruct o as [[d|es|t]|]; try discriminate;
      [|now rewrite lookup_None in Hq].
    destruct (Fs.mkdir_p fl ks (find k es)) as [e|c] eqn:E; [discriminate|].
    inversion H; subst. destruct q as [|k' q].
    { simpl in Hq. inversion Hq; subst. contradiction. }
    simpl in Hq |- *. destruct (same k k') eqn:Ek.
    + rewrite (find_same k k' _ Ek), find_set_same.
      rewrite (find_same k k' _ Ek) in Hq. exact (IH _ _ _ _ E Hq Hn).
    + now rewrite find_set_other.
Qed.

(** ... and creates nothing below the directory it was asked for. *)
Lemma mkdir_p_below ks x : forall o n',
  Fs.mkdir_p fl ks o = inr n' ->
  lookup (ks ++ [x]) (Some n') = lookup (ks ++ [x]) o.
Proof.
  induction ks as [|k ks IH]; intros o n' H; simpl in H.
  - destruct o as [m|]; [|now inversion H].
    destruct (Fs.follow m) as [[d|es|t]|]; try discriminate.
    now inversion H; subst.
  - destruct o as [[d|es|t]|]; try discriminate.
    + destruct (Fs.mkdir_p fl ks (find k es)) as [e|c] eqn:E; [discriminate|].
      inversion H; subst. simpl. rewrite find_set_same. exact (IH _ _ E).
    + destruct (Fs.mkdir_p fl ks None) as [e|c] eqn:E; [discriminate|].
      inversion H; subst. simpl. rewrite same_refl.
      rewrite (IH _ _ E). now rewrite !lookup_None.
Qed.

Lemma parts_child p n : parts (child p n) = parts p ++ [n].
Proof.
  unfold parts, child, anchor. simpl.
  now destruct (String.eqb (drive p +:+ root p) "").
Qed.

Lemma file_data_lstat st p d :
  Fs.file_data fl st p = Some d ->
  exists n, Fs.lstat fl st p = Some n /\ leaf n
            /\ Fs.follow n = Some (File d).
Proof.
  unfold Fs.file_data, Fs.stat.
  destruct (Fs.lstat fl st p) as [n|]; [|discriminate].
  destruct (Fs.follow n) as [[d'|es|t]|] eqn:E; try discriminate.
  intros [= ->]. exists n. split; [reflexivity|]. split; [|assumption].
  destruct n; [exact I | discriminate E | exact I].
Qed.

Lemma lstat_file_data st st' p :
  Fs.lstat fl st' p = Fs.lstat fl st p ->
  Fs.file_data fl st' p = Fs.file_data fl st p.
Proof. unfold Fs.file_data, Fs.stat. now intros ->. Qed.

Lemma lstat_isdir st st' p :
  Fs.lstat fl st' p = Fs.lstat fl st p -> Fs.isdir fl st' p = Fs.isdir fl st p.
Proof. unfold Fs.isdir, Fs.stat. now intros ->. Qed.

Lemma makedirs_file_data st bd st' p d :
  Fs.makedirs fl st bd = inr st' ->
  Fs.file_data fl st p = Some d -> Fs.file_data fl st' p = Some d.
Proof.
  intros H Hd. pose proof Hd as (n & Hn & Hleaf & _)%file_data_lstat.
  rewrite <- Hd. apply lstat_file_data. rewrite Hn.
  exact (mkdir_p_frame _ _ _ _ _ H Hn Hleaf).
Qed.

Lemma makedirs_child st bd st' x :
  Fs.makedirs fl st bd = inr st' ->
  Fs.lstat fl st' (child bd x) = Fs.lstat fl st (child bd x).
Proof.
  intros H. unfold Fs.lstat. rewrite parts_child.
  exact (mkdir_p_below _ _ _ _ H).
Qed.

(** *** Copying *)

Lemma copy2_inv st src dst st' :
  Fs.copy2 fl st src dst = inr st' -> Fs.isdir fl st dst = false ->
  exists d, Fs.file_data fl st src = Some d
            /\ Fs.write_file fl st dst d = inr st'
            /\ path_key fl src <> path_key fl dst.
Proof.
  unfold Fs.copy2. intros H Hdir. rewrite Hdir in H.
  unfold Fs.exists_, Fs.file_data in *.
  destruct (Fs.stat fl st src) as [[d|es|t]|]; simpl in H; try discriminate;
    destruct (path_eqb fl src dst) eqn:E; try discriminate.
  exists d. repeat split; [assumption|].
  unfold path_eqb in E. now apply bool_decide_eq_false in E.
Qed.

(** Backing a file up and then rewriting it: the copy holds the old data,
    the original the new. *)
Lemma backup_then_write st bd src st1 st2 st3 d d' :
  let bp := child bd (name src +:+ ".bak") in
  Fs.isdir fl st bp = false ->
  Fs.file_data fl st src = Some d ->
  Fs.makedirs fl st bd = inr st1 ->
  Fs.copy2 fl st1 src bp = inr st2 ->
  Fs.write_file fl st2 src d' = inr st3 ->
  Fs.file_data fl st3 bp = Some d /\ Fs.file_data fl st3 src = Some d'.
Proof.
  intros bp Hdir Hd Hmk Hcp Hwr.
  split; [|exact (write_file_data _ _ _ _ Hwr)].
  assert (Fs.isdir fl st1 bp = false) as Hdir1.
  { rewrite <- Hdir. apply lstat_isdir. exact (makedirs_child _ _ _ _ Hmk). }
  destruct (copy2_inv _ _ _ _ Hcp Hdir1) as (d1 & Hd1 & Hw & Hne).
  rewrite (makedirs_file_data _ _ _ _ _ Hmk Hd) in Hd1. inversion Hd1; subst d1.
  pose proof (write_file_data _ _ _ _ Hw) as Hbak.
  destruct (write_file_leaf _ _ _ _ Hw) as (n & Hn & Hleaf).
  rewrite <- Hbak. apply lstat_file_data. rewrite Hn.
  apply (write_file_frame _ _ _ _ _ _ Hwr Hn Hleaf). congruence.
Qed.

End Store.
End FsFacts.

(** ** Cleaning a text file *)

Section StripFacts.
Context (P : platform).
Import MonadFacts.

Lemma update_inr f w u w' :
  update f w = (inr u, w') ->
  f (store w) = inr (store w') /\ environ w' = environ w.
Proof.
  unfold update. intros H.
  destruct (prim_cases (fun st => match f st with
                                  | inl e => inl e
                                  | inr st' => inr (tt, st')
                                  end) w) as [(e & fs & _ & E)|[_ E]].
  - rewrite E in H. discriminate.
  - destruct (f (store w)) as [e|st']; rewrite E in H; inversion H; subst.
    now split.
Qed.

Lemma read_text_inv p w r w' :
  read_text P p w = (r, w') ->
  store w' = store w /\ environ w' = environ w
  /\ forall text, r = inr text ->
       exists d, Fs.file_data (flav P) (store w) p = Some d
                 /\ text = Text.universal_newlines d.
Proof.
  unfold read_text, Fs.file_data. intros H.
  match type of H with prim ?f w = _ =>
    destruct (prim_cases f w) as [(e & fs & _ & E)|[_ E]] end.
  - rewrite E in H. inversion H; subst. simpl. repeat split. intros t [=].
  - destruct (Fs.stat (flav P) (store w) p) as [[d|es|t]|];
      rewrite E in H; inversion H; subst; simpl; repeat split;
      intros text [=]; subst. eauto.
Qed.

Lemma partition_lines_spec raw :
  partition_lines raw
  = (List.filter keep_line raw,
     map Text.rstrip_newline (List.filter pat_match raw)).
Proof.
  induction raw as [|l raw IH]; [reflexivity|].
  simpl. rewrite IH. unfold keep_line. now destruct (pat_match l).
Qed.

Lemma count_matching_zero lines :
  count_matching lines = 0%nat -> List.filter pat_match lines = [].
Proof. unfold count_matching. now destruct (List.filter pat_match lines). Qed.

Lemma keep_all lines :
  count_matching lines = 0%nat -> List.filter keep_line lines = lines.
Proof.
  unfold count_matching, keep_line.
  induction lines as [|l lines IH]; [reflexivity|]. simpl.
  destruct (pat_match l); simpl; [discriminate|]. intros H. now rewrite IH.
Qed.

Lemma kept_length lines :
  List.length (List.filter keep_line lines)
  = (List.length lines - count_matching lines)%nat.
Proof.
  unfold count_matching, keep_line.
  induction lines as [|l lines IH]; [reflexivity|]. simpl.
  pose proof (List.filter_length_le pat_match lines).
  destruct (pat_match l); simpl; lia.
Qed.

Lemma file_lines_data st p d :
  Fs.file_data (flav P) st p = Some d ->
  file_lines (flav P) st p = Text.splitlines (Text.universal_newlines d).
Proof. unfold file_lines. now intros ->. Qed.

Lemma file_lines_missing st p :
  Fs.exists_ (flav P) st p = false -> file_lines (flav P) st p = [].
Proof.
  unfold file_lines, Fs.file_data, Fs.exists_.
  now destruct (Fs.stat (flav P) st p).
Qed.

Lemma file_lines_not_file st p :
  Fs.isfile (flav P) st p = false -> file_lines (flav P) st p = [].
Proof.
  unfold file_lines, Fs.file_data, Fs.isfile.
  now destruct (Fs.stat (flav P) st p) as [[d|es|t]|].
Qed.

Lemma backup_choice path bd del :
  (if negb del && given bd then backup_original P path bd
   else if del && given bd then backup_original P path bd
   else ret tt)
  = backup_original P path bd.
Proof. now destruct del, bd. Qed.

Lemma backup_original_inv path bd w u w1 :
  backup_original P path bd w = (inr u, w1) ->
  backed_up P path bd (store w) (store w1) /\ environ w1 = environ w.
Proof.
  destruct bd as [b|]; simpl.
  - intros H. apply bind_inr in H as (u0 & w0 & H0 & H).
    apply update_inr in H0 as [H0 He0]. apply update_inr in H as [H He].
    split; [|congruence]. exists (store w0). now split.
  - now intros [= <- <-].
Qed.

(** The body of the text cleaner when it raises nothing: either nothing
    matched and nothing happened, or the original was backed up as asked
    and then rewritten with the kept lines. *)
Lemma strip_body_inv path bd del w msgs w' :
  strip_body P path bd del w = (inr msgs, w') ->
  let lines := file_lines (flav P) (store w) path in
  (msgs = [] /\ store w' = store w /\ count_matching lines = 0%nat)
  \/ (exists d st1,
        Fs.file_data (flav P) (store w) path = Some d
        /\ (1 <= count_matching lines)%nat
        /\ msgs = [msg_edited P path (count_matching lines)]
        /\ backed_up P path bd (store w) st1
        /\ Fs.write_file (flav P) st1 path
             (Text.translate_newlines (flav P)
                (Str.concat_all (List.filter keep_line lines)))
           = inr (store w')).
Proof.
  intros H lines. unfold strip_body in H.
  apply bind_inr in H as (ex & w1 & H1 & H).
  apply query_inv in H1 as (Hs1 & _ & Hex). specialize (Hex _ eq_refl).
  destruct ex; simpl in H.
  2: { inversion H; subst. left. repeat split; [assumption|].
       unfold lines. now rewrite file_lines_missing. }
  apply bind_inr in H as (isf & w2 & H2 & H).
  apply query_inv in H2 as (Hs2 & _ & Hisf). specialize (Hisf _ eq_refl).
  rewrite Hs1 in Hisf.
  destruct isf; simpl in H.
  2: { inversion H; subst. left. repeat split; [congruence|].
       unfold lines. now rewrite file_lines_not_file. }
  apply bind_inr in H as (text & w3 & H3 & H).
  apply read_text_inv in H3 as (Hs3 & _ & Htext).
  destruct (Htext _ eq_refl) as (d & Hd & ->).
  rewrite Hs2, Hs1 in Hd.
  assert (store w3 = store w) as Hs by congruence.
  rewrite partition_lines_spec, <- (file_lines_data _ _ _ Hd) in H.
  fold lines in H.
  destruct (List.filter pat_match lines) as [|m ms] eqn:Em; simpl in H.
  - inversion H; subst. left. repeat split; [assumption|].
    unfold count_matching. now rewrite Em.
  - rewrite backup_choice in H.
    apply bind_inr in H as (u & w4 & H4 & H).
    apply backup_original_inv in H4 as [Hbak _]. rewrite Hs in Hbak.
    apply bind_inr in H as (u' & w5 & H5 & H).
    apply update_inr in H5 as [Hwr _].
    inversion H; subst. right. exists d, (store w4).
    unfold count_matching. rewrite Em, length_map in *. simpl.
    repeat split; try assumption. lia.
Qed.

(** When nothing matches, the body touches nothing, whatever happens. *)
Lemma strip_body_no_match path bd del w r w' :
  count_matching (file_lines (flav P) (store w) path) = 0%nat ->
  strip_body P path bd del w = (r, w') ->
  store w' = store w /\ forall msgs, r = inr msgs -> msgs = [].
Proof.
  intros Hc H. unfold strip_body in H.
  apply bind_inv in H as [(e & H & ->)|(ex & w1 & H1 & H)].
  { apply query_inv in H as (? & _). now split. }
  apply query_inv in H1 as (Hs1 & _ & Hex). specialize (Hex _ eq_refl).
  destruct ex; simpl in H.
  2: { inversion H; subst. split; [assumption|]. now intros ? [= <-]. }
  apply bind_inv in H as [(e & H & ->)|(isf & w2 & H2 & H)].
  { apply query_inv in H as (? & _). split; [congruence | easy]. }
  apply query_inv in H2 as (Hs2 & _ & _).
  destruct isf; simpl in H.
  2: { inversion H; subst. split; [congruence|]. now intros ? [= <-]. }
  apply bind_inv in H as [(e & H & ->)|(text & w3 & H3 & H)].
  { apply read_text_inv in H as (? & _). split; [congruence | easy]. }
  apply read_text_inv in H3 as (Hs3 & _ & Htext).
  destruct (Htext _ eq_refl) as (d & Hd & ->).
  rewrite Hs2, Hs1 in Hd.
  rewrite partition_lines_spec, <- (file_lines_data _ _ _ Hd) in H.
  rewrite (count_matching_zero _ Hc) in H. simpl in H.
  inversion H; subst. split; [congruence|]. now intros ? [= <-].
Qed.

Lemma starts_with_app pre t : starts_with pre (pre +:+ t) = true.
Proof.
  induction pre as [|c pre IH]; [reflexivity|].
  rewrite TextFacts.append_cons. simpl. now rewrite Ascii.eqb_refl, IH.
Qed.

Lemma strip_handler_inv path e w r w' :
  strip_handler P path e w = (r, w') ->
  w' = w /\ exists m, r = inr [m] /\ starts_with "ERROR editing " m = true.
Proof.
  destruct e; cbn [strip_handler]; intros [= <- <-]; (split; [reflexivity|]);
    eexists; (split; [reflexivity|]);
    unfold msg_edit_denied, msg_edit_failed; apply starts_with_app.
Qed.

End StripFacts.

Section StripOutcomes.
Context (P : platform).
Import MonadFacts.

Lemma strip_inv path bd del w msgs w' :
  strip_nvmp_lines_from_text_file P path bd del w = (inr msgs, w') ->
  strip_body P path bd del w = (inr msgs, w')
  \/ (exists e, strip_body P path bd del w = (inl e, w'))
     /\ edit_failed msgs = true.
Proof.
  unfold strip_nvmp_lines_from_text_file, try_except.
  destruct (strip_body P path bd del w) as [[e|ms] w1] eqn:E; intros H.
  - right. apply strip_handler_inv in H as (-> & m & [= ->] & Hm).
    split; [eauto|]. unfold edit_failed. cbn [existsb]. now rewrite Hm.
  - left. now inversion H.
Qed.

Lemma no_match_count lines :
  (forall l, In l lines -> pat_match l = false) ->
  count_matching lines = 0%nat.
Proof.
  unfold count_matching. intros H.
  induction lines as [|l lines IH]; [reflexivity|]. simpl.
  rewrite (H l) by now left. apply IH. intros l' Hl'. apply H. now right.
Qed.

(** With no fault injected and nothing to remove, the body returns the
    empty report in the world it started from. *)
Lemma strip_body_quiet_no_match path bd del w :
  faults w = [] ->
  count_matching (file_lines (flav P) (store w) path) = 0%nat ->
  strip_body P path bd del w = (inr [], w).
Proof.
  destruct w as [st env fs]. simpl. intros -> Hc.
  unfold strip_body, bind, path_exists, is_file, read_text, query, prim. simpl.
  destruct (Fs.exists_ (flav P) st path); [|reflexivity]. simpl.
  destruct (Fs.isfile (flav P) st path) eqn:Ef; [|reflexivity]. simpl.
  unfold Fs.isfile in Ef. unfold file_lines, Fs.file_data in Hc.
  destruct (Fs.stat (flav P) st path) as [[d|es|t]|]; try discriminate.
  simpl. rewrite partition_lines_spec, (count_matching_zero _ Hc).
  reflexivity.
Qed.

Lemma write_file_fresh st p d st' q :
  Fs.write_file (flav P) st p d = inr st' ->
  Fs.lstat (flav P) st q = None ->
  path_key (flav P) q <> path_key (flav P) p ->
  Fs.lstat (flav P) st' q = None.
Proof.
  intros H%FsFacts.store_modify_write. unfold Fs.lstat, path_key.
  generalize (Some st) (Some st') (parts q) H. clear H.
  induction (parts p) as [|k ks IH]; intros o o' qs H Hq Hne; simpl in H.
  - destruct qs as [|k' qs]; [congruence|].
    apply FsFacts.write_entry_some in H as (n & -> & _ & Hleaf).
    now apply FsFacts.lookup_leaf_nil.
  - destruct o as [[d0|es|t]|]; try discriminate.
    destruct qs as [|k' qs]; [discriminate Hq|]. simpl in Hq.
    destruct (Fs.modify (flav P) ks (Fs.write_entry d) (Fs.find_entry (flav P) k es))
      as [e|r] eqn:E; [discriminate|].
    destruct (Fs.same_name (flav P) k k') eqn:Ek.
    + rewrite (FsFacts.find_same _ k k' es Ek) in Hq.
      assert (map (normcase (flav P)) qs <> map (normcase (flav P)) ks) as Hne'.
      { intros Heq. apply Hne. simpl. apply FsFacts.same_iff in Ek. congruence. }
      pose proof (IH _ _ _ E Hq Hne') as Hr.
      destruct r as [c|]; inversion H; subst; simpl.
      * now rewrite (FsFacts.find_same _ k k' _ Ek), FsFacts.find_set_same.
      * now rewrite (FsFacts.find_same _ k k' _ Ek), FsFacts.find_del_same,
          FsFacts.lookup_None.
    + destruct r as [c|]; inversion H; subst; simpl.
      * now rewrite FsFacts.find_set_other.
      * now rewrite FsFacts.find_del_other.
Qed.

Lemma remove_path_body_fst p bd del w r w' :
  remove_path_body P p bd del w = (inr r, w') -> r.1 = p.
Proof.
  unfold remove_path_body. intros H.
  apply bind_inr in H as (ex & w1 & _ & H).
  destruct ex; simpl in H; [|now inversion H].
  destruct del.
  - apply bind_inr in H as (isd & w2 & _ & H).
    apply bind_inr in H as (u & w3 & _ & H). now inversion H.
  - destruct bd as [b|]; [|now inversion H].
    apply bind_inr in H as (u & w2 & _ & H).
    apply bind_inr in H as (u' & w3 & _ & H). now inversion H.
Qed.

Lemma remove_path_handler_inv p e w :
  exists o, remove_path_handler p e w = (inr (p, o), w)
            /\ starts_with "ERROR (" o = true
            /\ (forall m, e = PermissionError m ->
                o = "ERROR (permission denied; run as Administrator)").
Proof.
  destruct e as [m|n m]; cbn [remove_path_handler]; eexists;
    (split; [reflexivity|]).
  - now split.
  - split; [apply starts_with_app | discriminate].
Qed.

End StripOutcomes.

(** C9. When no line of the file matches, cleaning it changes nothing in
    the store: no rewrite, no backup copy.  The report is empty unless an
    I/O failure was reported, and with no failure injected the call
    returns the empty report in the very same world. *)
Theorem strip_no_match_is_noop P path backup_dir permanent_delete w msgs w' :
  (forall l, In l (file_lines (flav P) (store w) path) -> pat_match l = false) ->
  strip_nvmp_lines_from_text_file P path backup_dir permanent_delete w
  = (inr msgs, w') ->
  store w' = store w
  /\ (edit_failed msgs = false -> msgs = [])
  /\ (faults w = [] -> msgs = [] /\ w' = w).
Proof.
  intros Hno%no_match_count H. split; [|split].
  - apply strip_inv in H as [H|[[e H] _]];
      exact (proj1 (strip_body_no_match P _ _ _ _ _ _ Hno H)).
  - intros Hok. apply strip_inv in H as [H|[_ Hf]]; [|congruence].
    exact (proj2 (strip_body_no_match P _ _ _ _ _ _ Hno H) _ eq_refl).
  - intros Hf. unfold strip_nvmp_lines_from_text_file, try_except in H.
    rewrite (strip_body_quiet_no_match P path backup_dir permanent_delete w Hf Hno)
      in H.
    now inversion H.
Qed.

Lemma strip_no_match_is_noop_witness :
  let ini := px ["game"; "Data"; "SomeOtherMod.esp"] in
  (forall l, In l (file_lines Posix Sample.disk ini) -> pat_match l = false)
  /\ strip_nvmp_lines_from_text_file Sample.pf ini (Some Sample.backups) false
       Sample.w0 = (inr [], Sample.w0).
Proof.
  cbv zeta.
  assert (forall l,
            In l (file_lines Posix Sample.disk
                    (px ["game"; "Data"; "SomeOtherMod.esp"])) ->
            pat_match l = false) as Hno.
  { intros l [<-|[]]. reflexivity. }
  split; [exact Hno|].
  destruct (strip_nvmp_lines_from_text_file Sample.pf
              (px ["game"; "Data"; "SomeOtherMod.esp"]) (Some Sample.backups)
              false Sample.w0) as [[e|msgs] w'] eqn:E; [discriminate E|].
  destruct (strip_no_match_is_noop Sample.pf _ _ _ Sample.w0 msgs w' Hno E)
    as (_ & _ & Hq).
  destruct (Hq eq_refl) as [-> ->]. reflexivity.
Defined.

(** A directory already sits at the backup path: [shutil.copy2] copies
    into it, the edit is reported, and at the backup path itself there is
    no copy of the file. *)
Lemma strip_backup_path_occupied :
  let run := strip_nvmp_lines_from_text_file Sample.pf Sample.plugins_txt
               (Some Sample.backups) false Sample.occupied in
  let bak := backup_path Sample.backups Sample.plugins_txt in
  run.1 = inr ["EDITED: /game/Data/plugins.txt (removed 1 NVMP line(s))"]
  /\ Fs.file_data Posix Sample.occupied_disk Sample.plugins_txt
     = Some Sample.plugins
  /\ Fs.file_data Posix (store run.2) bak = None
  /\ Fs.isdir Posix (store run.2) bak = true
  /\ Fs.file_data Posix (store run.2) (child bak "plugins.txt")
     = Some Sample.plugins.
Proof. cbv zeta. repeat split; reflexivity. Qed.

(** C4 (amended). Whenever cleaning reports no failure, the file afterwards
    holds exactly the lines the matcher did not accept, in their original
    order, so N - M lines of N; and when a backup directory is given (backup
    mode), at least one line matched and the backup path is not an existing
    directory, the file at [backup_dir/<name>.bak] holds the data the
    original held before. *)
Theorem strip_round_trip P path backup_dir permanent_delete w msgs w' :
  strip_nvmp_lines_from_text_file P path backup_dir permanent_delete w
  = (inr msgs, w') ->
  edit_failed msgs = false ->
  let before := file_lines (flav P) (store w) path in
  let after := file_lines (flav P) (store w') path in
  after = List.filter keep_line before
  /\ List.length after = (List.length before - count_matching before)%nat
  /\ (forall b, backup_dir = Some b ->
        (1 <= count_matching before)%nat ->
        Fs.isdir (flav P) (store w) (backup_path b path) = false ->
        Fs.file_data (flav P) (store w') (backup_path b path)
        = Fs.file_data (flav P) (store w) path).
Proof.
  intros H Hok before after.
  apply strip_inv in H as [H|[_ Hf]]; [|congruence].
  apply strip_body_inv in H. fold before in H.
  assert (after = List.filter keep_line before) as Hafter.
  { destruct H as [(_ & Hst & Hc)|(d & st1 & Hd & _ & _ & _ & Hwr)].
    - unfold after. rewrite Hst. fold before. now rewrite keep_all.
    - unfold after.
      rewrite (file_lines_data P _ _ _ (FsFacts.write_file_data _ _ _ _ _ Hwr)).
      unfold before. rewrite (file_lines_data P _ _ _ Hd).
      apply TextFacts.kept_lines_round_trip. }
  split; [exact Hafter|]. split; [rewrite Hafter; apply kept_length|].
  intros b -> Hm Hdir.
  destruct H as [(_ & _ & Hc)|(d & st1 & Hd & _ & _ & Hbak & Hwr)]; [lia|].
  destruct Hbak as (st0 & Hmk & Hcp). rewrite Hd.
  exact (proj1 (FsFacts.backup_then_write _ _ _ _ _ _ _ _ _
                  Hdir Hd Hmk Hcp Hwr)).
Qed.

(** A load list with CR LF line ends on a Windows drive: three lines, one
    of them NVMP's. *)
Lemma strip_round_trip_witness :
  let run := strip_nvmp_lines_from_text_file Sample.win_pf
               Sample.win_plugins_txt (Some Sample.win_backups) false
               Sample.win_w0 in
  run.1 = inr ["EDITED: C:\Game\Data\plugins.txt (removed 1 NVMP line(s))"]
  /\ file_lines Windows (store run.2) Sample.win_plugins_txt
     = ["FalloutNV.esm" +:+ Sample.nl; "SomeOtherMod.esp" +:+ Sample.nl]
  /\ Fs.file_data Windows (store run.2)
       (backup_path Sample.win_backups Sample.win_plugins_txt)
     = Some Sample.win_plugins.
Proof.
  cbv zeta.
  set (run := strip_nvmp_lines_from_text_file Sample.win_pf
                Sample.win_plugins_txt (Some Sample.win_backups) false
                Sample.win_w0).
  assert (run = (inr ["EDITED: C:\Game\Data\plugins.txt (removed 1 NVMP line(s))"],
                 run.2)) as Hrun by reflexivity.
  destruct (strip_round_trip Sample.win_pf _ _ _ _ _ _ Hrun eq_refl)
    as (Hafter & _ & Hbak).
  split; [reflexivity|]. split.
  - exact (eq_trans Hafter eq_refl).
  - refine (eq_trans (Hbak Sample.win_backups eq_refl _ eq_refl) eq_refl).
    vm_compute. lia.
Defined.

(** C8. Neither the remover nor the text cleaner lets an exception out:
    both always return a result.  A failure raised inside either body comes
    back as an error outcome for that item; a path that does not exist
    yields the skip outcome of the remover, and no message from the
    cleaner, with the store untouched. *)
Theorem per_item_failures_are_reported P p backup_dir permanent_delete w :
  (exists outcome w',
     remove_path P p backup_dir permanent_delete w = (inr (p, outcome), w'))
  /\ (exists msgs w',
        strip_nvmp_lines_from_text_file P p backup_dir permanent_delete w
        = (inr msgs, w'))
  /\ (forall e w1,
        remove_path_body P p backup_dir permanent_delete w = (inl e, w1) ->
        exists outcome,
          remove_path P p backup_dir permanent_delete w
          = (inr (p, outcome), w1)
          /\ starts_with "ERROR (" outcome = true
          /\ (forall m, e = PermissionError m ->
              outcome = "ERROR (permission denied; run as Administrator)"))
  /\ (forall e w1,
        strip_body P p backup_dir permanent_delete w = (inl e, w1) ->
        exists m,
          strip_nvmp_lines_from_text_file P p backup_dir permanent_delete w
          = (inr [m], w1)
          /\ starts_with "ERROR editing " m = true)
  /\ (Fs.exists_ (flav P) (store w) p = false -> next_call_ok w ->
      exists w',
        remove_path P p backup_dir permanent_delete w
        = (inr (p, "SKIP (missing)"), w')
        /\ store w' = store w)
  /\ (Fs.exists_ (flav P) (store w) p = false -> next_call_ok w ->
      exists w',
        strip_nvmp_lines_from_text_file P p backup_dir permanent_delete w
        = (inr [], w')
        /\ store w' = store w).
Proof.
  assert (forall e w1,
            remove_path_body P p backup_dir permanent_delete w = (inl e, w1) ->
            exists outcome,
              remove_path P p backup_dir permanent_delete w
              = (inr (p, outcome), w1)
              /\ starts_with "ERROR (" outcome = true
              /\ (forall m, e = PermissionError m ->
                  outcome = "ERROR (permission denied; run as Administrator)"))
    as Hrm.
  { intros e w1 E. unfold remove_path, try_except. rewrite E.
    apply remove_path_handler_inv. }
  assert (forall e w1,
            strip_body P p backup_dir permanent_delete w = (inl e, w1) ->
            exists m,
              strip_nvmp_lines_from_text_file P p backup_dir permanent_delete w
              = (inr [m], w1)
              /\ starts_with "ERROR editing " m = true) as Hst.
  { intros e w1 E. unfold strip_nvmp_lines_from_text_file, try_except.
    rewrite E.
    destruct (strip_handler P p e w1) as [r w2] eqn:Eh.
    apply strip_handler_inv in Eh as (-> & m & -> & Hm). eauto. }
  split; [|split; [|split; [exact Hrm|split; [exact Hst|split]]]].
  - destruct (remove_path_body P p backup_dir permanent_delete w)
      as [[e|[q o]] w1] eqn:E.
    + destruct (Hrm e w1 eq_refl) as (o & Ho & _). eauto.
    + apply remove_path_body_fst in E as Hq. simpl in Hq. subst q.
      exists o, w1. unfold remove_path, try_except. now rewrite E.
  - destruct (strip_body P p backup_dir permanent_delete w)
      as [[e|msgs] w1] eqn:E.
    + destruct (Hst e w1 eq_refl) as (m & Hm & _). eauto.
    + exists msgs, w1.
      unfold strip_nvmp_lines_from_text_file, try_except. now rewrite E.
  - intros Hex Hok. eexists.
    unfold remove_path, try_except, remove_path_body, bind, path_exists.
    rewrite (MonadFacts.query_ok _ w Hok), Hex. simpl. split; reflexivity.
  - intros Hex Hok. eexists.
    unfold strip_nvmp_lines_from_text_file, try_except, strip_body, bind,
      path_exists.
    rewrite (MonadFacts.query_ok _ w Hok), Hex. simpl. split; reflexivity.
Qed.

(** A launcher that is there while the removal is denied, and one that is
    gone. *)
Lemma per_item_failures_are_reported_witness :
  let denied := mkWorld Sample.disk ∅ [None; None; Some (PermissionError "")] in
  let gone := px ["game"; "Data"; "nvmp.log"] in
  (remove_path Sample.pf Sample.launcher None true denied).1
  = inr (Sample.launcher, "ERROR (permission denied; run as Administrator)")
  /\ Fs.exists_ Posix Sample.disk gone = false
  /\ remove_path Sample.pf gone (Some Sample.backups) false Sample.w0
     = (inr (gone, "SKIP (missing)"), Sample.w0).
Proof.
  cbv zeta. split; [reflexivity|]. split; [reflexivity|].
  destruct (per_item_failures_are_reported Sample.pf
              (px ["game"; "Data"; "nvmp.log"]) (Some Sample.backups) false
              Sample.w0) as (_ & _ & _ & _ & Hskip & _).
  destruct (Hskip eq_refl I) as (w' & Hrun & _).
  rewrite Hrun. f_equal.
  assert ((remove_path Sample.pf (px ["game"; "Data"; "nvmp.log"])
             (Some Sample.backups) false Sample.w0).2 = Sample.w0) as Hw
    by reflexivity.
  now rewrite Hrun in Hw.
Defined.

(** ** Delete mode and the backup of edited text files *)

Lemma choose_backup_dir_delete P args w :
  arg_delete args = true -> choose_backup_dir P args w = (inr None, w).
Proof. unfold choose_backup_dir. now intros ->. Qed.

(** C1 (the code departs from the claim).  In delete mode [main] passes no
    backup directory, and without one a successful edit creates no entry
    anywhere: whatever path had nothing before has nothing afterwards, so
    no [.bak] copy is written. *)
Theorem delete_mode_edit_writes_no_backup P args path w msgs w' :
  arg_delete args = true ->
  strip_nvmp_lines_from_text_file P path None (arg_delete args) w
  = (inr msgs, w') ->
  edit_failed msgs = false ->
  choose_backup_dir P args w = (inr None, w)
  /\ forall q, path_key (flav P) q <> path_key (flav P) path ->
               Fs.lstat (flav P) (store w) q = None ->
               Fs.lstat (flav P) (store w') q = None.
Proof.
  intros Hdel H Hok. split; [now apply choose_backup_dir_delete|].
  intros q Hne Hq.
  apply strip_inv in H as [H|[_ Hf]]; [|congruence].
  apply strip_body_inv in H
    as [(_ & -> & _)|(d & st1 & _ & _ & _ & Hbak & Hwr)]; [assumption|].
  simpl in Hbak. subst st1.
  exact (write_file_fresh P _ _ _ _ _ Hwr Hq Hne).
Qed.

(** The sample installation run in delete mode: the load list is
    rewritten, both executables are deleted, and the store holds no
    backup of the load list. *)
Lemma delete_mode_edit_writes_no_backup_witness :
  let run := main_from Sample.pf Sample.game Sample.delete_mode Sample.w0 in
  let edit := strip_nvmp_lines_from_text_file Sample.pf Sample.plugins_txt
                None (arg_delete Sample.delete_mode) Sample.w0 in
  run.1 = inr ([(Sample.starter, "DELETED"); (Sample.launcher, "DELETED")],
               ["EDITED: /game/Data/plugins.txt (removed 1 NVMP line(s))"])
  /\ store run.2
     = Dir [("/", Dir [("game",
                        Dir [("FalloutNV.exe", File "MZ");
                             ("Data",
                              Dir [("plugins.txt",
                                    File ("FalloutNV.esm" +:+ Sample.nl
                                          +:+ "SomeOtherMod.esp" +:+ Sample.nl));
                                   ("SomeOtherMod.esp", File "TES4")])]);
                       ("backups", Dir [])])]
  /\ Fs.lstat Posix (store edit.2)
       (backup_path Sample.backups Sample.plugins_txt) = None.
Proof.
  cbv zeta. split; [reflexivity|]. split; [reflexivity|].
  set (edit := strip_nvmp_lines_from_text_file Sample.pf Sample.plugins_txt
                 None (arg_delete Sample.delete_mode) Sample.w0).
  assert (edit = (inr ["EDITED: /game/Data/plugins.txt (removed 1 NVMP line(s))"],
                  edit.2)) as Hrun by reflexivity.
  destruct (delete_mode_edit_writes_no_backup Sample.pf Sample.delete_mode
              Sample.plugins_txt Sample.w0 _ _ eq_refl Hrun eq_refl)
    as [_ Hfresh].
  apply Hfresh; [|reflexivity].
  vm_compute. discriminate.
Defined.

(** ** The scenario of the spec, end to end

    Backup mode on the Windows sample: the launcher is moved below the
    backup folder with the drive colon stripped, the load list is rewritten
    to two lines, its pristine copy sits in the backup folder, and the
    unrelated plugin is untouched. *)
Example end_to_end_backup_mode :
  main_from Sample.win_pf (Sample.cx ["Game"]) Sample.win_backup_mode
    Sample.win_w0
  = (inr ([(Sample.cx ["Game"; "Data"; "NVMP_Launcher.exe"],
            "MOVED -> C:\Backups\NVMP_Removed_20240101_120000\C\Game\Data\NVMP_Launcher.exe")],
          ["EDITED: C:\Game\Data\plugins.txt (removed 1 NVMP line(s))"]),
     mkWorld
       (Dir [("C:\",
              Dir [("Game",
                    Dir [("FalloutNV.exe", File "MZ");
                         ("Data",
                          Dir [("plugins.txt",
                                File ("FalloutNV.esm" +:+ Sample.crlf
                                      +:+ "SomeOtherMod.esp" +:+ Sample.crlf));
                               ("SomeOtherMod.esp", File "TES4")])]);
                   ("Backups",
                    Dir [("NVMP_Removed_20240101_120000",
                          Dir [("plugins.txt.bak", File Sample.win_plugins);
                               ("C",
                                Dir [("Game",
                                      Dir [("Data",
                                            Dir [("NVMP_Launcher.exe",
                                                  File "MZ")])])])])])])])
       ∅ []).
Proof. reflexivity. Qed.
(** * Further properties *)

(** ** The matcher: what is enough, and what is needed, for a match *)

Module MatchFacts.
Import StrFacts ReFacts TextFacts.

Lemma search_from_here ic r prev s :
  Re.match_here ic r prev s = true -> Re.search_from ic r prev s = true.
Proof. intros H. destruct s; simpl; now rewrite H. Qed.

(** A match attempt that succeeds behind a prefix is found by the search. *)
Lemma search_from_app ic r : forall a prev s,
  Re.match_here ic r (prev_after prev a) s = true ->
  Re.search_from ic r prev (a +:+ s) = true.
Proof.
  induction a as [|c a IH]; intros prev s H.
  - apply search_from_here. exact H.
  - rewrite append_cons. cbn [Re.search_from].
    rewrite (IH (Some c) s H). apply orb_true_r.
Qed.

Lemma pat_match_of_pattern p s :
  In p NVMP_NAME_PATTERNS -> Re.re_search p s = true -> pat_match s = true.
Proof.
  intros Hin Hs. unfold pat_match. destruct (bool_decide _); [reflexivity|].
  apply existsb_exists. eauto.
Qed.




Lemma all_space_lower s : all_space (Str.lower s) = all_space s.
Proof.
  induction s as [|c s IH]; [reflexivity|]. simpl.
  now rewrite is_space_lower, IH.
Qed.

(** [\s*] can pass any run of space characters. *)
Lemma star_skip ic r t : forall ws prev,
  all_space ws = true ->
  (forall prev', Re.match_here ic r prev' t = true) ->
  Re.match_here ic (Re.SpaceStar :: r) prev (ws +:+ t) = true.
Proof.
  induction ws as [|c ws IH]; intros prev Hws Hr.
  - rewrite append_nil_l. destruct t.
    + rewrite match_here_star_nil, Hr. reflexivity.
    + rewrite match_here_star_cons, Hr. reflexivity.
  - simpl in Hws. apply andb_true_iff in Hws as [Hc Hws].
    rewrite append_cons, match_here_star_cons, Hc, (IH _ Hws Hr).
    apply orb_true_r.
Qed.

Lemma match_lit_same c r prev s :
  Re.match_here true (Re.Lit c :: r) prev (String c s)
  = Re.match_here true r (Some c) s.
Proof.
  rewrite match_here_lit. unfold Re.char_eqb. now rewrite Ascii.eqb_refl.
Qed.

End MatchFacts.

(** X1. Any text that contains the abbreviation followed by an underscore,
    in whatever case, matches. *)
Theorem pat_match_contains_nvmp_underscore a x b :
  Str.lower x = "nvmp_" -> pat_match (a +:+ x +:+ b) = true.
Proof.
  intros Hx. rewrite <- pat_match_lower, !StrFacts.lower_app, Hx.
  apply (MatchFacts.pat_match_of_pattern (Re.Compile (Re.lits "nvmp_") true));
    [simpl; tauto|].
  apply MatchFacts.search_from_app. reflexivity.
Qed.

Lemma pat_match_contains_nvmp_underscore_witness :
  Str.lower "NvMp_" = "nvmp_"
  /\ pat_match ("Data/" +:+ "NvMp_" +:+ "storyserver.dll") = true.
Proof.
  split; [reflexivity|].
  apply pat_match_contains_nvmp_underscore. reflexivity.
Defined.



(** X3. The full name matches in any case and with any amount of white
    space (none included) between its words; "mp" or "multiplayer" may
    close it. *)
Theorem pat_match_full_name a x ws1 y ws2 z b :
  Str.lower x = "new" -> Str.lower y = "vegas" ->
  Str.lower z = "mp" \/ Str.lower z = "multiplayer" ->
  all_space ws1 = true -> all_space ws2 = true ->
  pat_match (a +:+ x +:+ ws1 +:+ y +:+ ws2 +:+ z +:+ b) = true.
Proof.
  intros Hx Hy Hz H1 H2.
  rewrite <- pat_match_lower, !StrFacts.lower_app, Hx, Hy.
  rewrite <- MatchFacts.all_space_lower in H1, H2.
  set (t := Str.lower b). set (s1 := Str.lower ws1) in *.
  set (s2 := Str.lower ws2) in *.
  destruct Hz as [-> | ->].
  - apply (MatchFacts.pat_match_of_pattern
             (Re.Compile (Re.lits "new" ++ [Re.SpaceStar] ++ Re.lits "vegas"
                          ++ [Re.SpaceStar] ++ Re.lits "mp") true));
      [simpl; tauto|].
    apply MatchFacts.search_from_app.
    change ("new" +:+ s1 +:+ "vegas" +:+ s2 +:+ "mp" +:+ t)
      with (String "n" (String "e" (String "w"
              (s1 +:+ "vegas" +:+ s2 +:+ "mp" +:+ t)))).
    cbn [Re.atoms Re.ignorecase Re.lits list_ascii_of_string map app].
    rewrite !MatchFacts.match_lit_same.
    apply MatchFacts.star_skip; [exact H1|]. intros p1.
    change ("vegas" +:+ s2 +:+ "mp" +:+ t)
      with (String "v" (String "e" (String "g" (String "a" (String "s"
              (s2 +:+ "mp" +:+ t)))))).
    rewrite !MatchFacts.match_lit_same.
    apply MatchFacts.star_skip; [exact H2|]. intros p2. reflexivity.
  - apply (MatchFacts.pat_match_of_pattern
             (Re.Compile (Re.lits "new" ++ [Re.SpaceStar] ++ Re.lits "vegas"
                          ++ [Re.SpaceStar] ++ Re.lits "multiplayer") true));
      [simpl; tauto|].
    apply MatchFacts.search_from_app.
    change ("new" +:+ s1 +:+ "vegas" +:+ s2 +:+ "multiplayer" +:+ t)
      with (String "n" (String "e" (String "w"
              (s1 +:+ "vegas" +:+ s2 +:+ "multiplayer" +:+ t)))).
    cbn [Re.atoms Re.ignorecase Re.lits list_ascii_of_string map app].
    rewrite !MatchFacts.match_lit_same.
    apply MatchFacts.star_skip; [exact H1|]. intros p1.
    change ("vegas" +:+ s2 +:+ "multiplayer" +:+ t)
      with (String "v" (String "e" (String "g" (String "a" (String "s"
              (s2 +:+ "multiplayer" +:+ t)))))).
    rewrite !MatchFacts.match_lit_same.
    apply MatchFacts.star_skip; [exact H2|]. intros p2. reflexivity.
Qed.

Lemma pat_match_full_name_witness :
  pat_match ("The " +:+ "New" +:+ "  " +:+ "VEGAS" +:+ "" +:+ "Multiplayer"
             +:+ " mod") = true.
Proof.
  apply pat_match_full_name; try reflexivity. now right.
Defined.

Module NeedFacts.
Import StrFacts ReFacts TextFacts.

Lemma match_lits_prefix (l : list ascii) r : forall prev t,
  Re.match_here true (map Re.Lit l ++ r) prev t = true ->
  starts_with (string_of_list_ascii (map Str.char_lower l)) (Str.lower t) = true.
Proof.
  induction l as [|c l IH]; intros prev t H; [reflexivity|].
  destruct t as [|x t]; [discriminate H|].
  change (map Re.Lit (c :: l) ++ r) with (Re.Lit c :: (map Re.Lit l ++ r)) in H.
  rewrite match_here_lit in H. apply andb_true_iff in H as [Hc Ht].
  unfold Re.char_eqb in Hc. apply Ascii.eqb_eq in Hc.
  cbn [map string_of_list_ascii Str.lower starts_with].
  rewrite Hc, Ascii.eqb_refl. exact (IH _ _ Ht).
Qed.

Lemma contains_here w s : starts_with w s = true -> contains w s = true.
Proof. intros H. destruct s; simpl; now rewrite H. Qed.

(** Where every match begins with [w], a successful search shows that the
    lower-cased text contains [w]. *)
Lemma search_contains w r :
  (forall prev t, Re.match_here true r prev t = true ->
                  starts_with w (Str.lower t) = true) ->
  forall s prev, Re.search_from true r prev s = true ->
                 contains w (Str.lower s) = true.
Proof.
  intros Hr. induction s as [|c s IH]; intros prev H; cbn [Re.search_from] in H.
  - rewrite orb_false_r in H. apply contains_here. exact (Hr _ _ H).
  - apply orb_true_iff in H as [H|H].
    + apply contains_here. exact (Hr _ _ H).
    + cbn [Str.lower contains]. rewrite (IH _ H). apply orb_true_r.
Qed.

Lemma known_contains_nvmp s :
  s ∈ NVMP_KNOWN_FILENAMES -> contains "nvmp" s = true.
Proof.
  unfold NVMP_KNOWN_FILENAMES. intros H.
  repeat (apply elem_of_union in H as [H|H]);
    apply elem_of_singleton in H; subst s; reflexivity.
Qed.

End NeedFacts.

(** X4. Nothing matches without the letters: a text the matcher accepts
    contains, case ignored, "nvmp" or "new". *)
Theorem pat_match_needs_marker s :
  pat_match s = true ->
  contains "nvmp" (Str.lower s) = true \/ contains "new" (Str.lower s) = true.
Proof.
  unfold pat_match. destruct (bool_decide _) eqn:Ek.
  - intros _. left. apply NeedFacts.known_contains_nvmp.
    now apply bool_decide_eq_true in Ek.
  - clear Ek. unfold NVMP_NAME_PATTERNS. cbn [existsb].
    rewrite !orb_true_iff.
    intros [H|[H|[H|[H|[H|H]]]]]; [left|left|right|right|right|discriminate H];
      unfold Re.re_search in H; cbn [Re.atoms Re.ignorecase] in H;
      revert H; apply NeedFacts.search_contains; intros prev t Ht.
    + cbn [app Re.match_here] in Ht. apply andb_true_iff in Ht as [_ Ht].
      exact (NeedFacts.match_lits_prefix
               (list_ascii_of_string "nvmp") [Re.WordBoundary] _ _ Ht).
    + rewrite <- (app_nil_r (Re.lits "nvmp_")) in Ht.
      apply (NeedFacts.match_lits_prefix (list_ascii_of_string "nvmp") [Re.Lit "_"]%char _ _)
        in Ht. exact Ht.
    + exact (NeedFacts.match_lits_prefix (list_ascii_of_string "new") _ _ _ Ht).
    + rewrite <- (app_nil_r (Re.lits "newvegasmp")) in Ht.
      apply (NeedFacts.match_lits_prefix (list_ascii_of_string "new")
               (Re.lits "vegasmp") _ _) in Ht. exact Ht.
    + exact (NeedFacts.match_lits_prefix (list_ascii_of_string "new") _ _ _ Ht).
Qed.

Lemma pat_match_needs_marker_witness :
  pat_match "My NVMP notes.txt" = true
  /\ contains "nvmp" (Str.lower "My NVMP notes.txt") = true
  /\ pat_match "SomeOtherMod.esp" = false.
Proof.
  split; [reflexivity|]. split; [|reflexivity].
  destruct (pat_match_needs_marker "My NVMP notes.txt" eq_refl) as [H|H];
    [exact H | discriminate H].
Defined.

(** ** The covering collapse: nothing is lost, nothing dropped needlessly *)

Module CoverFacts.

(** The ancestor of [p] that keeps [k] of its components. *)
Lemma in_parents p q :
  In q (parents p)
  <-> exists k, (k < List.length (tail p))%nat
                /\ q = mkPath (drive p) (root p) (take k (tail p)).
Proof.
  unfold parents. rewrite in_map_iff. split.
  - intros (k & <- & Hk). apply in_rev, in_seq in Hk. exists k. split; [lia|reflexivity].
  - intros (k & Hk & ->). exists k. split; [reflexivity|].
    apply in_rev. rewrite rev_involutive. apply in_seq. lia.
Qed.

Lemma parts_anchored p : anchor p <> "" -> parts p = anchor p :: tail p.
Proof.
  intros H. unfold parts. destruct (String.eqb_spec (anchor p) ""); congruence.
Qed.

Lemma key_of_ancestor fl p k :
  anchor p <> "" ->
  path_key fl (mkPath (drive p) (root p) (take k (tail p)))
  = take (S k) (path_key fl p).
Proof.
  intros H. unfold path_key. rewrite (parts_anchored p H).
  rewrite parts_anchored by exact H.
  simpl. now rewrite fmap_take.
Qed.

Lemma key_length fl p :
  anchor p <> "" -> List.length (path_key fl p) = S (List.length (tail p)).
Proof.
  intros H. unfold path_key. rewrite (parts_anchored p H). simpl.
  now rewrite length_map.
Qed.

End CoverFacts.

(** X5. Every anchored input path is still accounted for after the
    collapse: it is in the output itself, or one of its ancestors is. *)
Theorem collapse_covers_every_input fl (paths : list Path) :
  (forall p, In p paths -> anchor p <> "") ->
  forall p, In p paths ->
    In p (collapse_covered_paths fl paths)
    \/ exists a, In a (collapse_covered_paths fl paths) /\ is_ancestor fl a p.
Proof.
  intros Hanch.
  assert (forall n p, (List.length (tail p) < n)%nat -> In p paths ->
            In p (collapse_covered_paths fl paths)
            \/ exists a, In a (collapse_covered_paths fl paths)
                         /\ is_ancestor fl a p) as Hind.
  { induction n as [|n IH]; intros p Hlen Hp; [lia|].
    destruct (covered fl (list_to_set (map (path_key fl) paths)) p) eqn:Ec.
    - right. apply covered_iff in Ec as (a & Ha & q & Hq & Hkey).
      apply CoverFacts.in_parents in Hq as (k & Hk & ->).
      pose proof (Hanch p Hp) as Hap. pose proof (Hanch a Ha) as Haa.
      rewrite (CoverFacts.key_of_ancestor fl p k Hap) in Hkey.
      assert (List.length (tail a) = k) as Hla.
      { pose proof (f_equal (@List.length _) Hkey) as Hl.
        rewrite length_take, !CoverFacts.key_length in Hl by assumption. lia. }
      destruct (IH a ltac:(lia) Ha) as [Hout|(a' & Hout & r & Hr & Hkr)].
      + exists a. split; [assumption|].
        exists (mkPath (drive p) (root p) (take k (tail p))). split.
        * apply CoverFacts.in_parents. eauto.
        * now rewrite (CoverFacts.key_of_ancestor fl p k Hap).
      + exists a'. split; [assumption|].
        apply CoverFacts.in_parents in Hr as (i & Hi & ->).
        rewrite (CoverFacts.key_of_ancestor fl a i Haa) in Hkr.
        exists (mkPath (drive p) (root p) (take i (tail p))). split.
        * apply CoverFacts.in_parents. exists i. split; [lia|reflexivity].
        * rewrite (CoverFacts.key_of_ancestor fl p i Hap), <- Hkr, <- Hkey.
          rewrite take_take. f_equal. lia.
    - left. apply collapse_In. split; [assumption|].
      intros Hc%covered_iff. congruence. }
  intros p Hp. exact (Hind _ p (Nat.lt_succ_diag_r _) Hp).
Qed.

Lemma collapse_covers_every_input_witness :
  let paths := [px ["a"; "nvmp"; "bin"; "nvmp.log"]; px ["a"; "nvmp"; "bin"];
                px ["a"; "nvmp"]] in
  collapse_covered_paths Posix paths = [px ["a"; "nvmp"]]
  /\ (In (px ["a"; "nvmp"; "bin"; "nvmp.log"]) (collapse_covered_paths Posix paths)
      \/ exists a, In a (collapse_covered_paths Posix paths)
                   /\ is_ancestor Posix a (px ["a"; "nvmp"; "bin"; "nvmp.log"])).
Proof.
  cbv zeta. split; [reflexivity|].
  apply collapse_covers_every_input.
  - intros p [<-|[<-|[<-|[]]]]; discriminate.
  - simpl. tauto.
Defined.

(** X6. A list in which no path has an ancestor is only reordered: the
    collapse drops nothing from it. *)
Theorem collapse_keeps_unrelated_paths fl (paths : list Path) :
  (forall a p, In a paths -> In p paths -> ~ is_ancestor fl a p) ->
  Permutation (collapse_covered_paths fl paths) paths.
Proof.
  intros Hfree. unfold collapse_covered_paths.
  rewrite filter_all_true; [apply py_sorted_perm|].
  intros p Hp%py_sorted_In.
  rewrite negb_true_iff, <- not_true_iff_false, covered_iff.
  intros (a & Ha & Hanc). exact (Hfree a p Ha Hp Hanc).
Qed.

Lemma collapse_keeps_unrelated_paths_witness :
  Permutation
    (collapse_covered_paths Posix [px ["b"; "nvmp_x"]; px ["a"; "nvmp"]])
    [px ["b"; "nvmp_x"]; px ["a"; "nvmp"]].
Proof.
  apply collapse_keeps_unrelated_paths.
  intros a p [<-|[<-|[]]] [<-|[<-|[]]] (q & Hq & Hk); simpl in Hq;
    repeat (destruct Hq as [<-|Hq]; [discriminate Hk|]); exact Hq.
Defined.

(** X7. The collapsed list is ordered shallower paths first, paths of equal
    depth by their lower-cased string: every entry's key is at most the key
    of every later entry. *)
Theorem collapse_output_order fl (paths : list Path) :
  StronglySorted (fun x y => depth_key_leb (depth_key fl x) (depth_key fl y) = true)
                 (collapse_covered_paths fl paths).
Proof.
  apply Sorted_StronglySorted.
  - intros x y z. apply KeyOrder.depth_key_leb_trans.
  - apply collapse_sorted.
Qed.

(** ** The scanner: what it returns and in which order *)

Section ScanMore.
Context (P : platform) (cap : Z).
Import MonadFacts.

Lemma resolve_inr x w p w' :
  resolve P x w = (inr p, w') -> p = realpath P x /\ store w' = store w.
Proof.
  intros H. apply query_inv in H as (Hs & _ & Hp). split; [|exact Hs].
  exact (Hp p eq_refl).
Qed.

Lemma add_matches p s :
  matches (add P p s) = matches s \/ matches (add P p s) = matches s ++ [p].
Proof. unfold add. destruct (bool_decide _); simpl; tauto. Qed.

(** *** Only hits are recorded *)

Section Sound.
Context (G : Path -> Prop).

Lemma add_good p s : G p -> all_good G s -> all_good G (add P p s).
Proof.
  intros Hp Hs. unfold all_good.
  destruct (add_matches p s) as [-> | ->]; [exact Hs|].
  apply List.Forall_app. split; [exact Hs | now repeat constructor].
Qed.

Lemma scan_names_sound dp names : forall s w r w',
  (forall n, In n names -> pat_match n = true -> G (realpath P (child dp n))) ->
  all_good G s ->
  scan_names P cap dp names s w = (inr r, w') ->
  flow_holds (all_good G) (List.Forall G) r.
Proof.
  induction names as [|n names IH]; intros s w r w' Hn Hs H; simpl in H.
  - inversion H; subst. exact Hs.
  - assert (forall m, In m names -> pat_match m = true ->
                      G (realpath P (child dp m))) as Hn'
      by (intros m Hm; apply Hn; now right).
    destruct (pat_match n) eqn:En; [|exact (IH _ _ _ _ Hn' Hs H)].
    apply bind_inr in H as (p & w1 & Hp & H).
    apply resolve_inr in Hp as [-> _].
    assert (all_good G (add P (realpath P (child dp n)) s)) as Hs'
      by (apply add_good; [apply Hn; [now left|exact En] | exact Hs]).
    destruct (cap <=? _)%Z.
    + inversion H; subst. exact Hs'.
    + exact (IH _ _ _ _ Hn' Hs' H).
Qed.

Lemma scan_walk_sound entries : forall s w r w',
  (forall dp ds fs n, In (dp, ds, fs) entries -> In n (ds ++ fs) ->
     pat_match n = true -> G (realpath P (child dp n))) ->
  all_good G s ->
  scan_walk P cap entries s w = (inr r, w') ->
  flow_holds (all_good G) (List.Forall G) r.
Proof.
  induction entries as [|[[dp ds] fs] entries IH]; intros s w r w' He Hs H;
    simpl in H.
  - inversion H; subst. exact Hs.
  - apply bind_inr in H as (r1 & w1 & H1 & H).
    apply scan_names_sound in H1; [|
      intros n Hn; apply (He dp ds fs); [now left | apply in_app_iff; tauto]
      | exact Hs].
    destruct r1 as [s1|ms]; [|inversion H; subst; exact H1].
    apply bind_inr in H as (r2 & w2 & H2 & H).
    apply scan_names_sound in H2; [|
      intros n Hn; apply (He dp ds fs); [now left | apply in_app_iff; tauto]
      | exact H1].
    destruct r2 as [s2|ms]; [|inversion H; subst; exact H2].
    apply (IH _ _ _ _ (fun dp' ds' fs' n Hin => He dp' ds' fs' n (or_intror Hin))
              H2 H).
Qed.

Lemma scan_roots_sound roots : forall s w r w',
  (forall root dp ds fs n, In root roots ->
     In (dp, ds, fs) (Fs.os_walk (flav P) (store w) root) -> In n (ds ++ fs) ->
     pat_match n = true -> G (realpath P (child dp n))) ->
  all_good G s ->
  scan_roots P cap roots s w = (inr r, w') ->
  flow_holds (all_good G) (List.Forall G) r.
Proof.
  induction roots as [|root roots IH]; intros s w r w' He Hs H; simpl in H.
  - inversion H; subst. exact Hs.
  - apply bind_inr in H as (es & w1 & H0 & H).
    apply os_walk_inv in H0 as [-> [= ->]].
    apply bind_inr in H as (r1 & w2 & H1 & H).
    pose proof (scan_walk_keeps P cap _ _ _ _ _ H1) as [Hst _].
    apply scan_walk_sound in H1; [|
      intros dp ds fs n Hin; apply (He root dp ds fs n); [now left | exact Hin]
      | exact Hs].
    destruct r1 as [s1|ms]; [|inversion H; subst; exact H1].
    apply (IH _ _ _ _) in H; [exact H | | exact H1].
    intros root' dp ds fs n Hr. rewrite Hst. apply He. now right.
Qed.
End Sound.

(** *** Below the cap the walk ran to its end *)

Lemma walk_below_cap roots w ms w' :
  walk_find_matches P roots cap w = (inr ms, w') ->
  (Z.of_nat (List.length ms) < cap)%Z ->
  exists s, scan_roots P cap roots (mkScan [] ∅) w = (inr (Continue s), w')
            /\ ms = py_sorted String.leb (root_key P) (matches s).
Proof.
  intros H Hlen. unfold walk_find_matches in H.
  apply bind_inr in H as (r & w1 & H1 & H).
  pose proof (scan_roots_holds P cap (fun _ => True)
                (fun ms => (cap <= Z.of_nat (List.length ms))%Z)) as Hq.
  specialize (Hq ltac:(intros s p _;
                       destruct (Z.leb_spec cap
                         (Z.of_nat (List.length (matches (add P p s)))));
                       [assumption | exact I])
                 roots _ _ _ _ I H1).
  destruct r as [s|ms']; inversion H; subst; simpl in Hq; [|lia].
  eauto.
Qed.

(** *** Every hit is recorded *)

Lemma add_keys p s :
  scan_inv P s ->
  In (root_key P p) (keys_of P (add P p s))
  /\ forall k, In k (keys_of P s) -> In k (keys_of P (add P p s)).
Proof.
  intros [_ Hseen]. unfold keys_of, add.
  change (Str.lower (path_str (flav P) p)) with (root_key P p).
  destruct (bool_decide _) eqn:E; simpl.
  - apply bool_decide_eq_true in E. split; [now apply Hseen | tauto].
  - rewrite map_app. split; [|intros k Hk]; apply in_app_iff; simpl; tauto.
Qed.

Lemma scan_names_complete dp names : forall s w s' w',
  scan_inv P s ->
  scan_names P cap dp names s w = (inr (Continue s'), w') ->
  scan_inv P s'
  /\ (forall k, In k (keys_of P s) -> In k (keys_of P s'))
  /\ forall n, In n names -> pat_match n = true ->
       In (root_key P (realpath P (child dp n))) (keys_of P s').
Proof.
  induction names as [|n names IH]; intros s w s' w' Hs H; simpl in H.
  - inversion H; subst. repeat split; [apply Hs.. | tauto | intros n []].
  - destruct (pat_match n) eqn:En.
    + apply bind_inr in H as (p & w1 & Hp & H).
      apply resolve_inr in Hp as [-> _].
      destruct (cap <=? _)%Z; [discriminate H|].
      destruct (add_keys (realpath P (child dp n)) s Hs) as [Hnew Hold].
      destruct (IH _ _ _ _ (add_inv P _ s Hs) H) as (Hinv & Hmono & Hall).
      split; [exact Hinv|]. split; [auto|].
      intros m [<-|Hm] Hpm; [auto | now apply Hall].
    + destruct (IH _ _ _ _ Hs H) as (Hinv & Hmono & Hall).
      split; [exact Hinv|]. split; [exact Hmono|].
      intros m [<-|Hm] Hpm; [congruence | now apply Hall].
Qed.

Lemma scan_walk_complete entries : forall s w s' w',
  scan_inv P s ->
  scan_walk P cap entries s w = (inr (Continue s'), w') ->
  scan_inv P s'
  /\ (forall k, In k (keys_of P s) -> In k (keys_of P s'))
  /\ forall dp ds fs n, In (dp, ds, fs) entries -> In n (ds ++ fs) ->
       pat_match n = true ->
       In (root_key P (realpath P (child dp n))) (keys_of P s').
Proof.
  induction entries as [|[[dp ds] fs] entries IH]; intros s w s' w' Hs H;
    simpl in H.
  - inversion H; subst. repeat split; [apply Hs.. | tauto | intros ? ? ? ? []].
  - apply bind_inr in H as (r1 & w1 & H1 & H).
    destruct r1 as [s1|ms]; [|discriminate H].
    apply scan_names_complete in H1 as (Hi1 & Hm1 & Ha1); [|exact Hs].
    apply bind_inr in H as (r2 & w2 & H2 & H).
    destruct r2 as [s2|ms]; [|discriminate H].
    apply scan_names_complete in H2 as (Hi2 & Hm2 & Ha2); [|exact Hi1].
    destruct (IH _ _ _ _ Hi2 H) as (Hinv & Hmono & Hall).
    split; [exact Hinv|]. split; [auto|].
    intros dp' ds' fs' n [[= <- <- <-]|Hin] Hn Hpm.
    + apply in_app_iff in Hn as [Hn|Hn]; auto.
    + exact (Hall _ _ _ _ Hin Hn Hpm).
Qed.

Lemma scan_roots_complete roots : forall s w s' w',
  scan_inv P s ->
  scan_roots P cap roots s w = (inr (Continue s'), w') ->
  scan_inv P s'
  /\ (forall k, In k (keys_of P s) -> In k (keys_of P s'))
  /\ forall root dp ds fs n, In root roots ->
       In (dp, ds, fs) (Fs.os_walk (flav P) (store w) root) ->
       In n (ds ++ fs) -> pat_match n = true ->
       In (root_key P (realpath P (child dp n))) (keys_of P s').
Proof.
  induction roots as [|root roots IH]; intros s w s' w' Hs H; simpl in H.
  - inversion H; subst. repeat split; [apply Hs.. | tauto | intros ? ? ? ? ? []].
  - apply bind_inr in H as (es & w1 & H0 & H).
    apply os_walk_inv in H0 as [-> [= ->]].
    apply bind_inr in H as (r1 & w2 & H1 & H).
    pose proof (scan_walk_keeps P cap _ _ _ _ _ H1) as [Hst _].
    destruct r1 as [s1|ms]; [|discriminate H].
    apply scan_walk_complete in H1 as (Hi1 & Hm1 & Ha1); [|exact Hs].
    destruct (IH _ _ _ _ Hi1 H) as (Hinv & Hmono & Hall).
    split; [exact Hinv|]. split; [auto|].
    intros root' dp ds fs n [<-|Hr] Hin Hn Hpm.
    + apply Hmono. exact (Ha1 _ _ _ _ Hin Hn Hpm).
    + rewrite <- Hst in Hin. exact (Hall _ _ _ _ _ Hr Hin Hn Hpm).
Qed.

End ScanMore.

(** X8. The scanner returns nothing but hits: every returned path is the
    resolved path of an entry below one of the roots whose own name
    satisfies the matcher. *)
Theorem walk_find_matches_only_hits P roots max_matches w ms w' :
  walk_find_matches P roots max_matches w = (inr ms, w') ->
  forall p, In p ms -> walk_hit P (store w) roots p.
Proof.
  intros H. unfold walk_find_matches in H.
  apply MonadFacts.bind_inr in H as (r & w1 & H1 & H).
  apply (scan_roots_sound P max_matches (walk_hit P (store w) roots)) in H1.
  - intros p Hp. destruct r as [s|ms']; inversion H; subst; simpl in H1.
    + apply py_sorted_In in Hp. unfold all_good in H1.
      rewrite List.Forall_forall in H1. now apply H1.
    + rewrite List.Forall_forall in H1. now apply H1.
  - intros root dp ds fs n Hr Hin Hn Hpm.
    exists root, dp, ds, fs, n. now repeat split.
  - constructor.
Qed.

Lemma walk_find_matches_only_hits_witness :
  walk_find_matches Sample.pf [Sample.game] 10 Sample.w0
  = (inr [Sample.launcher; Sample.starter], Sample.w0)
  /\ walk_hit Sample.pf Sample.disk [Sample.game] Sample.launcher.
Proof.
  split; [reflexivity|].
  apply (walk_find_matches_only_hits Sample.pf [Sample.game] 10 Sample.w0
           [Sample.launcher; Sample.starter] Sample.w0 eq_refl).
  simpl. tauto.
Defined.

(** X9. When fewer matches than the cap were found, the returned list is
    sorted by lower-cased path string.  (At the cap the list comes back in
    the order of discovery.) *)
Theorem walk_find_matches_sorted_below_cap P roots max_matches w ms w' :
  walk_find_matches P roots max_matches w = (inr ms, w') ->
  (Z.of_nat (List.length ms) < max_matches)%Z ->
  StronglySorted
    (fun p q => String.leb (Str.lower (path_str (flav P) p))
                           (Str.lower (path_str (flav P) q)) = true) ms.
Proof.
  intros H Hlen. destruct (walk_below_cap P _ _ _ _ _ H Hlen) as (s & _ & ->).
  apply Sorted_StronglySorted.
  - intros x y z. apply KeyOrder.string_leb_trans.
  - apply (py_sorted_sorted String.leb (root_key P)), String.leb_total.
Qed.

Lemma walk_find_matches_sorted_below_cap_witness :
  walk_find_matches Sample.pf [Sample.game] 10 Sample.w0
  = (inr [Sample.launcher; Sample.starter], Sample.w0)
  /\ String.leb (Str.lower (path_str Posix Sample.launcher))
                (Str.lower (path_str Posix Sample.starter)) = true
  /\ walk_find_matches Sample.pf [Sample.game] 2 Sample.w0
     = (inr [Sample.starter; Sample.launcher], Sample.w0).
Proof.
  split; [reflexivity|]. split; [|reflexivity].
  assert (StronglySorted
            (fun p q => String.leb (Str.lower (path_str Posix p))
                                   (Str.lower (path_str Posix q)) = true)
            [Sample.launcher; Sample.starter]) as Hs.
  { apply (walk_find_matches_sorted_below_cap Sample.pf [Sample.game] 10
             Sample.w0 _ Sample.w0 eq_refl). reflexivity. }
  inversion Hs as [|? ? _ Hall]; subst.
  now inversion Hall.
Defined.

(** X10. When fewer matches than the cap were found, no hit was missed:
    every entry below the roots whose name satisfies the matcher is in the
    returned list, up to the case of its path string. *)
Theorem walk_find_matches_complete_below_cap P roots max_matches w ms w' :
  walk_find_matches P roots max_matches w = (inr ms, w') ->
  (Z.of_nat (List.length ms) < max_matches)%Z ->
  forall p, walk_hit P (store w) roots p ->
    exists q, In q ms
              /\ Str.lower (path_str (flav P) q)
                 = Str.lower (path_str (flav P) p).
Proof.
  intros H Hlen p (root & dp & ds & fs & n & Hr & Hin & Hn & Hpm & ->).
  destruct (walk_below_cap P _ _ _ _ _ H Hlen) as (s & Hs & ->).
  apply scan_roots_complete in Hs as (_ & _ & Hall); [|apply scan_inv_init].
  specialize (Hall _ _ _ _ _ Hr Hin Hn Hpm).
  unfold keys_of in Hall. apply in_map_iff in Hall as (q & Hq & Hin').
  exists q. split; [now apply py_sorted_In | exact Hq].
Qed.

Lemma walk_find_matches_complete_below_cap_witness :
  exists q, In q [Sample.launcher; Sample.starter]
            /\ Str.lower (path_str Posix q)
               = Str.lower (path_str Posix Sample.starter).
Proof.
  apply (walk_find_matches_complete_below_cap Sample.pf [Sample.game] 10
           Sample.w0 [Sample.launcher; Sample.starter] Sample.w0 eq_refl).
  - reflexivity.
  - exists Sample.game, Sample.game,
      ["Data"], ["FalloutNV.exe"; "nvmp_start.exe"], "nvmp_start.exe".
    repeat split; simpl; tauto.
Defined.

(** ** Text targets *)

Section TargetFacts.
Context (P : platform).
Import MonadFacts.

Lemma has_name_In n fs : has_name n fs = true <-> In n fs.
Proof.
  unfold has_name. rewrite existsb_exists. split.
  - intros (m & Hm & ->%String.eqb_eq). exact Hm.
  - intros H. exists n. split; [exact H | apply String.eqb_refl].
Qed.

(** One round of picking: the accumulator grows by files named to the
    letter, with fresh and distinct keys. *)
Lemma pick_spec wanted dp fs : forall acc sn w acc' sn' w',
  pick P wanted dp fs acc sn w = (inr (acc', sn'), w') ->
  store w' = store w
  /\ exists new,
       acc' = acc ++ new
       /\ List.Forall (picked P wanted dp fs) new
       /\ NoDup (map (root_key P) new)
       /\ (forall p, In p new -> root_key P p ∉ sn)
       /\ (forall k, k ∈ sn' <-> k ∈ sn \/ In k (map (root_key P) new)).
Proof.
  induction wanted as [|n wanted IH]; intros acc sn w acc' sn' w' H; simpl in H.
  - inversion H; subst. split; [reflexivity|]. exists [].
    rewrite app_nil_r. repeat split; try constructor; simpl; tauto.
  - assert (forall new,
              List.Forall (picked P wanted dp fs) new ->
              List.Forall (picked P (n :: wanted) dp fs) new) as Hweak.
    { intros new. apply List.Forall_impl.
      intros p (m & Hm & Hfs & ->). exists m. repeat split; [now right|exact Hfs]. }
    destruct (has_name n fs) eqn:En.
    + apply bind_inr in H as (p & w1 & Hp & H).
      apply query_inv in Hp as (Hst & _ & Hp). specialize (Hp p eq_refl).
      subst p. set (p := realpath P (child dp n)) in *.
      change (Str.lower (path_str (flav P) p)) with (root_key P p) in H.
      destruct (bool_decide (root_key P p ∈ sn)) eqn:Ek.
      * destruct (IH _ _ _ _ _ _ H) as (Hs & new & -> & Hall & Hnd & Hfr & Hsn).
        split; [congruence|]. exists new. repeat split; auto; apply Hsn.
      * apply bool_decide_eq_false in Ek.
        destruct (IH _ _ _ _ _ _ H) as (Hs & new & -> & Hall & Hnd & Hfr & Hsn).
        split; [congruence|]. exists (p :: new).
        split; [now rewrite <- app_assoc|]. split.
        { constructor; [|now apply Hweak].
          exists n. repeat split; [now left | now apply has_name_In]. }
        split.
        { simpl. apply NoDup_cons. split; [|exact Hnd].
          intros Hin%list_elem_of_In%in_map_iff. destruct Hin as (q & Hq & Hin).
          apply (Hfr q Hin). rewrite Hq. apply elem_of_union_l.
          now apply elem_of_singleton. }
        split.
        { intros q [<-|Hq]; [exact Ek|].
          intros Hin. apply (Hfr q Hq). now apply elem_of_union_r. }
        intros k. rewrite Hsn, elem_of_union, elem_of_singleton. simpl.
        intuition congruence.
    + destruct (IH _ _ _ _ _ _ H) as (Hs & new & -> & Hall & Hnd & Hfr & Hsn).
      split; [exact Hs|]. exists new. repeat split; auto; apply Hsn.
Qed.

(** Distinct keys stay distinct when fresh distinct ones are added. *)
Lemma nodup_extend (old new : list string) (sn : gset string) :
  NoDup old -> (forall k, k ∈ sn <-> In k old) ->
  NoDup new -> (forall k, In k new -> k ∉ sn) ->
  NoDup (old ++ new).
Proof.
  intros Ho Hsn Hn Hfr. apply NoDup_app. split; [exact Ho|]. split; [|exact Hn].
  intros k Hk Hk'. apply list_elem_of_In in Hk, Hk'.
  apply (Hfr k Hk'). now apply Hsn.
Qed.

Lemma targets_in_spec st roots entries : forall t w t' w',
  (forall e, In e entries -> exists root, In root roots
                              /\ In e (Fs.os_walk (flav P) st root)) ->
  targets_inv P t ->
  List.Forall (named_target P st roots LOADLIST_FILENAMES) (loadlists t) ->
  List.Forall (named_target P st roots INI_FILENAMES) (inis t) ->
  targets_in P entries t w = (inr t', w') ->
  store w' = store w
  /\ targets_inv P t'
  /\ List.Forall (named_target P st roots LOADLIST_FILENAMES) (loadlists t')
  /\ List.Forall (named_target P st roots INI_FILENAMES) (inis t').
Proof.
  induction entries as [|[[dp ds] fs] entries IH];
    intros t w t' w' He [Hnd Hseen] HL HI H; cbn [targets_in] in H.
  - inversion H; subst. split; [reflexivity|]. split; [now split|]. now split.
  - apply bind_inr in H as ([l1 s1] & w1 & H1 & H).
    apply pick_spec in H1 as (Hst1 & n1 & -> & Ha1 & Hn1 & Hf1 & Hs1).
    apply bind_inr in H as ([l2 s2] & w2 & H2 & H).
    apply pick_spec in H2 as (Hst2 & n2 & E2 & Ha2 & Hn2 & Hf2 & Hs2).
    simpl in E2, Hf2, Hs2, H. subst l2.
    destruct (He (dp, ds, fs) (or_introl eq_refl)) as (root & Hroot & Hin).
    assert (forall wanted new,
              List.Forall (picked P wanted dp fs) new ->
              List.Forall (named_target P st roots wanted) new) as Hlift.
    { intros wanted new. apply List.Forall_impl. intros p Hp.
      exists root, dp, ds, fs. now repeat split. }
    apply IH in H.
    + destruct H as (Hst & Hinv & HL' & HI'). split; [congruence|]. auto.
    + intros e Hin'. apply He. now right.
    + simpl. split.
      * (* keys of (L ++ n1) ++ (I ++ n2) *)
        assert (map (root_key P) ((loadlists t ++ n1) ++ inis t ++ n2)
                ≡ₚ (map (root_key P) (loadlists t ++ inis t)
                    ++ map (root_key P) n1) ++ map (root_key P) n2) as ->.
        { rewrite !map_app. rewrite <- !app_assoc. apply Permutation_app_head.
          rewrite !app_assoc. apply Permutation_app_tail.
          apply Permutation_app_comm. }
        apply (nodup_extend _ _ s1); [| |exact Hn2|].
        -- apply (nodup_extend _ _ (seen_targets t)); try assumption.
           intros k (q & <- & Hq)%in_map_iff. now apply Hf1.
        -- intros k. rewrite Hs1, Hseen, in_app_iff. reflexivity.
        -- intros k (q & <- & Hq)%in_map_iff. now apply Hf2.
      * intros k. simpl. rewrite Hs2, Hs1, Hseen, !map_app, !in_app_iff.
        clear. tauto.
    + simpl. apply List.Forall_app. split; [exact HL | now apply Hlift].
    + simpl. apply List.Forall_app. split; [exact HI | now apply Hlift].
Qed.

Lemma targets_under_spec roots0 roots : forall t w t' w',
  (forall root, In root roots -> In root roots0) ->
  targets_inv P t ->
  List.Forall (named_target P (store w) roots0 LOADLIST_FILENAMES) (loadlists t) ->
  List.Forall (named_target P (store w) roots0 INI_FILENAMES) (inis t) ->
  targets_under P roots t w = (inr t', w') ->
  targets_inv P t'
  /\ List.Forall (named_target P (store w) roots0 LOADLIST_FILENAMES) (loadlists t')
  /\ List.Forall (named_target P (store w) roots0 INI_FILENAMES) (inis t').
Proof.
  induction roots as [|root roots IH]; intros t w t' w' Hsub Hinv HL HI H;
    simpl in H.
  - inversion H; subst. split; [exact Hinv|]. now split.
  - apply bind_inr in H as (es & w1 & H0 & H).
    apply os_walk_inv in H0 as [-> [= ->]].
    apply bind_inr in H as (t1 & w2 & H1 & H).
    apply (targets_in_spec (store w) roots0) in H1
      as (Hst & Hinv1 & HL1 & HI1); try assumption.
    + rewrite <- Hst in HL1, HI1 |- *.
      apply (IH _ _ _ _) in H; try assumption.
      intros r Hr. apply Hsub. now right.
    + intros e Hin. exists root. split; [apply Hsub; now left | exact Hin].
Qed.

End TargetFacts.

(** X11. Text targets are found by name only, and to the letter: every
    returned load list is a file called exactly "plugins.txt" or
    "loadorder.txt" in a directory below the roots, every returned ini file
    one called exactly as one of the four ini names; the result is the
    resolved path of that file. *)
Theorem find_text_targets_by_exact_name P roots w lists ini_files w' :
  find_text_targets P roots w = (inr (lists, ini_files), w') ->
  (forall p, In p lists ->
     named_target P (store w) roots LOADLIST_FILENAMES p)
  /\ (forall p, In p ini_files ->
        named_target P (store w) roots INI_FILENAMES p).
Proof.
  intros H. unfold find_text_targets in H.
  apply MonadFacts.bind_inr in H as (t & w1 & H1 & H).
  apply (targets_under_spec P roots) in H1 as (_ & HL & HI);
    [| auto | split; [constructor | intros k; simpl; split; [|tauto];
                      intros Hk; now apply not_elem_of_empty in Hk]
     | constructor | constructor].
  inversion H; subst. rewrite List.Forall_forall in HL, HI.
  split; intros p Hp%py_sorted_In; auto.
Qed.

Lemma find_text_targets_by_exact_name_witness :
  find_text_targets Sample.pf [Sample.game] Sample.w0
  = (inr ([Sample.plugins_txt], []), Sample.w0)
  /\ named_target Sample.pf Sample.disk [Sample.game] LOADLIST_FILENAMES
       Sample.plugins_txt.
Proof.
  split; [reflexivity|].
  destruct (find_text_targets_by_exact_name Sample.pf [Sample.game] Sample.w0
              [Sample.plugins_txt] [] Sample.w0 eq_refl) as [HL _].
  apply HL. now left.
Defined.

(** X12. No file is returned twice by [find_text_targets], not even once as
    a load list and once as an ini file: the lower-cased path strings of
    all returned targets are pairwise distinct. *)
Theorem find_text_targets_no_duplicates P roots w lists ini_files w' :
  find_text_targets P roots w = (inr (lists, ini_files), w') ->
  NoDup (map (fun p => Str.lower (path_str (flav P) p)) (lists ++ ini_files)).
Proof.
  intros H. unfold find_text_targets in H.
  apply MonadFacts.bind_inr in H as (t & w1 & H1 & H).
  apply (targets_under_spec P roots) in H1 as ([Hnd _] & _ & _);
    [| auto | split; [constructor | intros k; simpl; split; [|tauto];
                      intros Hk; now apply not_elem_of_empty in Hk]
     | constructor | constructor].
  inversion H; subst.
  assert (map (root_key P)
            (py_sorted String.leb (root_key P) (loadlists t)
             ++ py_sorted String.leb (root_key P) (inis t))
          ≡ₚ map (root_key P) (loadlists t ++ inis t)) as Hperm.
  { apply Permutation_map, Permutation_app; apply py_sorted_perm. }
  unfold root_key in Hperm at 1. rewrite Hperm. exact Hnd.
Qed.

Lemma find_text_targets_no_duplicates_witness :
  find_text_targets Sample.pf [Sample.game; px ["game"; "Data"]] Sample.w0
  = (inr ([Sample.plugins_txt], []), Sample.w0)
  /\ NoDup (map (fun p => Str.lower (path_str Posix p))
              ([Sample.plugins_txt] ++ [])).
Proof.
  split; [reflexivity|].
  apply (find_text_targets_no_duplicates Sample.pf
           [Sample.game; px ["game"; "Data"]] Sample.w0 _ _ Sample.w0 eq_refl).
Defined.

(** ** Removal *)

Section RemoveFacts.
Context (P : platform).
Import MonadFacts.

Lemma update_inv f w r w' :
  update f w = (r, w') ->
  environ w' = environ w
  /\ ((r = inr tt /\ f (store w) = inr (store w'))
      \/ (exists e, r = inl e /\ store w' = store w)).
Proof.
  unfold update. intros H.
  destruct (prim_cases (fun st => match f st with
                                  | inl e => inl e
                                  | inr st' => inr (tt, st')
                                  end) w) as [(e & fs & _ & E)|[_ E]].
  - rewrite E in H. inversion H; subst. split; [reflexivity|]. right. eauto.
  - destruct (f (store w)) as [e|st']; rewrite E in H; inversion H; subst;
      (split; [reflexivity|]); [right; eauto | left; now split].
Qed.

(** The statement that deletes, whatever the kind of the entry. *)
Lemma delete_step_inv (p : Path) (isd : bool) w r w' :
  ((if isd then
      isl <- is_symlink P p;;
      if negb isl then shutil_rmtree P p else unlink P p
    else unlink P p) : M unit) w = (r, w') ->
  isd = Fs.isdir (flav P) (store w) p ->
  (r = inr tt /\ removal (flav P) (store w) p = inr (store w'))
  \/ (exists e, r = inl e /\ store w' = store w).
Proof.
  intros H Hd. unfold removal. rewrite <- Hd. destruct isd; simpl.
  - apply bind_inv in H as [(e & H & ->)|(isl & w2 & Hl & H)].
    { apply query_inv in H as (Hs & _). right. eauto. }
    apply query_inv in Hl as (Hs2 & _ & Hl). specialize (Hl isl eq_refl).
    rewrite <- Hl.
    destruct isl; simpl in *;
      apply update_inv in H as (_ & [[-> H]|(e & -> & H)]);
      solve [left; split; [reflexivity | congruence]
            |right; exists e; split; [reflexivity | congruence]].
  - apply update_inv in H as (_ & [[-> H]|(e & -> & H)]);
      solve [left; split; [reflexivity | congruence]
            |right; exists e; split; [reflexivity | congruence]].
Qed.

(** All the ways through the body of [remove_path]. *)
Lemma remove_path_body_inv p bd del w r w' :
  remove_path_body P p bd del w = (r, w') ->
  let st := store w in
  let dst b := joinpath (flav P) b (safe_rel_for_backup P p) in
  (store w' = st
   /\ forall x, r = inr x ->
        x = (p, "SKIP (missing)")
        \/ (x = (p, "ERROR (no backup dir set)") /\ del = false /\ bd = None))
  \/ (del = true /\ r = inr (p, "DELETED")
      /\ removal (flav P) st p = inr (store w'))
  \/ (del = false
      /\ Fs.exists_ (flav P) st p = true
      /\ exists b st1,
           bd = Some b
           /\ Fs.makedirs (flav P) st (parent (dst b)) = inr st1
           /\ ((exists e, r = inl e /\ store w' = st1)
               \/ (r = inr (p, "MOVED -> " +:+ path_str (flav P) (dst b))
                   /\ Fs.move (flav P) st1 p (dst b) = inr (store w')))).
Proof.
  unfold remove_path_body. intros H. cbn zeta.
  apply bind_inv in H as [(e & H & ->)|(ex & w1 & Hex & H)].
  { apply query_inv in H as (Hs & _). left. split; [exact Hs|]. intros x [=]. }
  apply query_inv in Hex as (Hs1 & _ & Hex). specialize (Hex _ eq_refl).
  destruct ex; simpl in H.
  2:{ inversion H; subst. left. split; [exact Hs1|]. intros x [= <-]. now left. }
  destruct del.
  - apply bind_inv in H as [(e & H & ->)|(isd & w2 & Hd & H)].
    { apply query_inv in H as (Hs & _). left. split; [congruence|].
      intros x [=]. }
    apply query_inv in Hd as (Hs2 & _ & Hd). specialize (Hd isd eq_refl).
    rewrite <- Hs2 in Hd.
    apply bind_inv in H as [(e & H & ->)|(u & w3 & Hblk & H)].
    + apply delete_step_inv in H as [[[=] _]|(e' & _ & Hs)]; [|exact Hd].
      left. split; [congruence|]. intros x [=].
    + apply delete_step_inv in Hblk as [[_ Hrm]|(e' & [=] & _)]; [|exact Hd].
      inversion H; subst. right. left.
      rewrite Hs2, Hs1 in Hrm. now repeat split.
  - destruct bd as [b|].
    2:{ inversion H; subst. left. split; [exact Hs1|]. intros x [= <-].
        right. now repeat split. }
    apply bind_inv in H as [(e & H & ->)|(u & w2 & Hmk & H)].
    { apply update_inv in H as (_ & [[[=] _]|(e' & _ & Hs)]).
      left. split; [congruence|]. intros x [=]. }
    apply update_inv in Hmk as (_ & [[_ Hmk]|(e' & [=] & _)]).
    rewrite Hs1 in Hmk.
    right. right. split; [reflexivity|]. split; [now rewrite <- Hex|].
    exists b, (store w2).
    split; [reflexivity|]. split; [exact Hmk|].
    apply bind_inv in H as [(e & H & ->)|(u' & w3 & Hmv & H)].
    + apply update_inv in H as (_ & [[[=] _]|(e' & _ & Hs)]). left. eauto.
    + apply update_inv in Hmv as (_ & [[_ Hmv]|(e' & [=] & _)]).
      inversion H; subst. right. now split.
Qed.

(** [remove_path] always returns, with the body's outcome or with an error
    outcome made of the exception that ended the body. *)
Lemma remove_path_inv p bd del w r w' :
  remove_path P p bd del w = (r, w') ->
  exists o,
    r = inr (p, o)
    /\ (remove_path_body P p bd del w = (inr (p, o), w')
        \/ (starts_with "ERROR (" o = true
            /\ exists e, remove_path_body P p bd del w = (inl e, w'))).
Proof.
  unfold remove_path, try_except. intros H.
  destruct (remove_path_body P p bd del w) as [[e|[q o]] w1] eqn:E.
  - destruct (remove_path_handler_inv p e w1) as (o & Ho & Herr & _).
    rewrite Ho in H. inversion H; subst. exists o. split; [reflexivity|].
    right. split; [exact Herr|]. eauto.
  - apply (remove_path_body_fst P) in E as Hq. simpl in Hq. subst q.
    inversion H; subst. exists o. split; [reflexivity|]. now left.
Qed.


Lemma strip_returns path bd del w :
  exists msgs w',
    strip_nvmp_lines_from_text_file P path bd del w = (inr msgs, w')
    /\ List.Forall (fun m => edit_report m = true) msgs.
Proof.
  unfold strip_nvmp_lines_from_text_file, try_except.
  destruct (strip_body P path bd del w) as [[e|msgs] w1] eqn:E.
  - destruct (strip_handler P path e w1) as [r w2] eqn:Eh.
    apply strip_handler_inv in Eh as (-> & m & -> & Hm).
    exists [m], w1. split; [reflexivity|]. constructor; [|constructor].
    unfold edit_report. rewrite Hm. apply orb_true_r.
  - exists msgs, w1. split; [reflexivity|].
    apply strip_body_inv in E as [(-> & _)|(d & st1 & _ & _ & -> & _)];
      constructor; [|constructor].
    unfold edit_report, msg_edited. now rewrite starts_with_app.
Qed.

End RemoveFacts.


(** X14. The cleaning loop of [main] never stops early either: it always
    returns its messages, and each of them is an "EDITED: ..." or an
    "ERROR editing ..." line. *)
Theorem strip_all_reports_edits_and_errors P files backup_dir permanent_delete w :
  exists msgs w',
    strip_all P files backup_dir permanent_delete w = (inr msgs, w')
    /\ List.Forall (fun m => edit_report m = true) msgs.
Proof.
  revert w. induction files as [|p files IH]; intros w.
  - exists [], w. split; [reflexivity | constructor].
  - simpl. unfold bind at 1.
    destruct (strip_returns P p backup_dir permanent_delete w)
      as (m & w1 & -> & Hm).
    destruct (IH w1) as (ms & w2 & Hms & Hall).
    exists (m ++ ms), w2. unfold bind. rewrite Hms.
    split; [reflexivity|]. apply List.Forall_app. now split.
Qed.

(** X15. Asked to back up without a backup folder, [remove_path] touches
    nothing: the store is as before, and the outcome is the skip of a
    missing path or an error. *)
Theorem remove_path_without_backup_dir_changes_nothing P p w r w' :
  remove_path P p None false w = (r, w') ->
  store w' = store w
  /\ exists o, r = inr (p, o)
               /\ (o = "SKIP (missing)" \/ starts_with "ERROR (" o = true).
Proof.
  intros H. apply remove_path_inv in H as (o & -> & H).
  assert (forall r0, remove_path_body P p None false w = (r0, w') ->
            store w' = store w
            /\ forall x, r0 = inr x ->
                 x = (p, "SKIP (missing)")
                 \/ x = (p, "ERROR (no backup dir set)")) as Hbody.
  { intros r0 H0. apply remove_path_body_inv in H0
      as [[Hs Hx]|[([=] & _)|(_ & _ & b & st1 & [=] & _)]].
    split; [exact Hs|]. intros x Hr.
    destruct (Hx x Hr) as [->|[-> _]]; auto. }
  destruct H as [H|[Herr [e H]]]; apply Hbody in H as [Hs Hx];
    (split; [exact Hs|]); exists o; (split; [reflexivity|]).
  - destruct (Hx _ eq_refl) as [[= ->]|[= ->]]; [now left | now right].
  - now right.
Qed.

Lemma remove_path_without_backup_dir_changes_nothing_witness :
  remove_path Sample.pf Sample.launcher None false Sample.w0
  = (inr (Sample.launcher, "ERROR (no backup dir set)"), Sample.w0)
  /\ store Sample.w0 = Sample.disk.
Proof.
  split; [reflexivity|].
  exact (proj1 (remove_path_without_backup_dir_changes_nothing
                  Sample.pf Sample.launcher Sample.w0 _ Sample.w0 eq_refl)).
Defined.

(** ** What a removal leaves in place *)

Section RemovalFrame.
Context (fl : flavour).

Lemma same_entry_refl o : same_entry o o.
Proof. destruct o as [[d|es|t]|]; simpl; eauto. Qed.

Lemma modify_some f ks o o' :
  ks <> [] -> Fs.modify fl ks f o = inr o' -> exists n, o' = Some n.
Proof.
  destruct ks as [|k ks]; [congruence|]. intros _. simpl.
  destruct o as [[d|es|t]|]; try discriminate.
  destruct (Fs.modify fl ks f (Fs.find_entry fl k es)) as [e|[c|]];
    intros [= <-]; eauto.
Qed.

(** Removing the entry at [ks] leaves every entry that is not at or below
    [ks] in place. *)
Lemma modify_remove_frame ks : forall o o' q,
  Fs.modify fl ks Fs.remove_entry o = inr o' ->
  Fs.key_prefix fl ks q = false ->
  same_entry (Fs.lookup fl q o) (Fs.lookup fl q o').
Proof.
  induction ks as [|k ks IH]; intros o o' q H Hq; [discriminate|].
  simpl in H. destruct o as [[d|es|t]|]; try discriminate.
  destruct (Fs.modify fl ks Fs.remove_entry (Fs.find_entry fl k es))
    as [e|r] eqn:E; [discriminate|].
  destruct q as [|x q].
  { simpl. destruct r; inversion H; eauto. }
  simpl in Hq. destruct (Fs.same_name fl k x) eqn:Ek; simpl in Hq.
  - assert (ks <> []) as Hne by (intros ->; discriminate).
    destruct (modify_some _ _ _ _ Hne E) as (c & ->).
    inversion H; subst. simpl.
    rewrite (FsFacts.find_same fl k x (Fs.set_entry fl k c es) Ek).
    rewrite FsFacts.find_set_same, (FsFacts.find_same fl k x es Ek).
    exact (IH _ _ _ E Hq).
  - destruct r as [c|]; inversion H; subst; simpl.
    + rewrite FsFacts.find_set_other by exact Ek. apply same_entry_refl.
    + rewrite FsFacts.find_del_other by exact Ek. apply same_entry_refl.
Qed.

Lemma removal_inv st p st' :
  removal fl st p = inr st' -> parts p <> [] ->
  (st' = st /\ Fs.lstat fl st p = None)
  \/ Fs.modify fl (parts p) Fs.remove_entry (Some st) = inr (Some st').
Proof.
  intros H Hne.
  assert (forall st1, Fs.store_modify fl p Fs.remove_entry st = inr st1 ->
            Fs.modify fl (parts p) Fs.remove_entry (Some st) = inr (Some st1))
    as Hmod.
  { unfold Fs.store_modify. intros st1 H1.
    destruct (Fs.modify fl (parts p) Fs.remove_entry (Some st))
      as [e|r] eqn:E; [discriminate|].
    destruct (modify_some _ _ _ _ Hne E) as (c & ->). congruence. }
  unfold removal, Fs.rmtree, Fs.unlink in H.
  destruct (Fs.lstat fl st p) as [[d|es|t]|] eqn:El;
    destruct (Fs.isdir fl st p && negb (Fs.islink fl st p));
    try discriminate; try (right; now apply Hmod).
  all: left; split; [congruence | reflexivity].
Qed.

Lemma removal_gone st p st' :
  removal fl st p = inr st' -> parts p <> [] ->
  Fs.lstat fl st' p = None
  /\ forall q, Fs.key_prefix fl (parts p) (parts q) = false ->
       same_entry (Fs.lstat fl st q) (Fs.lstat fl st' q).
Proof.
  intros H Hne. destruct (removal_inv _ _ _ H Hne) as [[-> Hnone]|Hmod].
  - split; [exact Hnone|]. intros q _. apply same_entry_refl.
  - split.
    + apply FsFacts.modify_lookup in Hmod. unfold Fs.remove_entry in Hmod.
      unfold Fs.lstat. congruence.
    + intros q Hq. exact (modify_remove_frame _ _ _ _ Hmod Hq).
Qed.

End RemovalFrame.

(** X16. A path reported as "DELETED" is gone afterwards, and the
    deletion reaches nothing beside it: every path that is not the deleted
    one or below it leads to the same file or link as before, or to a
    directory where there was one, or still to nothing. *)
Theorem remove_path_deleted_is_gone P p backup_dir w w' :
  parts p <> [] ->
  remove_path P p backup_dir true w = (inr (p, "DELETED"), w') ->
  Fs.lstat (flav P) (store w') p = None
  /\ forall q, Fs.key_prefix (flav P) (parts p) (parts q) = false ->
       same_entry (Fs.lstat (flav P) (store w) q)
                  (Fs.lstat (flav P) (store w') q).
Proof.
  intros Hne H. apply remove_path_inv in H as (o & [= <-] & [H|[Herr _]]);
    [|discriminate].
  apply remove_path_body_inv in H
    as [[_ H]|[(_ & _ & H)|([=] & _)]].
  - destruct (H _ eq_refl) as [[=]|([=] & _)].
  - now apply removal_gone.
Qed.

Lemma remove_path_deleted_is_gone_witness :
  Fs.lstat Posix
    (store (remove_path Sample.pf Sample.launcher None true Sample.w0).2)
    Sample.launcher = None
  /\ Fs.lstat Posix
       (store (remove_path Sample.pf Sample.launcher None true Sample.w0).2)
       Sample.plugins_txt = Some (File Sample.plugins).
Proof.
  destruct (remove_path_deleted_is_gone Sample.pf Sample.launcher None
              Sample.w0
              (remove_path Sample.pf Sample.launcher None true Sample.w0).2)
    as [Hgone Hrest].
  - discriminate.
  - reflexivity.
  - split; [exact Hgone | exact (Hrest Sample.plugins_txt eq_refl)].
Defined.

(** ** Where a backup goes *)

Module ParseFacts.

Lemma append_assoc a b c : (a +:+ b) +:+ c = a +:+ (b +:+ c).
Proof.
  induction a as [|x a IH]; [now rewrite !TextFacts.append_nil_l|].
  now rewrite !TextFacts.append_cons, IH.
Qed.

Lemma has_char_app c a b : has_char c (a +:+ b) = has_char c a || has_char c b.
Proof.
  induction a as [|x a IH]; [now rewrite TextFacts.append_nil_l|].
  rewrite TextFacts.append_cons. simpl. now rewrite IH, orb_assoc.
Qed.

Lemma remove_char_id c s : has_char c s = false -> Str.remove_char c s = s.
Proof.
  induction s as [|x s IH]; [reflexivity|]. simpl.
  intros [Hx Hs]%orb_false_iff. now rewrite Hx, IH.
Qed.

Lemma has_char_join c sp l :
  has_char c sp = false ->
  List.Forall (fun x => has_char c x = false) l ->
  has_char c (Str.join sp l) = false.
Proof.
  intros Hsp. induction 1 as [|x l Hx Hl IH]; [reflexivity|].
  destruct l as [|y l]; [exact Hx|].
  change (Str.join sp (x :: y :: l)) with (x +:+ sp +:+ Str.join sp (y :: l)).
  now rewrite !has_char_app, Hx, Hsp, IH.
Qed.

(** *** POSIX *)

Lemma split_slash_plain s : forall cur,
  has_char "/" s = false -> PosixParse.split_slash cur s = [cur +:+ s].
Proof.
  induction s as [|x s IH]; intros cur H; simpl.
  - now rewrite TextFacts.append_nil_r.
  - simpl in H. apply orb_false_iff in H as [Hx Hs]. rewrite Hx, IH by exact Hs.
    now rewrite append_assoc.
Qed.

Lemma split_slash_sep s rest : forall cur,
  has_char "/" s = false ->
  PosixParse.split_slash cur (s +:+ "/" +:+ rest)
  = (cur +:+ s) :: PosixParse.split_slash "" rest.
Proof.
  induction s as [|x s IH]; intros cur H.
  - rewrite TextFacts.append_nil_l, TextFacts.append_nil_r. reflexivity.
  - simpl in H. apply orb_false_iff in H as [Hx Hs].
    rewrite TextFacts.append_cons. simpl. rewrite Hx, IH by exact Hs.
    now rewrite append_assoc.
Qed.

Lemma split_slash_join l :
  l <> [] -> List.Forall (fun x => has_char "/" x = false) l ->
  PosixParse.split_slash "" (Str.join "/" l) = l.
Proof.
  intros Hne H. induction H as [|x l Hx Hl IH]; [congruence|].
  destruct l as [|y l].
  - simpl. now rewrite split_slash_plain, TextFacts.append_nil_l.
  - change (Str.join "/" (x :: y :: l))
      with (x +:+ "/" +:+ Str.join "/" (y :: l)).
    rewrite split_slash_sep by exact Hx.
    now rewrite TextFacts.append_nil_l, IH.
Qed.

Lemma plain_posix_inv c :
  plain_posix c = true ->
  PosixParse.keep_component c = true
  /\ has_char "/" c = false /\ has_char ":" c = false.
Proof.
  unfold plain_posix. intros [[H1 H2]%andb_true_iff H3]%andb_true_iff.
  apply negb_true_iff in H2, H3. auto.
Qed.

Lemma filter_keep l :
  List.Forall (fun c => PosixParse.keep_component c = true) l ->
  List.filter PosixParse.keep_component l = l.
Proof.
  induction 1 as [|x l Hx _ IH]; [reflexivity|]. simpl. now rewrite Hx, IH.
Qed.

Lemma root_of_single x s :
  Ascii.eqb x "/" = false -> PosixParse.root_of (String "/" (String x s)) = "/".
Proof.
  destruct x as [[] [] [] [] [] [] [] []]; intros H;
    try reflexivity; discriminate H.
Qed.

(** A colon-free absolute POSIX path is read back from its string as it
    is. *)
Lemma posix_round_trip tl :
  List.Forall (fun c => plain_posix c = true) tl ->
  PosixParse.parse (Str.remove_char ":" (path_str Posix (mkPath "" "/" tl)))
  = mkPath "" "/" tl.
Proof.
  intros H.
  assert (List.Forall (fun c => PosixParse.keep_component c = true) tl
          /\ List.Forall (fun x => has_char "/" x = false) tl
          /\ List.Forall (fun x => has_char ":" x = false) tl) as (Hk & Hs & Hc).
  { rewrite !List.Forall_forall in *.
    split; [|split]; intros y Hin;
      destruct (plain_posix_inv y (H y Hin)) as (? & ? & ?); auto. }
  change (path_str Posix (mkPath "" "/" tl))
    with (String "/" (Str.join "/" tl)).
  rewrite remove_char_id
    by (simpl; now apply has_char_join).
  unfold PosixParse.parse. f_equal.
  - destruct tl as [|c tl']; [reflexivity|].
    inversion Hk as [|? ? Hkc _]; inversion Hs as [|? ? Hsc _]; subst.
    destruct c as [|x c]; [discriminate Hkc|]. simpl in Hsc.
    apply orb_false_iff in Hsc as [Hx _].
    destruct tl' as [|y tl'].
    + now apply root_of_single.
    + change (Str.join "/" (String x c :: y :: tl'))
        with (String x c +:+ "/" +:+ Str.join "/" (y :: tl')).
      rewrite TextFacts.append_cons. now apply root_of_single.
  - simpl. destruct tl as [|c tl']; [reflexivity|].
    rewrite split_slash_join by (try discriminate; exact Hs).
    now apply filter_keep.
Qed.

(** *** Windows *)

Lemma is_sep_false x :
  Ascii.eqb x "/" = false -> Ascii.eqb x "\" = false ->
  WindowsParse.is_sep x = false.
Proof. unfold WindowsParse.is_sep. now intros -> ->. Qed.

Lemma split_sep_plain s : forall cur,
  has_char "/" s = false -> has_char "\" s = false ->
  WindowsParse.split_sep cur s = [cur +:+ s].
Proof.
  induction s as [|x s IH]; intros cur H1 H2; simpl.
  - now rewrite TextFacts.append_nil_r.
  - simpl in H1, H2. apply orb_false_iff in H1 as [Hx1 Hs1].
    apply orb_false_iff in H2 as [Hx2 Hs2].
    rewrite is_sep_false, IH by assumption. now rewrite append_assoc.
Qed.

Lemma split_sep_sep s rest : forall cur,
  has_char "/" s = false -> has_char "\" s = false ->
  WindowsParse.split_sep cur (s +:+ "\" +:+ rest)
  = (cur +:+ s) :: WindowsParse.split_sep "" rest.
Proof.
  induction s as [|x s IH]; intros cur H1 H2.
  - rewrite TextFacts.append_nil_l, TextFacts.append_nil_r. reflexivity.
  - simpl in H1, H2. apply orb_false_iff in H1 as [Hx1 Hs1].
    apply orb_false_iff in H2 as [Hx2 Hs2].
    rewrite TextFacts.append_cons. simpl.
    rewrite is_sep_false, IH by assumption. now rewrite append_assoc.
Qed.

Lemma split_sep_join l :
  l <> [] ->
  List.Forall (fun x => has_char "/" x = false /\ has_char "\" x = false) l ->
  WindowsParse.split_sep "" (Str.join "\" l) = l.
Proof.
  intros Hne H. induction H as [|x l [Hx1 Hx2] Hl IH]; [congruence|].
  destruct l as [|y l].
  - simpl. now rewrite split_sep_plain, TextFacts.append_nil_l.
  - change (Str.join "\" (x :: y :: l))
      with (x +:+ "\" +:+ Str.join "\" (y :: l)).
    rewrite split_sep_sep by assumption.
    now rewrite TextFacts.append_nil_l, IH.
Qed.

Lemma plain_windows_inv c :
  plain_windows c = true ->
  PosixParse.keep_component c = true
  /\ has_char "/" c = false /\ has_char "\" c = false
  /\ has_char ":" c = false.
Proof.
  unfold plain_windows.
  intros [[[H1 H2]%andb_true_iff H3]%andb_true_iff H4]%andb_true_iff.
  apply negb_true_iff in H2, H3, H4. auto.
Qed.

Lemma letter_plain c :
  WindowsParse.is_letter c = true ->
  Ascii.eqb c ":" = false /\ WindowsParse.is_sep c = false
  /\ PosixParse.keep_component (String c "") = true.
Proof.
  destruct c as [[] [] [] [] [] [] [] []]; intros H;
    try discriminate H; repeat split.
Qed.

(** Without its colon, a drive-letter path reads as a relative path whose
    first component is the letter. *)
Lemma windows_rel c tl :
  WindowsParse.is_letter c = true ->
  List.Forall (fun x => plain_windows x = true) tl ->
  WindowsParse.parse
    (Str.remove_char ":" (path_str Windows (mkPath (String c ":") "\" tl)))
  = mkPath "" "" (String c "" :: tl).
Proof.
  intros Hc H. destruct (letter_plain c Hc) as (Hcol & Hsep & Hkeep).
  assert (List.Forall (fun c => PosixParse.keep_component c = true) tl
          /\ List.Forall (fun x => has_char "/" x = false
                                   /\ has_char "\" x = false) tl
          /\ List.Forall (fun x => has_char ":" x = false) tl) as (Hk & Hs & Hn).
  { rewrite !List.Forall_forall in *.
    split; [|split]; intros y Hin;
      destruct (plain_windows_inv y (H y Hin)) as (? & ? & ? & ?); auto. }
  change (path_str Windows (mkPath (String c ":") "\" tl))
    with (String c (String ":" (String "\" (Str.join "\" tl)))).
  assert (Str.remove_char ":" (String c (String ":" (String "\" (Str.join "\" tl))))
          = String c (String "\" (Str.join "\" tl))) as ->.
  { simpl. rewrite Hcol. f_equal. f_equal.
    apply remove_char_id. now apply has_char_join. }
  unfold WindowsParse.parse. cbn [WindowsParse.split_drive].
  cbn [WindowsParse.root_of]. rewrite Hsep.
  f_equal. cbn [WindowsParse.split_sep]. rewrite Hsep.
  change (WindowsParse.is_sep "\") with true. cbv iota.
  rewrite TextFacts.append_nil_l. cbn [List.filter]. rewrite Hkeep. f_equal.
  destruct tl as [|x0 tl']; [reflexivity|].
  rewrite split_sep_join by (try discriminate; exact Hs).
  now apply filter_keep.
Qed.

End ParseFacts.

Section MoveFacts.
Context (fl : flavour).

Lemma set_entry_same k d es :
  Fs.find_entry fl k es = Some d -> Fs.set_entry fl k d es = es.
Proof.
  induction es as [|[m y] es IH]; [discriminate|]. simpl.
  destruct (Fs.same_name fl m k); [now intros [= ->]|].
  intros H. now rewrite IH.
Qed.

Lemma lookup_snoc ks x : forall o n,
  Fs.lookup fl (ks ++ [x]) o = Some n ->
  exists es, Fs.lookup fl ks o = Some (Dir es).
Proof.
  induction ks as [|k ks IH]; intros o n H; simpl in *.
  - destruct o as [[d|es|t]|]; try discriminate. eauto.
  - destruct o as [[d|es|t]|]; try discriminate. eauto.
Qed.

Lemma lookup_key ks : forall ks' o,
  map (normcase fl) ks = map (normcase fl) ks' ->
  Fs.lookup fl ks o = Fs.lookup fl ks' o.
Proof.
  induction ks as [|k ks IH]; intros [|k' ks'] o H; try discriminate;
    [reflexivity|].
  simpl in H. injection H as Hk Hks. simpl.
  destruct o as [[d|es|t]|]; try reflexivity.
  rewrite (FsFacts.find_same fl k k' es) by now apply FsFacts.same_iff.
  now apply IH.
Qed.

(** [mkdir -p] of a directory that is there changes nothing ... *)
Lemma mkdir_p_unchanged ks : forall o n n',
  Fs.lookup fl ks o = Some n -> Fs.mkdir_p fl ks o = inr n' -> o = Some n'.
Proof.
  induction ks as [|k ks IH]; intros o n n' Hl H; simpl in *.
  - subst o. destruct (Fs.follow n) as [[d|es|t]|]; try discriminate.
    congruence.
  - destruct o as [[d|es|t]|]; try discriminate.
    destruct (Fs.mkdir_p fl ks (Fs.find_entry fl k es)) as [e|c] eqn:E;
      [discriminate|].
    apply (IH _ _ _ Hl) in E. inversion H; subst.
    now rewrite set_entry_same.
Qed.

(** ... and succeeds. *)
Lemma mkdir_p_dir ks : forall o es,
  Fs.lookup fl ks o = Some (Dir es) ->
  exists d, o = Some d /\ Fs.mkdir_p fl ks o = inr d.
Proof.
  induction ks as [|k ks IH]; intros o es Hl; simpl in *.
  - subst o. eauto.
  - destruct o as [[d|es0|t]|]; try discriminate.
    destruct (IH _ _ Hl) as (c & Hc & ->). eexists. split; [reflexivity|].
    now rewrite set_entry_same.
Qed.

Lemma parts_parent p :
  tail p <> [] -> parts p = parts (parent p) ++ [name p].
Proof.
  intros Hne. destruct p as [d r t]. unfold parts, parent, name, anchor.
  simpl in *. destruct (String.eqb (d +:+ r) "").
  - now apply app_removelast_last.
  - simpl. f_equal. now apply app_removelast_last.
Qed.

Lemma child_parent p : tail p <> [] -> child (parent p) (name p) = p.
Proof.
  intros Hne. destruct p as [d r t]. unfold child, parent, name. simpl in *.
  now rewrite <- (app_removelast_last "" Hne).
Qed.

Lemma makedirs_parent_unchanged st p n st1 :
  Fs.lstat fl st p = Some n ->
  Fs.makedirs fl st (parent p) = inr st1 -> st1 = st.
Proof.
  unfold Fs.lstat, Fs.makedirs. intros Hl H.
  destruct (tail p) as [|x t] eqn:Et.
  - assert (parent p = p) as Hp.
    { destruct p as [d r t]. simpl in Et. subst t. reflexivity. }
    rewrite Hp in H. pose proof (mkdir_p_unchanged _ _ _ _ Hl H). congruence.
  - rewrite parts_parent in Hl by (rewrite Et; discriminate).
    apply lookup_snoc in Hl as (es & Hl).
    pose proof (mkdir_p_unchanged _ _ _ _ Hl H). congruence.
Qed.

Lemma makedirs_parent_ok st p n :
  tail p <> [] -> Fs.lstat fl st p = Some n ->
  Fs.makedirs fl st (parent p) = inr st.
Proof.
  unfold Fs.lstat, Fs.makedirs. intros Hne Hl.
  rewrite parts_parent in Hl by exact Hne.
  apply lookup_snoc in Hl as (es & Hl).
  destruct (mkdir_p_dir _ _ _ Hl) as (d & [= <-] & ->). reflexivity.
Qed.

Lemma move_same st p n :
  Fs.lstat fl st p = Some n -> Fs.move fl st p p = inr st.
Proof.
  unfold Fs.move, path_eqb. intros ->. now rewrite bool_decide_eq_true_2.
Qed.

(** Putting a leaf somewhere creates no entry anywhere else. *)
Lemma modify_set_fresh n ks : forall o o' qs,
  leaf n ->
  Fs.modify fl ks (fun _ => inr (Some n)) o = inr o' ->
  Fs.lookup fl qs o = None ->
  map (normcase fl) qs <> map (normcase fl) ks ->
  Fs.lookup fl qs o' = None.
Proof.
  induction ks as [|k ks IH]; intros o o' qs Hn H Hq Hne; simpl in H.
  - destruct qs as [|k' qs]; [congruence|]. inversion H; subst.
    now apply FsFacts.lookup_leaf_nil.
  - destruct o as [[d0|es|t]|]; try discriminate.
    destruct qs as [|k' qs]; [discriminate Hq|]. simpl in Hq.
    destruct (Fs.modify fl ks (fun _ => inr (Some n)) (Fs.find_entry fl k es))
      as [e|r] eqn:E; [discriminate|].
    destruct (Fs.same_name fl k k') eqn:Ek.
    + rewrite (FsFacts.find_same _ k k' es Ek) in Hq.
      assert (map (normcase fl) qs <> map (normcase fl) ks) as Hne'.
      { intros Heq. apply Hne. simpl. apply FsFacts.same_iff in Ek. congruence. }
      pose proof (IH _ _ _ Hn E Hq Hne') as Hr.
      destruct r as [c|]; inversion H; subst; simpl.
      * now rewrite (FsFacts.find_same _ k k' _ Ek), FsFacts.find_set_same.
      * now rewrite (FsFacts.find_same _ k k' _ Ek), FsFacts.find_del_same,
          FsFacts.lookup_None.
    + destruct r as [c|]; inversion H; subst; simpl.
      * now rewrite FsFacts.find_set_other.
      * now rewrite FsFacts.find_del_other.
Qed.

Lemma store_modify_inv p f st st' :
  parts p <> [] -> Fs.store_modify fl p f st = inr st' ->
  Fs.modify fl (parts p) f (Some st) = inr (Some st').
Proof.
  unfold Fs.store_modify. intros Hne H.
  destruct (Fs.modify fl (parts p) f (Some st)) as [e|r] eqn:E;
    [discriminate|].
  destruct (modify_some fl _ _ _ _ Hne E) as (c & ->). congruence.
Qed.

(** A file or link that [shutil.move] moves is afterwards at the
    destination, or in it when the destination is a directory, and no
    longer where it was. *)
Lemma move_leaf st p dst n st' :
  Fs.lstat fl st p = Some n -> leaf n ->
  parts p <> [] -> parts dst <> [] ->
  path_eqb fl p dst = false ->
  Fs.move fl st p dst = inr st' ->
  Fs.lstat fl st' p = None
  /\ Fs.lstat fl st'
       (if Fs.isdir fl st dst then child dst (name p) else dst) = Some n.
Proof.
  intros Hl Hn Hp Hd Hneq H. unfold Fs.move in H. rewrite Hl, Hneq in H.
  set (target := if Fs.isdir fl st dst then child dst (name p) else dst) in *.
  assert (parts target <> []) as Ht.
  { unfold target. destruct (Fs.isdir fl st dst); [|exact Hd].
    rewrite FsFacts.parts_child. now destruct (parts dst). }
  assert (forall st1,
            Fs.store_modify fl p Fs.remove_entry st = inr st1 ->
            Fs.store_modify fl target (fun _ => inr (Some n)) st1 = inr st' ->
            path_key fl p <> path_key fl target ->
            Fs.lstat fl st' p = None /\ Fs.lstat fl st' target = Some n)
    as Hsteps.
  { intros st1 H1 H2 Hkey.
    apply store_modify_inv in H1; [|exact Hp].
    apply store_modify_inv in H2; [|exact Ht].
    pose proof (FsFacts.modify_lookup _ _ _ _ _ H1) as G1.
    pose proof (FsFacts.modify_lookup _ _ _ _ _ H2) as G2.
    unfold Fs.remove_entry in G1. split.
    - apply (modify_set_fresh n _ _ _ _ Hn H2); [congruence | exact Hkey].
    - unfold Fs.lstat. congruence. }
  assert (Fs.lstat fl st target = None ->
          path_key fl p <> path_key fl target) as Hfresh.
  { intros Hnone Hkey. unfold Fs.lstat in Hnone, Hl.
    rewrite (lookup_key _ _ _ Hkey) in Hl. congruence. }
  destruct (Fs.lstat fl st target) as [m|] eqn:Et.
  - destruct (Fs.isdir fl st dst) eqn:Ei; [discriminate|].
    destruct n as [d|es|t]; [|destruct Hn|];
      (destruct (Fs.store_modify fl p Fs.remove_entry st) as [e|st1] eqn:E1;
       [discriminate|]);
      apply (Hsteps st1 eq_refl H);
      intros Hkey; unfold path_eqb in Hneq;
      now rewrite bool_decide_eq_true_2 in Hneq.
  - destruct (Fs.key_prefix fl (parts p) (parts target)); [discriminate|].
    destruct (Fs.store_modify fl p Fs.remove_entry st) as [e|st1] eqn:E1;
      [discriminate|].
    apply (Hsteps st1 eq_refl H). now apply Hfresh.
Qed.

End MoveFacts.

Section BackupFacts.
Context (P : platform).
Import MonadFacts.

Lemma query_calm {A} (f : node -> A) w :
  faults w = [] -> query f w = (inr (f (store w)), w).
Proof. destruct w as [st env fs]. simpl. now intros ->. Qed.

Lemma update_calm f w :
  faults w = [] -> f (store w) = inr (store w) -> update f w = (inr tt, w).
Proof.
  destruct w as [st env fs]. simpl. intros -> Hf.
  unfold update, prim. simpl. now rewrite Hf.
Qed.

Lemma exists_lstat st p :
  Fs.exists_ (flav P) st p = true -> exists n, Fs.lstat (flav P) st p = Some n.
Proof.
  unfold Fs.exists_, Fs.stat.
  destruct (Fs.lstat (flav P) st p); [eauto | discriminate].
Qed.

Lemma posix_target tl bd :
  flav P = Posix -> path_of_string P = PosixParse.parse -> drive bd = "" ->
  List.Forall (fun c => plain_posix c = true) tl ->
  backup_target P bd (px tl) = px tl.
Proof.
  intros Hfl Hparse Hbd Hplain. unfold backup_target, safe_rel_for_backup, px.
  rewrite Hfl, Hparse, ParseFacts.posix_round_trip by exact Hplain.
  unfold joinpath. simpl. now rewrite Hbd.
Qed.

Lemma windows_target c tl bd :
  flav P = Windows -> path_of_string P = WindowsParse.parse ->
  WindowsParse.is_letter c = true ->
  List.Forall (fun x => plain_windows x = true) tl ->
  backup_target P bd (mkPath (String c ":") "\" tl)
  = mkPath (drive bd) (root bd) (tail bd ++ String c "" :: tl).
Proof.
  intros Hfl Hparse Hc Hplain. unfold backup_target, safe_rel_for_backup.
  rewrite Hfl, Hparse, ParseFacts.windows_rel by assumption.
  reflexivity.
Qed.

Lemma windows_target_differs c tl bd :
  path_eqb Windows (mkPath (String c ":") "\" tl)
    (mkPath (drive bd) (root bd) (tail bd ++ String c "" :: tl)) = false.
Proof.
  apply bool_decide_eq_false. unfold path_key. intros Heq.
  assert (parts (mkPath (String c ":") "\" tl) = String c ":\" :: tl) as Hp
    by reflexivity.
  rewrite Hp in Heq. clear Hp.
  destruct bd as [d r t]. unfold parts, anchor in Heq. simpl in Heq.
  destruct (String.eqb (d +:+ r) ""), t as [|x t]; simpl in Heq.
  - inversion Heq.
  - apply (f_equal List.length) in Heq. simpl in Heq.
    rewrite !length_map, length_app in Heq. simpl in Heq. lia.
  - apply (f_equal List.length) in Heq. simpl in Heq.
    rewrite !length_map in Heq. simpl in Heq. lia.
  - apply (f_equal List.length) in Heq. simpl in Heq.
    rewrite !length_map, length_app in Heq. simpl in Heq. lia.
Qed.

End BackupFacts.

(** X17. On a POSIX platform backup mode moves nothing.  The destination
    computed for an absolute, colon-free path is that path itself, the
    backup folder dropping out of the join; so whatever the outcome the
    store is left as it was, and when the path exists and nothing fails the
    outcome still reads "MOVED -> " followed by the path's own name. *)
Theorem posix_backup_moves_nothing P tl bd w :
  flav P = Posix -> path_of_string P = PosixParse.parse -> drive bd = "" ->
  List.Forall (fun c => plain_posix c = true) tl ->
  (forall r w',
     remove_path P (px tl) (Some bd) false w = (r, w') -> store w' = store w)
  /\ (tl <> [] -> faults w = [] ->
      Fs.exists_ Posix (store w) (px tl) = true ->
      remove_path P (px tl) (Some bd) false w
      = (inr (px tl, "MOVED -> " +:+ path_str Posix (px tl)), w)).
Proof.
  intros Hfl Hparse Hbd Hplain.
  pose proof (posix_target P tl bd Hfl Hparse Hbd Hplain) as Htarget.
  unfold backup_target in Htarget. split.
  - intros r w' H.
    assert (forall r0, remove_path_body P (px tl) (Some bd) false w = (r0, w') ->
              store w' = store w) as Hbody.
    { intros r0 H0. apply remove_path_body_inv in H0
        as [[Hs _]|[([=] & _)|(_ & Hex & b & st1 & [= <-] & Hmk & Hrest)]];
        [exact Hs|].
      rewrite Htarget in Hmk, Hrest.
      apply exists_lstat in Hex as (n & Hn).
      apply (makedirs_parent_unchanged _ _ _ _ _ Hn) in Hmk. subst st1.
      destruct Hrest as [(e & _ & Hs)|[_ Hmv]]; [exact Hs|].
      rewrite (move_same _ _ _ _ Hn) in Hmv. congruence. }
    apply remove_path_inv in H as (o & _ & [H|[_ [e H]]]); eauto.
  - intros Hne Hf Hex. rewrite <- Hfl in Hex |- *.
    destruct (exists_lstat P _ _ Hex) as (n & Hn).
    unfold remove_path, try_except, remove_path_body, bind, path_exists,
      ensure_dir, shutil_move.
    rewrite (query_calm _ w Hf), Hex. cbn [negb]. cbv iota.
    rewrite Htarget.
    rewrite (update_calm _ w Hf
               (makedirs_parent_ok (flav P) (store w) (px tl) n Hne Hn)).
    rewrite (update_calm _ w Hf (move_same _ _ _ _ Hn)).
    reflexivity.
Qed.

Lemma posix_backup_moves_nothing_witness :
  remove_path Sample.pf Sample.launcher (Some Sample.backups) false Sample.w0
  = (inr (Sample.launcher, "MOVED -> /game/Data/NVMP_Launcher.exe"),
     Sample.w0).
Proof.
  refine (proj2 (posix_backup_moves_nothing Sample.pf
                   ["game"; "Data"; "NVMP_Launcher.exe"] Sample.backups
                   Sample.w0 eq_refl eq_refl eq_refl _) _ eq_refl eq_refl).
  - repeat constructor.
  - discriminate.
Defined.

(** X18. On Windows a file or link that is reported as moved lies in the
    backup folder afterwards, under a folder named by its drive letter and
    then its old path, and is gone from where it was: the destination of
    "C:\...\x" is "<backup>\C\...\x", the outcome names it, and after the
    move the old entry is found there (or inside it, should a directory sit
    at that place already). *)
Theorem windows_backup_moves_file P c tl bd w o w' n :
  flav P = Windows -> path_of_string P = WindowsParse.parse ->
  WindowsParse.is_letter c = true ->
  List.Forall (fun x => plain_windows x = true) tl ->
  Fs.lstat Windows (store w) (mkPath (String c ":") "\" tl) = Some n ->
  leaf n ->
  remove_path P (mkPath (String c ":") "\" tl) (Some bd) false w
  = (inr (mkPath (String c ":") "\" tl, o), w') ->
  starts_with "MOVED -> " o = true ->
  backup_target P bd (mkPath (String c ":") "\" tl)
  = mkPath (drive bd) (root bd) (tail bd ++ String c "" :: tl)
  /\ o = "MOVED -> "
         +:+ path_str Windows
               (backup_target P bd (mkPath (String c ":") "\" tl))
  /\ Fs.lstat Windows (store w') (mkPath (String c ":") "\" tl) = None
  /\ Fs.lstat Windows (store w')
       (landing Windows (store w) (mkPath (String c ":") "\" tl)
          (backup_target P bd (mkPath (String c ":") "\" tl)))
     = Some n.
Proof.
  intros Hfl Hparse Hc Hplain Hn Hleaf H Hmoved.
  pose proof (windows_target P c tl bd Hfl Hparse Hc Hplain) as Htarget.
  split; [exact Htarget|].
  set (p := mkPath (String c ":") "\" tl) in *.
  apply remove_path_inv in H as (o' & [= <-] & [H|[Herr _]]).
  2:{ destruct o as [|a o]; [discriminate|]. cbn [starts_with] in Hmoved, Herr.
      apply andb_true_iff in Hmoved as [Hm%Ascii.eqb_eq _].
      apply andb_true_iff in Herr as [He%Ascii.eqb_eq _]. congruence. }
  apply remove_path_body_inv in H
    as [[_ H]|[([=] & _)|(_ & _ & b & st1 & [= <-] & Hmk & Hrest)]].
  { destruct (H _ eq_refl) as [[= ->]|([= ->] & _)]; discriminate Hmoved. }
  destruct Hrest as [(e & [=] & _)|[[= ->] Hmv]].
  fold (backup_target P bd p) in Hmk, Hmv |- *.
  rewrite Hfl in Hmk, Hmv |- *. split; [reflexivity|].
  set (dst := backup_target P bd p) in *.
  assert (tail dst <> []) as Htail.
  { rewrite Htarget. simpl. now destruct (tail bd). }
  assert (parts dst <> []) as Hparts.
  { unfold parts. destruct (String.eqb (anchor dst) ""); [exact Htail|].
    discriminate. }
  assert (Fs.lstat Windows st1 p = Some n) as Hn1
    by exact (FsFacts.mkdir_p_frame _ _ _ _ _ _ Hmk Hn Hleaf).
  assert (Fs.isdir Windows st1 dst = Fs.isdir Windows (store w) dst) as Hdir.
  { apply FsFacts.lstat_isdir. rewrite <- (child_parent dst Htail).
    exact (FsFacts.makedirs_child _ _ _ _ _ Hmk). }
  destruct (move_leaf Windows st1 p dst n (store w') Hn1 Hleaf) as [Hgone Hat];
    try assumption; try discriminate.
  - rewrite Htarget. apply windows_target_differs.
  - split; [exact Hgone|]. unfold landing. now rewrite <- Hdir.
Qed.

Lemma windows_backup_moves_file_witness :
  Fs.lstat Windows
    (store (remove_path Sample.win_pf
              (Sample.cx ["Game"; "Data"; "NVMP_Launcher.exe"])
              (Some Sample.win_backups) false Sample.win_w0).2)
    (Sample.cx ["Game"; "Data"; "NVMP_Launcher.exe"]) = None
  /\ Fs.lstat Windows
       (store (remove_path Sample.win_pf
                 (Sample.cx ["Game"; "Data"; "NVMP_Launcher.exe"])
                 (Some Sample.win_backups) false Sample.win_w0).2)
       (Sample.cx ["Backups"; "C"; "Game"; "Data"; "NVMP_Launcher.exe"])
     = Some (File "MZ").
Proof.
  destruct (windows_backup_moves_file Sample.win_pf "C"
              ["Game"; "Data"; "NVMP_Launcher.exe"] Sample.win_backups
              Sample.win_w0
              "MOVED -> C:\Backups\C\Game\Data\NVMP_Launcher.exe"
              (remove_path Sample.win_pf
                 (Sample.cx ["Game"; "Data"; "NVMP_Launcher.exe"])
                 (Some Sample.win_backups) false Sample.win_w0).2
              (File "MZ") eq_refl eq_refl eq_refl)
    as (_ & _ & Hgone & Hat).
  - repeat constructor.
  - reflexivity.
  - exact I.
  - reflexivity.
  - reflexivity.
  - split; [exact Hgone | exact Hat].
Defined.

(** ** The text cleaner: second runs, and what it leaves alone *)

Section CleanerFacts.
Context (P : platform).
Import MonadFacts.

Lemma count_kept lines : count_matching (List.filter keep_line lines) = 0%nat.
Proof.
  unfold count_matching, keep_line.
  induction lines as [|l lines IH]; [reflexivity|]. simpl.
  destruct (pat_match l) eqn:E; simpl; [exact IH|]. now rewrite E.
Qed.

(** After a clean that reported no failure no line of the file matches. *)
Lemma strip_leaves_no_match path bd del w msgs w' :
  strip_nvmp_lines_from_text_file P path bd del w = (inr msgs, w') ->
  edit_failed msgs = false ->
  count_matching (file_lines (flav P) (store w') path) = 0%nat.
Proof.
  intros H Hok. apply strip_inv in H as [H|[_ Hf]]; [|congruence].
  apply strip_body_inv in H
    as [(_ & Hst & Hc)|(d & st1 & Hd & _ & _ & _ & Hwr)].
  - now rewrite Hst.
  - rewrite (file_lines_data P _ _ _ (FsFacts.write_file_data _ _ _ _ _ Hwr)).
    rewrite (file_lines_data P _ _ _ Hd).
    rewrite TextFacts.kept_lines_round_trip. apply count_kept.
Qed.





End CleanerFacts.

(** X19. Cleaning is idempotent: once a file has been cleaned without a
    failure being reported, cleaning it again, in whatever mode, leaves
    the store as it is, and reports nothing unless an I/O failure is
    reported. *)
Theorem strip_again_changes_nothing P path bd del bd' del' w msgs w' msgs' w'' :
  strip_nvmp_lines_from_text_file P path bd del w = (inr msgs, w') ->
  edit_failed msgs = false ->
  strip_nvmp_lines_from_text_file P path bd' del' w' = (inr msgs', w'') ->
  store w'' = store w'
  /\ (edit_failed msgs' = false -> msgs' = []).
Proof.
  intros H1 Hok H2.
  pose proof (strip_leaves_no_match P _ _ _ _ _ _ H1 Hok) as Hno.
  apply strip_inv in H2 as [H2|[[e H2] Hf]].
  - destruct (strip_body_no_match P _ _ _ _ _ _ Hno H2) as [Hs Hm].
    split; [exact Hs|]. intros _. now apply Hm.
  - destruct (strip_body_no_match P _ _ _ _ _ _ Hno H2) as [Hs _].
    split; [exact Hs | congruence].
Qed.

Lemma strip_again_changes_nothing_witness :
  (strip_nvmp_lines_from_text_file Sample.pf Sample.plugins_txt
     (Some Sample.backups) false Sample.w0).1
  = inr ["EDITED: /game/Data/plugins.txt (removed 1 NVMP line(s))"]
  /\ store (strip_nvmp_lines_from_text_file Sample.pf Sample.plugins_txt
              (Some Sample.backups) false
              (strip_nvmp_lines_from_text_file Sample.pf Sample.plugins_txt
                 (Some Sample.backups) false Sample.w0).2).2
     = store (strip_nvmp_lines_from_text_file Sample.pf Sample.plugins_txt
                (Some Sample.backups) false Sample.w0).2.
Proof.
  split; [reflexivity|].
  exact (proj1 (strip_again_changes_nothing Sample.pf Sample.plugins_txt
                  (Some Sample.backups) false (Some Sample.backups) false
                  Sample.w0
                  ["EDITED: /game/Data/plugins.txt (removed 1 NVMP line(s))"]
                  (strip_nvmp_lines_from_text_file Sample.pf
                     Sample.plugins_txt (Some Sample.backups) false
                     Sample.w0).2
                  []
                  (strip_nvmp_lines_from_text_file Sample.pf
                     Sample.plugins_txt (Some Sample.backups) false
                     (strip_nvmp_lines_from_text_file Sample.pf
                        Sample.plugins_txt (Some Sample.backups) false
                        Sample.w0).2).2
                  eq_refl eq_refl eq_refl)).
Defined.



(** ** The backup folder *)

Section FolderFacts.
Context (P : platform).
Import MonadFacts.

(** A successful [mkdir -p] ends with a directory at the path. *)
Lemma mkdir_p_isdir ks : forall o n',
  Fs.mkdir_p (flav P) ks o = inr n' ->
  exists m es, Fs.lookup (flav P) ks (Some n') = Some m
               /\ Fs.follow m = Some (Dir es).
Proof.
  induction ks as [|k ks IH]; intros o n' H; simpl in H.
  - destruct o as [m|].
    + destruct (Fs.follow m) as [[d|es|t]|] eqn:Ef; try discriminate.
      inversion H; subst. simpl. eauto.
    + inversion H; subst. simpl. eauto.
  - destruct o as [[d|es|t]|]; try discriminate.
    + destruct (Fs.mkdir_p (flav P) ks (Fs.find_entry (flav P) k es))
        as [e|c] eqn:E; [discriminate|].
      inversion H; subst. simpl. rewrite FsFacts.find_set_same.
      exact (IH _ _ E).
    + destruct (Fs.mkdir_p (flav P) ks None) as [e|c] eqn:E; [discriminate|].
      inversion H; subst. simpl. rewrite FsFacts.same_refl.
      exact (IH _ _ E).
Qed.

Lemma makedirs_isdir st p st' :
  Fs.makedirs (flav P) st p = inr st' -> Fs.isdir (flav P) st' p = true.
Proof.
  intros H. apply mkdir_p_isdir in H as (m & es & Hl & Hf).
  unfold Fs.isdir, Fs.stat, Fs.lstat. now rewrite Hl, Hf.
Qed.

Lemma resolve_path_inr o w g w' :
  resolve_path P o w = (inr g, w') ->
  store w' = store w
  /\ g = match o with
         | Some s => if String.eqb s "" then None
                     else Some (realpath P (expanduser P (path_of_string P s)))
         | None => None
         end.
Proof.
  unfold resolve_path. destruct o as [s|]; [|now intros [= <- <-]].
  destruct (String.eqb s ""); [now intros [= <- <-]|].
  intros H. apply bind_inr in H as (r & w1 & Hr & H).
  apply query_inv in Hr as (Hs & _ & Hv). specialize (Hv _ eq_refl).
  inversion H; subst. now split.
Qed.

End FolderFacts.

(** X21. In backup mode the backup folder is there once it has been
    chosen: it is the resolved "NVMP_Removed_<stamp>" below the resolved
    [--backup-dir], or below the current directory when none (or an empty
    one) is given; after the call it is a directory of the store, and
    making it changed no file or link. *)
Theorem choose_backup_dir_makes_folder P args w bd w' :
  arg_delete args = false ->
  choose_backup_dir P args w = (inr bd, w') ->
  exists b,
    bd = Some b
    /\ b = realpath P
             (child
                (match arg_backup_dir args with
                 | Some s =>
                     if String.eqb s "" then cwd P
                     else realpath P (expanduser P (path_of_string P s))
                 | None => cwd P
                 end)
                ("NVMP_Removed_" +:+ stamp P))
    /\ Fs.isdir (flav P) (store w') b = true
    /\ forall q n, Fs.lstat (flav P) (store w) q = Some n -> leaf n ->
                   Fs.lstat (flav P) (store w') q = Some n.
Proof.
  intros Hdel H. unfold choose_backup_dir in H. rewrite Hdel in H.
  apply MonadFacts.bind_inr in H as (g & w1 & Hg & H).
  apply resolve_path_inr in Hg as (Hs1 & Hg).
  apply MonadFacts.bind_inr in H as (b & w2 & Hb & H).
  apply MonadFacts.query_inv in Hb as (Hs2 & _ & Hb). specialize (Hb _ eq_refl).
  apply MonadFacts.bind_inr in H as (u & w3 & Hmk & H).
  apply update_inr in Hmk as (Hmk & _).
  inversion H; subst bd w3. exists b. split; [reflexivity|]. split.
  - rewrite Hb, Hg. destruct (arg_backup_dir args) as [s|]; [|reflexivity].
    now destruct (String.eqb s "").
  - split; [exact (makedirs_isdir P _ _ _ Hmk)|].
    intros q n Hq Hn. rewrite <- Hs1, <- Hs2 in Hq.
    exact (FsFacts.mkdir_p_frame _ _ _ _ _ _ Hmk Hq Hn).
Qed.

Lemma choose_backup_dir_makes_folder_witness :
  Fs.isdir Posix (store (choose_backup_dir Sample.pf Sample.backup_mode Sample.w0).2)
    (px ["backups"; "NVMP_Removed_20240101_120000"]) = true
  /\ Fs.isdir Posix Sample.disk
       (px ["backups"; "NVMP_Removed_20240101_120000"]) = false.
Proof.
  split; [|reflexivity].
  destruct (choose_backup_dir_makes_folder Sample.pf Sample.backup_mode
              Sample.w0
              (Some (px ["backups"; "NVMP_Removed_20240101_120000"]))
              (choose_backup_dir Sample.pf Sample.backup_mode Sample.w0).2
              eq_refl eq_refl)
    as (b & [= <-] & _ & Hdir & _).
  exact Hdir.
Defined.

(** ** Guessed roots *)

Section GuessFacts.
Context (P : platform).
Import MonadFacts.

Lemma existing_sound dirs : forall w l w',
  existing P dirs w = (inr l, w') ->
  forall d, In d l -> In d dirs /\ Fs.exists_ (flav P) (store w) d = true.
Proof.
  induction dirs as [|x dirs IH]; intros w l w' H d Hd; simpl in H.
  - inversion H; subst. destruct Hd.
  - apply bind_inr in H as (ex & w1 & Hex & H).
    apply path_exists_inv in Hex as (Hs & _ & Hex). specialize (Hex _ eq_refl).
    apply bind_inr in H as (tl & w2 & Htl & H).
    inversion H; subst l w2. clear H.
    assert (In d tl -> In d (x :: dirs)
                       /\ Fs.exists_ (flav P) (store w) d = true) as Hrest.
    { intros Hin. destruct (IH _ _ _ Htl d Hin) as [H1 H2].
      rewrite Hs in H2. split; [now right | exact H2]. }
    destruct ex; [|now apply Hrest].
    destruct Hd as [<-|Hd]; [|now apply Hrest].
    split; [now left | now symmetry].
Qed.

Lemma mo2_near_sound l : forall w ds w',
  mo2_near P l w = (inr ds, w') ->
  forall d, In d ds ->
    exists par, In par l /\ d = child par "Mod Organizer 2"
                /\ Fs.exists_ (flav P) (store w) par = true
                /\ Fs.exists_ (flav P) (store w) d = true.
Proof.
  induction l as [|par l IH]; intros w ds w' H d Hd; simpl in H.
  - inversion H; subst. destruct Hd.
  - apply bind_inr in H as (ex & w1 & Hex & H).
    apply path_exists_inv in Hex as (Hs & _ & Hex). specialize (Hex _ eq_refl).
    assert (forall w2 tl w3,
              store w2 = store w -> mo2_near P l w2 = (inr tl, w3) ->
              In d tl ->
              exists par0, In par0 (par :: l)
                /\ d = child par0 "Mod Organizer 2"
                /\ Fs.exists_ (flav P) (store w) par0 = true
                /\ Fs.exists_ (flav P) (store w) d = true) as Hrest.
    { intros w2 tl w3 Hs2 Htl Hin.
      destruct (IH _ _ _ Htl d Hin) as (p0 & Hp0 & -> & H1 & H2).
      rewrite Hs2 in H1, H2. exists p0. repeat split; auto. now right. }
    destruct ex; simpl in H; [|exact (Hrest _ _ _ Hs H Hd)].
    apply bind_inr in H as (ex2 & w2 & Hex2 & H).
    apply path_exists_inv in Hex2 as (Hs2 & _ & Hex2).
    specialize (Hex2 _ eq_refl). rewrite Hs in Hex2.
    apply bind_inr in H as (tl & w3 & Htl & H).
    inversion H; subst ds w3. clear H.
    assert (store w2 = store w) as Hs' by congruence.
    destruct ex2; [|exact (Hrest _ _ _ Hs' Htl Hd)].
    destruct Hd as [<-|Hd]; [|exact (Hrest _ _ _ Hs' Htl Hd)].
    exists par. repeat split; auto. now left.
Qed.

End GuessFacts.

(** X22. The per-user guesses are checked before they are returned: every
    directory [user_dirs] and [likely_vortex_mod_roots] return exists in
    the store, which neither of them changes. *)
Theorem guessed_user_dirs_exist P w :
  (forall ds w', user_dirs P w = (inr ds, w') ->
     store w' = store w
     /\ forall d, In d ds -> Fs.exists_ (flav P) (store w) d = true)
  /\ (forall ds w', likely_vortex_mod_roots P w = (inr ds, w') ->
        store w' = store w
        /\ forall d, In d ds -> Fs.exists_ (flav P) (store w) d = true).
Proof.
  split; intros ds w' H.
  - split; [exact (proj1 (user_dirs_keeps P _ _ _ H))|].
    unfold user_dirs in H.
    apply MonadFacts.bind_inr in H as (up & w1 & H1 & H).
    apply MonadFacts.bind_inr in H as (lc & w2 & H2 & H).
    apply MonadFacts.bind_inr in H as (rm & w3 & H3 & H).
    apply env_dir_keeps in H1 as [Hs1 _], H2 as [Hs2 _], H3 as [Hs3 _].
    intros d Hd. destruct (existing_sound P _ _ _ _ H d Hd) as [_ Hex].
    now rewrite Hs3, Hs2, Hs1 in Hex.
  - split; [exact (proj1 (likely_vortex_mod_roots_keeps P _ _ _ H))|].
    unfold likely_vortex_mod_roots in H.
    apply MonadFacts.bind_inr in H as (rm & w1 & H1 & H).
    apply env_dir_keeps in H1 as [Hs1 _].
    destruct rm as [r|]; [|inversion H; subst; intros d []].
    intros d Hd. destruct (existing_sound P _ _ _ _ H d Hd) as [_ Hex].
    now rewrite Hs1 in Hex.
Qed.

Lemma guessed_user_dirs_exist_witness :
  user_dirs Sample.pf
    (mkWorld (Dir [("/", Dir [("roam", Dir [("Vortex", Dir [])])])])
             (<["APPDATA" := "/roam"]> ∅) [])
  = (inr [px ["roam"; "Vortex"]],
     mkWorld (Dir [("/", Dir [("roam", Dir [("Vortex", Dir [])])])])
             (<["APPDATA" := "/roam"]> ∅) [])
  /\ Fs.exists_ Posix (Dir [("/", Dir [("roam", Dir [("Vortex", Dir [])])])])
       (px ["roam"; "Vortex"]) = true.
Proof.
  assert (user_dirs Sample.pf
            (mkWorld (Dir [("/", Dir [("roam", Dir [("Vortex", Dir [])])])])
                     (<["APPDATA" := "/roam"]> ∅) [])
          = (inr [px ["roam"; "Vortex"]],
             mkWorld (Dir [("/", Dir [("roam", Dir [("Vortex", Dir [])])])])
                     (<["APPDATA" := "/roam"]> ∅) [])) as Hrun
    by (vm_compute; reflexivity).
  split; [exact Hrun|].
  exact (proj2 (proj1 (guessed_user_dirs_exist Sample.pf _) _ _ Hrun)
           (px ["roam"; "Vortex"]) (or_introl eq_refl)).
Defined.

(** X23. What [likely_mo2_roots_near_game] returns is a folder named
    "Mod Organizer 2" that exists, directly in the parent or the
    grandparent of the game directory, that parent existing too. *)
Theorem guessed_mo2_roots_exist P g w ds w' :
  likely_mo2_roots_near_game P (Some g) w = (inr ds, w') ->
  forall d, In d ds ->
    (d = child (parent g) "Mod Organizer 2"
     \/ d = child (parent (parent g)) "Mod Organizer 2")
    /\ Fs.exists_ (flav P) (store w) d = true.
Proof.
  intros H d Hd. unfold likely_mo2_roots_near_game in H.
  destruct (mo2_near_sound P _ _ _ _ H d Hd) as (par & Hpar & -> & _ & Hex).
  split; [|exact Hex].
  destruct Hpar as [<-|[<-|[]]]; auto.
Qed.

Lemma guessed_mo2_roots_exist_witness :
  likely_mo2_roots_near_game Sample.pf (Some (px ["games"; "FNV"]))
    (mkWorld (Dir [("/", Dir [("Mod Organizer 2", Dir []);
                              ("games", Dir [("FNV", Dir [])])])]) ∅ [])
  = (inr [px ["Mod Organizer 2"]],
     mkWorld (Dir [("/", Dir [("Mod Organizer 2", Dir []);
                              ("games", Dir [("FNV", Dir [])])])]) ∅ [])
  /\ Fs.exists_ Posix
       (Dir [("/", Dir [("Mod Organizer 2", Dir []);
                        ("games", Dir [("FNV", Dir [])])])])
       (px ["Mod Organizer 2"]) = true.
Proof.
  split; [reflexivity|].
  exact (proj2 (guessed_mo2_roots_exist Sample.pf (px ["games"; "FNV"])
                  (mkWorld (Dir [("/", Dir [("Mod Organizer 2", Dir []);
                                            ("games", Dir [("FNV", Dir [])])])])
                           ∅ [])
                  _ _ eq_refl (px ["Mod Organizer 2"]) (or_introl eq_refl))).
Defined.
